(** * dcnum: chunk caches, extraction hand-off, sparse-median background
      and pipeline identifiers

    A shallow embedding of the parts of dcnum that its specification makes
    statements about.  The first half of the file is the model, one module
    per source file or class; the second half states and proves the
    properties.

    - [Py]        : the Python / numpy primitives the code relies on
                    (exceptions, slicing, indexing, OrderedDict);
    - [Cache]     : [dcnum/read/cache.py], class [HDF5ImageCache];
    - [CorrCache] : [dcnum/read/cache.py], class [ImageCorrCache];
    - [Manager]   : [dcnum/feat/event_extractor_manager_thread.py],
                    [EventExtractorManagerThread.run];
    - [Extractor] : [dcnum/feat/queue_event_extractor.py],
                    [QueueEventExtractor.run];
    - [SparseMed] : [dcnum/feat/feat_background/bg_sparse_median.py],
                    [process_second], [MedianWorkerSingle.run] and the
                    assignment of background images in [process_approach];
    - [Ppid]      : the pipeline identifier of [QueueEventExtractor].

    Conventions.  A Python call that may raise returns a [Py.result]:
    [inl v] is a normal return of [v], [inr e] is the exception [e].  A method
    that mutates [self] returns the new object next to its result.  Code
    that waits for other threads or processes takes the sequence of its
    observations of the shared memory as an argument.  Pixel values are
    integers ([Z]); an image is a list of rows, a chunk a list of images
    (the first numpy axis is the list itself). *)

From Stdlib Require Import String Ascii DecimalString.
From Stdlib Require Import ZArith QArith Qabs List Lia Bool.
From Stdlib Require Import Permutation Sorting.
Import ListNotations.

Open Scope Z_scope.

(* ================================================================== *)
(** * Python and numpy primitives *)
(* ================================================================== *)

Module Py.

(** The exceptions the modelled code can raise, with their messages. *)
Inductive exn : Type :=
| IndexError (msg : string)
| KeyError (msg : string)
| ValueError (msg : string)
| ZeroDivisionError (msg : string)
| AssertionError (msg : string).

Definition result (A : Type) : Type := (A + exn)%type.

Definition bind {A B : Type} (r : result A) (k : A -> result B) : result B :=
  match r with
  | inl a => k a
  | inr e => inr e
  end.

Definition is_exn {A : Type} (r : result A) : bool :=
  match r with inl _ => false | inr _ => true end.

(** [str(z)] for an integer. *)
Definition show (z : Z) : string := NilZero.string_of_int (Z.to_int z).

(** [needle in haystack] for strings. *)
Definition contains (needle haystack : string) : bool :=
  match String.index 0 needle haystack with
  | Some _ => true
  | None => false
  end.

(** ** Slices

    [slice.indices(len)] for a slice without step: a negative bound counts
    from the end, and every bound is clamped to [0 .. len]. *)
Definition clamp_index (len i : Z) : Z :=
  if i <? 0 then Z.max (i + len) 0 else Z.min i len.

(** [l[start:stop]]; h5py datasets and numpy arrays agree on it. *)
Definition slice {A : Type} (l : list A) (start stop : Z) : list A :=
  let len := Z.of_nat (length l) in
  let a := clamp_index len start in
  let b := clamp_index len stop in
  firstn (Z.to_nat (b - a)) (skipn (Z.to_nat a) l).

(** ** Indexing a numpy array along its first axis: [a[i]] *)
Definition np_index_msg (i n : Z) : string :=
  ("index " ++ show i ++ " is out of bounds for axis 0 with size " ++ show n)%string.

Definition np_getitem {A : Type} (a : list A) (i : Z) : result A :=
  let n := Z.of_nat (length a) in
  let j := if i <? 0 then i + n else i in
  match (if (0 <=? j) && (j <? n) then nth_error a (Z.to_nat j) else None) with
  | Some x => inl x
  | None => inr (IndexError (np_index_msg i n))
  end.

(** Indexing a Python sequence or a shared ctypes array: [a[i]]. *)
Definition py_getitem {A : Type} (a : list A) (i : Z) : result A :=
  let n := Z.of_nat (length a) in
  let j := if i <? 0 then i + n else i in
  match (if (0 <=? j) && (j <? n) then nth_error a (Z.to_nat j) else None) with
  | Some x => inl x
  | None => inr (IndexError "index out of range")
  end.

(** [a[i] = x] on a Python list or a shared ctypes array. *)
Fixpoint set_nth {A : Type} (a : list A) (n : nat) (x : A) : list A :=
  match a, n with
  | [], _ => []
  | _ :: a', O => x :: a'
  | y :: a', S n' => y :: set_nth a' n' x
  end.

Definition py_setitem {A : Type} (a : list A) (i : Z) (x : A) : result (list A) :=
  let n := Z.of_nat (length a) in
  let j := if i <? 0 then i + n else i in
  if (0 <=? j) && (j <? n) then inl (set_nth a (Z.to_nat j) x)
  else inr (IndexError "index out of range").

(** [range(n)] *)
Definition range (n : Z) : list Z := map Z.of_nat (seq 0 (Z.to_nat n)).

(** [np.sum] of an integer array. *)
Definition np_sum (a : list Z) : Z := fold_right Z.add 0 a.

(** ** [collections.OrderedDict] with integer keys

    An association list in insertion order; keys are kept distinct by
    [od_setitem]. *)
Definition odict (V : Type) : Type := list (Z * V).

Definition od_keys {V : Type} (d : odict V) : list Z := map fst d.

(** [k in d] *)
Definition od_contains {V : Type} (k : Z) (d : odict V) : bool :=
  existsb (fun p => fst p =? k) d.

(** [d[k]] *)
Definition od_getitem {V : Type} (d : odict V) (k : Z) : result V :=
  match find (fun p => fst p =? k) d with
  | Some (_, v) => inl v
  | None => inr (KeyError (show k))
  end.

(** [d[k] = v]: a present key keeps its position, a new key goes last. *)
Fixpoint od_setitem {V : Type} (d : odict V) (k : Z) (v : V) : odict V :=
  match d with
  | [] => [(k, v)]
  | (k', v') :: d' =>
      if k' =? k then (k, v) :: d' else (k', v') :: od_setitem d' k v
  end.

(** [d.popitem(last=False)]: a pair of the removed item and the rest. *)
Definition od_popitem_first {V : Type} (d : odict V) : result ((Z * V) * odict V) :=
  match d with
  | [] => inr (KeyError "dictionary is empty")
  | p :: d' => inl (p, d')
  end.

(** The last [n] elements of a list. *)
Definition lastn {A : Type} (n : nat) (l : list A) : list A :=
  skipn (length l - n) l.

(** Appending an entry to an insertion-ordered dictionary of capacity [n]:
    the entry goes last and the first one leaves when [n] is exceeded. *)
Definition fifo_put {V : Type} (d : odict V) (n k : Z) (v : V) : odict V :=
  let d1 := (d ++ [(k, v)])%list in
  if Z.of_nat (length d1) >? n then tl d1 else d1.

End Py.

(* ================================================================== *)
(** * [HDF5ImageCache] *)
(* ================================================================== *)

Module Cache.
Import Py.

Definition image : Type := list (list Z).
Definition chunk : Type := list image.

(** [np.array(data, dtype=bool)]: a pixel is [True] (1) iff it is non-zero. *)
Definition astype_bool (data : chunk) : chunk :=
  map (map (map (fun v => if v =? 0 then 0 else 1))) data.

(** The object state.  [loads] is not a Python attribute: it logs, in order,
    the chunk indices for which [self.h5ds[fslice]] was evaluated, so that
    "a hit reads nothing" can be stated. *)
Record HDF5ImageCache : Type := mk {
  h5ds : list image;
  chunk_size : Z;
  boolean : bool;
  cache_size : Z;
  cache : odict chunk;
  loads : list Z
}.

(** [HDF5ImageCache.__init__] *)
Definition init (ds : list image) (chunk_size cache_size : Z) (boolean : bool)
  : HDF5ImageCache :=
  mk ds chunk_size boolean cache_size [] [].

Definition with_cache (c : HDF5ImageCache) (d : odict chunk) (l : list Z)
  : HDF5ImageCache :=
  mk (h5ds c) (chunk_size c) (boolean c) (cache_size c) d l.

(** What a miss on [chunk_index] materialises (lines 39-44). *)
Definition materialize (c : HDF5ImageCache) (chunk_index : Z) : chunk :=
  let data := slice (h5ds c)
                    (chunk_size c * chunk_index)
                    (chunk_size c * (chunk_index + 1)) in
  if boolean c then astype_bool data else data.

(** [HDF5ImageCache.get_chunk] *)
Definition get_chunk (c : HDF5ImageCache) (chunk_index : Z)
  : result chunk * HDF5ImageCache :=
  if od_contains chunk_index (cache c) then
    (od_getitem (cache c) chunk_index, c)
  else
    let data := materialize c chunk_index in
    let cache1 := od_setitem (cache c) chunk_index data in
    let loads1 := (loads c ++ [chunk_index])%list in
    if Z.of_nat (length cache1) >? cache_size c then
      match od_popitem_first cache1 with
      | inl (_, cache2) =>
          (od_getitem cache2 chunk_index, with_cache c cache2 loads1)
      | inr e => (inr e, with_cache c cache1 loads1)
      end
    else (od_getitem cache1 chunk_index, with_cache c cache1 loads1).

(** [HDF5ImageCache.__getitem__] *)
Definition getitem (c : HDF5ImageCache) (index : Z)
  : result image * HDF5ImageCache :=
  let index := if index <? 0 then Z.of_nat (length (h5ds c)) + index else index in
  if chunk_size c =? 0 then
    (inr (ZeroDivisionError "integer division or modulo by zero"), c)
  else
    let chunk_index := index / chunk_size c in
    let sub_index := index mod chunk_size c in
    let (r, c') := get_chunk c chunk_index in
    (bind r (fun ch => np_getitem ch sub_index), c').

(** The cache after a miss: the new chunk goes last, and the first entry
    leaves when the capacity is exceeded. *)
Definition after_miss (c : HDF5ImageCache) (k : Z) : odict chunk :=
  let cache1 := (cache c ++ [(k, materialize c k)])%list in
  if Z.of_nat (length cache1) >? cache_size c then tl cache1 else cache1.

(** The states a cache can be in: freshly built, or after any calls. *)
Inductive reachable (c0 : HDF5ImageCache) : HDF5ImageCache -> Prop :=
| reach_init : reachable c0 c0
| reach_get_chunk c k :
    reachable c0 c -> reachable c0 (snd (get_chunk c k))
| reach_getitem c i :
    reachable c0 c -> reachable c0 (snd (getitem c i)).

(** The representation invariant of a cache:
    - keys are distinct;
    - every resident chunk is what a miss on its index materialises;
    - the resident indices are, in order, the last [cache_size] loaded ones. *)
Record inv (c : HDF5ImageCache) : Prop := mk_inv {
  inv_nodup : NoDup (od_keys (cache c));
  inv_data : forall k v, In (k, v) (cache c) -> v = materialize c k;
  inv_fifo : od_keys (cache c) = lastn (Z.to_nat (cache_size c)) (loads c)
}.

(** Two caches over the same dataset with the same parameters. *)
Definition same_params (c c' : HDF5ImageCache) : Prop :=
  h5ds c' = h5ds c /\ chunk_size c' = chunk_size c /\
  boolean c' = boolean c /\ cache_size c' = cache_size c.

(** A dataset of [size] one-pixel images, image [k] holding the value [k]
    (the tests use random images of shape 80 x 180). *)
Definition dataset (size : nat) : list image :=
  map (fun k => [[Z.of_nat k]]) (seq 0 size).

End Cache.

(* ================================================================== *)
(** * [ImageCorrCache] *)
(* ================================================================== *)

Module CorrCache.
Import Py.

(** [np.array(x, dtype=int)]: numpy's [int] is the 64-bit signed integer. *)
Definition int64_wrap (z : Z) : Z := (z + 2 ^ 63) mod 2 ^ 64 - 2 ^ 63.

Definition astype_int (data : Cache.chunk) : Cache.chunk :=
  map (map (map int64_wrap)) data.

(** numpy broadcasting of a binary operation along one axis: equal lengths
    pair up, a length-one operand is repeated, anything else is refused. *)
Definition broadcast_msg : string :=
  "operands could not be broadcast together".

Fixpoint zip_with {A B C : Type} (f : A -> B -> result C)
  (a : list A) (b : list B) : result (list C) :=
  match a, b with
  | [], [] => inl []
  | x :: a', y :: b' =>
      bind (f x y) (fun z =>
      bind (zip_with f a' b') (fun r => inl (z :: r)))
  | _, _ => inr (ValueError broadcast_msg)
  end.

Definition broadcast {A B C : Type} (f : A -> B -> result C)
  (a : list A) (b : list B) : result (list C) :=
  if (length a =? length b)%nat then zip_with f a b
  else match a, b with
       | [x], _ => zip_with f (repeat x (length b)) b
       | _, [y] => zip_with f a (repeat y (length a))
       | _, _ => inr (ValueError broadcast_msg)
       end.

(** [a - b] for a 64-bit signed [a]: the result stays 64-bit signed. *)
Definition np_sub (a b : Cache.chunk) : result Cache.chunk :=
  broadcast (broadcast (broadcast (fun x y => inl (int64_wrap (x - y))))) a b.

(** The object state.  [image] and [image_bg] are references to caches that
    other code uses too; [computed] is not a Python attribute: it logs the
    chunk indices for which the difference was computed. *)
Record ImageCorrCache : Type := mk {
  image : Cache.HDF5ImageCache;
  image_bg : Cache.HDF5ImageCache;
  chunk_size : Z;
  h5ds : list Cache.image;
  cache : odict Cache.chunk;
  cache_size : Z;
  computed : list Z
}.

(** [ImageCorrCache.__init__] *)
Definition init (image image_bg : Cache.HDF5ImageCache) : ImageCorrCache :=
  mk image image_bg (Cache.chunk_size image) (Cache.h5ds image) []
     (Cache.cache_size image) [].

Definition with_images (cc : ImageCorrCache)
  (im bg : Cache.HDF5ImageCache) : ImageCorrCache :=
  mk im bg (chunk_size cc) (h5ds cc) (cache cc) (cache_size cc) (computed cc).

Definition with_cache (cc : ImageCorrCache) (d : odict Cache.chunk) (l : list Z)
  : ImageCorrCache :=
  mk (image cc) (image_bg cc) (chunk_size cc) (h5ds cc) d (cache_size cc) l.

(** [ImageCorrCache._get_chunk] *)
Definition _get_chunk (cc : ImageCorrCache) (chunk_index : Z)
    : result Cache.chunk * ImageCorrCache :=
  if od_contains chunk_index (cache cc) then
    (od_getitem (cache cc) chunk_index, cc)
  else
    let (r1, im) := Cache.get_chunk (image cc) chunk_index in
    match r1 with
    | inr e => (inr e, with_images cc im (image_bg cc))
    | inl raw =>
        let (r2, bg) := Cache.get_chunk (image_bg cc) chunk_index in
        let cc1 := with_images cc im bg in
        match r2 with
        | inr e => (inr e, cc1)
        | inl back =>
            match np_sub (astype_int raw) back with
            | inr e => (inr e, cc1)
            | inl data =>
                let cache1 := od_setitem (cache cc1) chunk_index data in
                let log1 := (computed cc1 ++ [chunk_index])%list in
                if Z.of_nat (length cache1) >? cache_size cc1 then
                  match od_popitem_first cache1 with
                  | inl (_, cache2) =>
                      (od_getitem cache2 chunk_index,
                       with_cache cc1 cache2 log1)
                  | inr e => (inr e, with_cache cc1 cache1 log1)
                  end
                else (od_getitem cache1 chunk_index,
                      with_cache cc1 cache1 log1)
            end
        end
    end.

(** [ImageCorrCache.__getitem__] *)
Definition getitem (cc : ImageCorrCache) (index : Z)
  : result Cache.image * ImageCorrCache :=
  let index := if index <? 0 then Z.of_nat (length (h5ds cc)) + index else index in
  if chunk_size cc =? 0 then
    (inr (ZeroDivisionError "integer division or modulo by zero"), cc)
  else
    let chunk_index := index / chunk_size cc in
    let sub_index := index mod chunk_size cc in
    let (r, cc') := _get_chunk cc chunk_index in
    (bind r (fun ch => np_getitem ch sub_index), cc').

(** The corrected chunk [k] as the two underlying caches define it. *)
Definition corrected (cc : ImageCorrCache) (k : Z)   : result Cache.chunk :=
  bind (fst (Cache.get_chunk (image cc) k)) (fun raw =>
  bind (fst (Cache.get_chunk (image_bg cc) k)) (fun back =>
  np_sub (astype_int raw) back)).

(** The states of a corrected cache: after its own calls, and after calls
    that other owners make on the two caches it refers to. *)
Inductive reachable (cc0 : ImageCorrCache) : ImageCorrCache -> Prop :=
| reach_init : reachable cc0 cc0
| reach_get_chunk cc k :
    reachable cc0 cc -> reachable cc0 (snd (_get_chunk cc k))
| reach_getitem cc i :
    reachable cc0 cc -> reachable cc0 (snd (getitem cc i))
| reach_image cc k :
    reachable cc0 cc ->
    reachable cc0 (with_images cc (snd (Cache.get_chunk (image cc) k))
                               (image_bg cc))
| reach_image_bg cc k :
    reachable cc0 cc ->
    reachable cc0 (with_images cc (image cc)
                               (snd (Cache.get_chunk (image_bg cc) k))).

(** The representation invariant. *)
Record inv (cc : ImageCorrCache) : Prop := mk_inv {
  inv_image : Cache.inv (image cc);
  inv_image_bg : Cache.inv (image_bg cc);
  inv_size : cache_size cc = Cache.cache_size (image cc);
  inv_chunk : chunk_size cc = Cache.chunk_size (image cc);
  inv_h5ds : h5ds cc = Cache.h5ds (image cc);
  inv_nodup : NoDup (od_keys (cache cc));
  inv_data : forall k v, In (k, v) (cache cc) ->
      np_sub (astype_int (Cache.materialize (image cc) k))
             (Cache.materialize (image_bg cc) k) = inl v;
  inv_fifo : od_keys (cache cc) = lastn (Z.to_nat (cache_size cc)) (computed cc)
}.

End CorrCache.

(* ================================================================== *)
(** * [EventExtractorManagerThread]: the extraction coordinator *)
(* ================================================================== *)

Module Manager.
Import Py.

(** One label image: 0 is background, positive values are object ids. *)
Definition label : Type := list (list Z).

(** Assignment into the shared label array stores 16-bit signed values. *)
Definition int16_wrap (z : Z) : Z := (z + 2 ^ 15) mod 2 ^ 16 - 2 ^ 15.
Definition astype_int16 (l : label) : label := map (map int16_wrap) l.
Definition zero_like (l : label) : label := map (map (fun _ => 0)) l.

(** What the coordinator sees of the memory it shares with the segmenter,
    the workers and the writer, at one moment. *)
Record world : Type := mk_world {
  slot_states : list ascii;
  slot_chunks : list Z;
  labels_list : list (list label);
  worker_monitor : list Z;
  writer_dq : Z
}.

(** What the coordinator does to the outside, in program order.  [Poll s]
    is a read of [np.sum(worker_monitor)] that returned [s]; [Sleep ms] is
    [time.sleep] of [ms] milliseconds. *)
Inductive event : Type :=
| Sleep (ms : Z)
| SetLabels (label_array : list label)
| Put (item : Z * Z)
| Poll (s : Z)
| SetState (slot : Z) (tag : ascii)
| Finalize.

(** Modelled from the spec: [data.image.num_chunks] and
    [data.image.get_chunk_size] belong to a revision of [HDF5ImageCache]
    that is not part of the sources.  The spec: "[get_chunk_size] returns
    [chunk_size] for all but the final chunk, and [length mod chunk_size]
    (or [chunk_size] if it divides evenly) for the final chunk; raises for
    indices >= [num_chunks]". *)
Record image_info : Type := mk_info {
  image_length : Z;
  image_chunk_size : Z
}.

Definition num_chunks (d : image_info) : Z :=
  (image_length d + image_chunk_size d - 1) / image_chunk_size d.

Definition get_chunk_size (d : image_info) (chunk_index : Z) : result Z :=
  if chunk_index <? num_chunks d - 1 then inl (image_chunk_size d)
  else if chunk_index =? num_chunks d - 1 then
    inl (if image_length d mod image_chunk_size d =? 0
         then image_chunk_size d
         else image_length d mod image_chunk_size d)
  else inr (IndexError
              ("HDF5ImageCache only has " ++ show (num_chunks d) ++ " chunks!")).

(** The coordinator's own state: attributes and the locals of [run]. *)
Record manager : Type := mk {
  data : image_info;
  num_slots : Z;
  label_array : list label;
  chunks_processed : Z;
  frames_processed : Z;
  trace : list event
}.

Definition emit (st : manager) (evs : list event) : manager :=
  mk (data st) (num_slots st) (label_array st) (chunks_processed st)
     (frames_processed st) (trace st ++ evs).

Definition with_labels (st : manager) (la : list label) : manager :=
  mk (data st) (num_slots st) la (chunks_processed st)
     (frames_processed st) (trace st).

Definition count_chunk (st : manager) (chunk_size : Z) : manager :=
  mk (data st) (num_slots st) (label_array st) (chunks_processed st + 1)
     (frames_processed st + chunk_size) (trace st).

(** How a piece of [run] ends: normally, by an exception, or still waiting
    when the observations of the shared memory run out.  Every read of
    shared memory takes the next observation. *)
Inductive outcome (A : Type) : Type :=
| Done (a : A) (st : manager) (rest : list world)
| Raised (e : exn) (st : manager)
| Blocked (st : manager).
Arguments Done {A} a st rest.
Arguments Raised {A} e st.
Arguments Blocked {A} st.

(** Lines 98-103: stall for a slow writer. *)
Definition stall (st : manager) (o : list world) : outcome unit :=
  match o with
  | [] => Blocked st
  | w :: o' =>
      let ldq := writer_dq w in
      if ldq >? 100 then Done tt (emit st [Sleep (ldq * 10)]) o'
      else Done tt st o'
  end.

(** Lines 105-123: look for a slot in state "e", from slot 0 on. *)
Fixpoint scan (st : manager) (cur_slot unavailable_slots : Z) (o : list world)
  : outcome Z :=
  match o with
  | [] => Blocked st
  | w :: o' =>
      match py_getitem (slot_states w) cur_slot with
      | inr e => Raised e st
      | inl tag =>
          if Ascii.eqb tag "e" then Done cur_slot st o'
          else if num_slots st =? 0 then
            Raised (ZeroDivisionError "integer division or modulo by zero") st
          else
            let unavailable_slots := unavailable_slots + 1 in
            let cur_slot := (cur_slot + 1) mod num_slots st in
            if unavailable_slots >=? num_slots st then
              scan (emit st [Sleep 100]) cur_slot 0 o'
            else scan st cur_slot unavailable_slots o'
      end
  end.

(** Lines 130-137: populate the shared label array. *)
Definition populate (label_array new_labels : list label)
  : result (list label) :=
  if (length new_labels =? length label_array)%nat then
    inl (map astype_int16 new_labels)
  else if (length new_labels <? length label_array)%nat then
    inl (map astype_int16 new_labels
         ++ map zero_like (skipn (length new_labels) label_array))%list
  else inr (ValueError "labels_list contains bad size data!").

(** Lines 144-145: wait until the workers have counted the whole chunk. *)
Fixpoint barrier (st : manager) (target : Z) (o : list world) : outcome unit :=
  match o with
  | [] => Blocked st
  | w :: o' =>
      let s := np_sum (worker_monitor w) in
      if negb (s =? target) then barrier (emit st [Poll s; Sleep 100]) target o'
      else Done tt (emit st [Poll s]) o'
  end.

(** Lines 128-154: process the chunk of the claimed slot. *)
Definition process (st : manager) (cur_slot : Z) (o : list world)
  : outcome unit :=
  match o with
  | [] => Blocked st
  | w :: o' =>
      match py_getitem (slot_chunks w) cur_slot with
      | inr e => Raised e st
      | inl chunk =>
          match py_getitem (labels_list w) cur_slot with
          | inr e => Raised e st
          | inl new_labels =>
              match populate (label_array st) new_labels with
              | inr e => Raised e st
              | inl la =>
                  let st := emit (with_labels st la) [SetLabels la] in
                  match get_chunk_size (data st) chunk with
                  | inr e => Raised e st
                  | inl chunk_size =>
                      let st := emit st (map (fun ii => Put (chunk, ii))
                                             (range chunk_size)) in
                      match barrier st (frames_processed st + chunk_size) o' with
                      | Done _ st o'' =>
                          let st := emit st [SetState cur_slot "w"] in
                          Done tt (count_chunk st chunk_size) o''
                      | Raised e st => Raised e st
                      | Blocked st => Blocked st
                      end
                  end
              end
          end
      end
  end.

(** One turn of the outer loop (lines 95-157); the result tells whether
    the loop is left. *)
Definition iteration (st : manager) (o : list world) : outcome bool :=
  match stall st o with
  | Done _ st o1 =>
      match scan st 0 0 o1 with
      | Done cur_slot st o2 =>
          match process st cur_slot o2 with
          | Done _ st o3 =>
              Done (chunks_processed st =? num_chunks (data st)) st o3
          | Raised e st => Raised e st
          | Blocked st => Blocked st
          end
      | Raised e st => Raised e st
      | Blocked st => Blocked st
      end
  | Raised e st => Raised e st
  | Blocked st => Blocked st
  end.

(** The loop of [run], at most [fuel] turns, and the shutdown after it. *)
Fixpoint run (fuel : nat) (st : manager) (o : list world) : outcome unit :=
  match fuel with
  | O => Blocked st
  | S fuel' =>
      match iteration st o with
      | Done true st o' => Done tt (emit st [Finalize]) o'
      | Done false st o' => run fuel' st o'
      | Raised e st => Raised e st
      | Blocked st => Blocked st
      end
  end.

(** [EventExtractorManagerThread.__init__] followed by the start of [run]. *)
Definition init (d : image_info) (num_slots : Z) (label_array : list label)
  : manager :=
  mk d num_slots label_array 0 0 [].

(** A scenario: 3 frames in chunks of 2, two slots; the segmenter has left
    the two label images of chunk 0 in slot 1; the workers are seen to have
    counted one frame, then both. *)
Definition scenario_start : manager :=
  init (mk_info 3 2) 2 [[[7; 7]]; [[7; 7]]].

Definition scenario_world (monitor : list Z) : world :=
  mk_world ["s"%char; "e"%char] [5; 0] [[]; [[[0; 1]]; [[2; 0]]]] monitor 0.

Definition scenario : list world :=
  [scenario_world [0; 0]; scenario_world [0; 0]; scenario_world [0; 0];
   scenario_world [0; 0]; scenario_world [1; 0]; scenario_world [1; 1]].

(** The state in which a piece of [run] stops. *)
Definition final {A : Type} (r : outcome A) : manager :=
  match r with
  | Done _ st _ => st
  | Raised _ st => st
  | Blocked st => st
  end.

(** Two states that differ in the trace only. *)
Definition same_locals (st st' : manager) : Prop :=
  data st' = data st /\ num_slots st' = num_slots st /\
  label_array st' = label_array st /\
  chunks_processed st' = chunks_processed st /\
  frames_processed st' = frames_processed st.

(** A label image that is background everywhere. *)
Definition all_background (l : label) : Prop := Forall (Forall (eq 0)) l.

(** A label image whose values fit the 16-bit label array. *)
Definition fits_int16 (l : label) : Prop :=
  Forall (Forall (fun v => - 2 ^ 15 <= v < 2 ^ 15)) l.

(** What the barrier emits while the count is not reached. *)
Definition waiting_event (target : Z) (e : event) : Prop :=
  e = Sleep 100 \/ exists s, e = Poll s /\ s <> target.

End Manager.

(* ================================================================== *)
(** * [QueueEventExtractor]: the extraction worker *)
(* ================================================================== *)

Module Extractor.
Import Py.

Definition label : Type := list (list Z).

(** An entry of the worker's log. *)
Inductive log_entry : Type :=
| LogInfo (msg : string)
| LogDebug (msg : string)
| LogError (traceback : exn).

(** How one turn of the worker's loop ends. *)
Inductive status : Type :=
| Running
| Stopped
| Crashed (e : exn).

Section Worker.

(** The type of a feature array, and the events of a frame: a dictionary
    from feature name to the array of that feature over the events, in
    insertion order. *)
Variable feature : Type.
Definition events : Type := list (string * list feature).

(** [QueueEventExtractor.process_label], whose result depends on the image
    data, the gate and the feature functions, none of which are modelled:
    it returns the events of a frame, or [None], or raises. *)
Variable process_label : label -> Z -> result (option events).

(** The worker and the shared objects it was given. *)
Record worker : Type := mk {
  chunk_size : Z;
  worker_index : Z;
  label_array : list label;
  raw_queue : list (Z * Z);
  event_queue : list (Z * option events);
  feat_nevents : list Z;
  worker_monitor : list Z;
  finalize_extraction : bool;
  log : list log_entry
}.

Definition take (w : worker) (q : list (Z * Z)) : worker :=
  mk (chunk_size w) (worker_index w) (label_array w) q (event_queue w)
     (feat_nevents w) (worker_monitor w) (finalize_extraction w) (log w).

Definition logged (w : worker) (entry : log_entry) : worker :=
  mk (chunk_size w) (worker_index w) (label_array w) (raw_queue w)
     (event_queue w) (feat_nevents w) (worker_monitor w)
     (finalize_extraction w) (log w ++ [entry]).

Definition publish (w : worker) (nevents : list Z)
  (item : Z * option events) : worker :=
  mk (chunk_size w) (worker_index w) (label_array w) (raw_queue w)
     (event_queue w ++ [item]) nevents (worker_monitor w)
     (finalize_extraction w) (log w).

Definition with_monitor (w : worker) (m : list Z) : worker :=
  mk (chunk_size w) (worker_index w) (label_array w) (raw_queue w)
     (event_queue w) (feat_nevents w) m (finalize_extraction w) (log w).

(** Line 355: [self.worker_monitor[self.worker_index] += 1]. *)
Definition count_item (w : worker) : status * worker :=
  match py_getitem (worker_monitor w) (worker_index w) with
  | inr e => (Crashed e, w)
  | inl n =>
      match py_setitem (worker_monitor w) (worker_index w) (n + 1) with
      | inr e => (Crashed e, w)
      | inl m => (Running, with_monitor w m)
      end
  end.

(** Lines 349-353: the number of events of the frame. *)
Definition count_events (ev : option events) : Z :=
  match ev with
  | Some ((_, values) :: _) => Z.of_nat (length values)
  | _ => 0
  end.

(** One turn of the loop of [run] (lines 331-355).  An empty queue stands
    for the [queue.Empty] raised after the timeout. *)
Definition turn (w : worker) : status * worker :=
  match raw_queue w with
  | [] =>
      if finalize_extraction w
      then (Stopped, logged w (LogDebug "Finalizing worker"))
      else (Running, w)
  | (chunk_index, label_index) :: q =>
      let index := chunk_index * chunk_size w + label_index in
      let w := take w q in
      match bind (np_getitem (label_array w) label_index)
                 (fun l => process_label l index) with
      | inr e => count_item (logged w (LogError e))
      | inl ev =>
          match py_setitem (feat_nevents w) index (count_events ev) with
          | inr e => (Crashed e, w)
          | inl nevents => count_item (publish w nevents (index, ev))
          end
      end
  end.

(** The loop, for at most [fuel] turns. *)
Fixpoint loop (fuel : nat) (w : worker) : status * worker :=
  match fuel with
  | O => (Running, w)
  | S fuel' =>
      match turn w with
      | (Running, w') => loop fuel' w'
      | r => r
      end
  end.

(** The processing of the first work item of the queue raises [e]. *)
Definition item_raises (w : worker) (e : exn) : Prop :=
  match raw_queue w with
  | [] => False
  | (chunk_index, label_index) :: _ =>
      bind (np_getitem (label_array w) label_index)
           (fun l => process_label l (chunk_index * chunk_size w + label_index))
      = inr e
  end.

End Worker.

Arguments mk {feature}.
Arguments chunk_size {feature}.
Arguments worker_index {feature}.
Arguments label_array {feature}.
Arguments raw_queue {feature}.
Arguments event_queue {feature}.
Arguments feat_nevents {feature}.
Arguments worker_monitor {feature}.
Arguments finalize_extraction {feature}.
Arguments log {feature}.
Arguments take {feature}.
Arguments logged {feature}.
Arguments publish {feature}.
Arguments with_monitor {feature}.
Arguments count_item {feature}.
Arguments count_events {feature}.
Arguments turn {feature}.
Arguments loop {feature}.
Arguments item_raises {feature}.

(** A worker whose feature extraction always fails, in front of one item. *)
Definition failing_extraction (l : label) (index : Z)
  : result (option (events Z)) :=
  inr (ValueError "zero-size array to reduction operation").

Definition failing_worker : worker Z :=
  mk 2 0 [[[0; 1]]; [[0; 0]]] [(0, 1)] [] [-1; -1; -1] [5] false [].

End Extractor.

(* ================================================================== *)
(** * [BackgroundSparseMed]: sparse median background *)
(* ================================================================== *)

Module SparseMed.
Import Py.

(** Time stamps are floating-point seconds in the code; they are modelled
    as exact rationals, so rounding is not part of the model.  A frame is
    the flattened list of its 8-bit pixels, as [reshape(kernel_size, -1)]
    lays it out. *)
Definition frame : Type := list Z.

Definition Qltb (x y : Q) : bool := negb (Qle_bool y x).

(** [np.argmin]: the first index of the smallest value. *)
Fixpoint argmin_from (best_i : nat) (best : Q) (i : nat) (l : list Q) : nat :=
  match l with
  | [] => best_i
  | x :: l' =>
      if Qltb x best then argmin_from i x (S i) l'
      else argmin_from best_i best (S i) l'
  end.

Definition argmin (l : list Q) : result Z :=
  match l with
  | [] => inr (ValueError "attempt to get argmin of an empty sequence")
  | x :: l' => inl (Z.of_nat (argmin_from 0 x 1 l'))
  end.

(** Ascending sort; [np.partition(a, kth)[kth]] is the element at position
    [kth] of the sorted values. *)
Fixpoint insert (x : Z) (l : list Z) : list Z :=
  match l with
  | [] => [x]
  | y :: l' => if x <=? y then x :: l else y :: insert x l'
  end.

Fixpoint sort (l : list Z) : list Z :=
  match l with
  | [] => []
  | x :: l' => insert x (sort l')
  end.

Definition kth_smallest (kth : Z) (l : list Z) : Z :=
  nth (Z.to_nat kth) (sort l) 0.

(** Column [j] of a matrix given by its rows: [a[:, j]]. *)
Definition column (rows : list (list Z)) (j : nat) : list Z :=
  map (fun row => nth j row 0) rows.

(** [out[a:b] = values] on a 1-D array. *)
Definition set_slice (out : list Z) (a b : Z) (values : list Z)
  : result (list Z) :=
  let len := Z.of_nat (length out) in
  let a' := clamp_index len a in
  let b' := clamp_index len b in
  if (length values =? Z.to_nat (b' - a'))%nat then
    inl (firstn (Z.to_nat a') out ++ values ++ skipn (Z.to_nat (Z.max a' b')) out)%list
  else inr (ValueError "could not broadcast input array").

(** The attributes of the object that the two methods use. *)
Record BackgroundSparseMed : Type := mk {
  input_data : list frame;
  image_shape : Z * Z;
  kernel_size : Z;
  split_time : Q;
  time : list Q;
  step_times : list Q
}.

Definition event_count (bg : BackgroundSparseMed) : Z :=
  Z.of_nat (length (input_data bg)).

(** Lines 312-317: the frames that enter the median for time [second]. *)
Definition window (bg : BackgroundSparseMed) (second : Q) : result (Z * Z) :=
  bind (argmin (map (fun t => Qabs (second - t)) (time bg))) (fun idx_start =>
  let idx_stop := idx_start + kernel_size bg in
  let '(idx_start, idx_stop) :=
    if idx_stop >=? event_count bg
    then (Z.max 0 (event_count bg - kernel_size bg), event_count bg)
    else (idx_start, idx_stop) in
  if idx_stop - idx_start =? kernel_size bg then inl (idx_start, idx_stop)
  else inr (AssertionError "")).

(** Lines 329-340: the jobs put on the queue, blocks of 500 pixels. *)
Fixpoint jobs_from (fuel : nat) (start smax : Z) : list (Z * Z) :=
  match fuel with
  | O => []
  | S fuel' =>
      if start <? smax
      then (start, start + 500) :: jobs_from fuel' (start + 500) smax
      else []
  end.

Definition jobs (smax : Z) : list (Z * Z) := jobs_from (Z.to_nat smax) 0 smax.

(** [MedianWorkerSingle.run], one job (lines 378-390). *)
Definition median_job (shared_input : list (list Z)) (shared_output : list Z)
  (job : Z * Z) : result (list Z) :=
  let (a, b) := job in
  let kth := Z.of_nat (length shared_input) / 2 in
  let sub := map (fun row => slice row a b) shared_input in
  let width := match sub with
               | [] => O
               | row :: _ => length row
               end in
  let part_kth := map (fun j => kth_smallest kth (column sub j)) (seq 0 width) in
  set_slice shared_output a b part_kth.

(** The jobs as the workers complete them, one after the other. *)
Fixpoint run_jobs (shared_input : list (list Z)) (shared_output : list Z)
  (order : list (Z * Z)) : result (list Z) :=
  match order with
  | [] => inl shared_output
  | job :: order' =>
      bind (median_job shared_input shared_output job)
           (fun out => run_jobs shared_input out order')
  end.

(** [BackgroundSparseMed.process_second]: the background image for time
    [second].  The workers take the jobs from the queue concurrently;
    [order] is the order in which the jobs are carried out, and the method
    returns when as many jobs are counted as were put.  [shared_output] is
    the content of the output buffer before the call. *)
Definition process_second (bg : BackgroundSparseMed) (shared_output : list Z)
  (second : Q) (order : list (Z * Z)) : result (list Z) :=
  bind (window bg second) (fun '(idx_start, idx_stop) =>
  let shared_input := slice (input_data bg) idx_start idx_stop in
  run_jobs shared_input shared_output order).

(** Lines 289-299: the index of the background image of every frame, given
    the time stamps of the images that survived the cleansing. *)
Fixpoint fill (bg_idx : list Z) (pos : nat) (idx0 idx1 : nat) (ii : Z)
  : list Z :=
  match bg_idx with
  | [] => []
  | v :: rest =>
      (if (idx0 <=? pos)%nat && (pos <? idx1)%nat then ii else v)
      :: fill rest (S pos) idx0 idx1 ii
  end.

Fixpoint assign_loop (time : list Q) (split_time : Q) (steps : list Q)
  (ii : Z) (idx0 : nat) (idx1 : option nat) (bg_idx : list Z)
  : result (list Z * option nat * Z) :=
  match steps with
  | [] => inl (bg_idx, idx1, ii - 1)
  | t1 :: steps' =>
      bind (argmin (map (fun t => Qabs (t - t1 + split_time / 2)) time))
           (fun i1 =>
      let i1 := Z.to_nat i1 in
      assign_loop time split_time steps' (ii + 1) i1 (Some i1)
                  (fill bg_idx 0 idx0 i1 ii))
  end.

Definition assign (time : list Q) (split_time : Q) (steps : list Q)
  : result (list Z) :=
  bind (assign_loop time split_time steps 0 0 None
                    (repeat 0 (length time)))
       (fun '(bg_idx, idx1, ii) =>
  match idx1 with
  | Some i1 => inl (fill bg_idx 0 i1 (length bg_idx) ii)
  | None => inl bg_idx
  end).

(** What [process_second] leaves in pixel [p]: the value of rank
    [kernel_size // 2] among the values of that pixel in the window. *)
Definition rank_value (rows : list (list Z)) (p : nat) : Z :=
  kth_smallest (Z.of_nat (length rows) / 2) (column rows p).

(** ** What the documentation asks for

    "Each frame gets the background image closest to it based on time from
    the background series": the first (earliest) entry at the smallest
    distance from the frame's own time. *)
Definition closest_entry (steps : list Q) (t : Q) : result Z :=
  argmin (map (fun t1 => Qabs (t - t1)) steps).

(** The median of a non-empty list: the middle value of the sorted list, or
    the mean of the two middle values. *)
Definition median (l : list Z) : Q :=
  let s := sort l in
  let n := length l in
  if Nat.odd n then inject_Z (nth (n / 2) s 0)
  else (inject_Z (nth (n / 2 - 1) s 0) + inject_Z (nth (n / 2) s 0)) / 2.

(** A median in the sense of order statistics: a value of the list that
    fewer than half of the values lie below and fewer than half above. *)
Definition count_below (m : Z) (l : list Z) : nat :=
  length (filter (fun x => x <? m) l).
Definition count_above (m : Z) (l : list Z) : nat :=
  length (filter (fun x => m <? x) l).
Definition is_median (m : Z) (l : list Z) : Prop :=
  In m l /\ (2 * count_below m l < length l)%nat
         /\ (2 * count_above m l < length l)%nat.

(** Two one-pixel frames, dark and bright, and a kernel of two frames. *)
Definition two_frames : BackgroundSparseMed :=
  mk [[0]; [10]] (1, 1) 2 1 [0; 1]%Q [0]%Q.

(** Ten frames of one pixel, one per second. *)
Definition ten_seconds : list Q := map (fun k => inject_Z (Z.of_nat k)) (seq 0 10).

End SparseMed.

(* ================================================================== *)
(** * Pipeline identifiers of the event extractor *)
(* ================================================================== *)

Module Ppid.
Import Py.
Local Open Scope string_scope.

(** [s.split(sep)] for a one-character separator. *)
Fixpoint split_on (sep : ascii) (s : string) : list string :=
  match s with
  | EmptyString => [EmptyString]
  | String c s' =>
      if Ascii.eqb c sep then EmptyString :: split_on sep s'
      else match split_on sep s' with
           | [] => [String c EmptyString]
           | h :: t => String c h :: t
           end
  end.

(** [sep.join(parts)] *)
Fixpoint join (sep : string) (parts : list string) : string :=
  match parts with
  | [] => EmptyString
  | [p] => p
  | p :: rest => p ++ sep ++ join sep rest
  end.

(** The non-empty prefixes of a string, shortest first. *)
Fixpoint prefixes (s : string) : list string :=
  match s with
  | EmptyString => []
  | String c s' => String c EmptyString :: map (String c) (prefixes s')
  end.

(** Modelled from the spec: [dcnum.meta.ppid.get_unique_prefix] is not part
    of the sources.  The spec: "compute, for each key in a set, the
    shortest prefix that is not a prefix of any other key in the same set";
    a key all of whose prefixes are prefixes of another key keeps its full
    name (this is what the tests list, e.g. "cole" next to "coleman"). *)
Definition get_unique_prefix (keys : list string) : list string :=
  map (fun k =>
         match find (fun p =>
                       forallb (fun other =>
                                  String.eqb other k || negb (String.prefix p other))
                               keys)
                    (prefixes k) with
         | Some p => p
         | None => k
         end)
      keys.

(** A keyword mapping with boolean values (both keywords of the extractor
    are booleans); [get] is [dict.get(key, default)]. *)
Definition kwargs : Type := list (string * bool).

Definition get (kw : kwargs) (key : string) (default : bool) : bool :=
  match find (fun p => String.eqb (fst p) key) kw with
  | Some (_, v) => v
  | None => default
  end.

(** The declared keywords with the given values where present, the
    declared defaults elsewhere. *)
Definition fill_defaults (defaults kw : kwargs) : kwargs :=
  map (fun p => (fst p, get kw (fst p) (snd p))) defaults.

(** Booleans are rendered as 1 and 0. *)
Definition show_bool (b : bool) : string := if b then "1" else "0".

Definition read_bool (s : string) : result bool :=
  if String.eqb s "1" then inl true
  else if String.eqb s "0" then inl false
  else inr (ValueError ("could not convert value: " ++ s)).

(** The segments [abbrev=value] of an identifier, in declaration order. *)
Definition segments (defaults kw : kwargs) : list string :=
  map (fun p => fst p ++ "=" ++ show_bool (snd p))
      (combine (get_unique_prefix (map fst defaults))
               (map snd (fill_defaults defaults kw))).

(** Modelled from the spec: [dcnum.meta.ppid.kwargs_to_ppid] is not part of
    the sources.  The spec: "joins [abbrev=value] pairs with [^], boolean
    values rendered as 1/0"; the tests show every declared keyword in
    declaration order, defaults included. *)
Definition kwargs_to_ppid (defaults kw : kwargs) : string :=
  join "^" (segments defaults kw).

(** The keyword that the key part of a segment stands for: the keyword
    with that abbreviation, else the first keyword that starts with it. *)
Definition match_key (keys : list string) (var : string) : result string :=
  match find (fun p => String.eqb (snd p) var)
             (combine keys (get_unique_prefix keys)) with
  | Some (k, _) => inl k
  | None =>
      match find (fun k => String.prefix var k) keys with
      | Some k => inl k
      | None => inr (ValueError ("unknown keyword: " ++ var))
      end
  end.

(** The keywords and values that the segments give, later ones first. *)
Fixpoint read_segments (keys : list string) (items : list string) (acc : kwargs)
  : result kwargs :=
  match items with
  | [] => inl acc
  | item :: rest =>
      if String.eqb item "" then read_segments keys rest acc
      else match split_on "=" item with
           | [var; val] =>
               bind (match_key keys var) (fun k =>
               bind (read_bool val) (fun v =>
               read_segments keys rest ((k, v) :: acc)))
           | _ => inr (ValueError ("malformed segment: " ++ item))
           end
  end.

(** Modelled from the spec: [dcnum.meta.ppid.ppid_to_kwargs] is not part of
    the sources.  The spec: "reconstructs the original full-keyword mapping
    by matching abbreviated prefixes back to known keys, defaults filling
    any omitted key, order-independent"; a malformed segment is fatal. *)
Definition ppid_to_kwargs (defaults : kwargs) (ppid : string) : result kwargs :=
  bind (read_segments (map fst defaults) (split_on "^" ppid) [])
       (fun given => inl (fill_defaults defaults given)).

(** ** [QueueEventExtractor]: the class methods *)

(** The keyword-only arguments of [get_events_from_masks]. *)
Definition extract_defaults : kwargs :=
  [("brightness", true); ("haralick", true)].

Definition get_ppid_code : string := "legacy".

(** [QueueEventExtractor.get_ppid_from_ppkw] *)
Definition get_ppid_from_ppkw (kw : kwargs) : string :=
  join ":" [get_ppid_code; kwargs_to_ppid extract_defaults kw].

(** [QueueEventExtractor.get_ppkw_from_ppid] *)
Definition get_ppkw_from_ppid (extr_ppid : string) : result kwargs :=
  match split_on ":" extr_ppid with
  | [code; pp_extr_kwargs] =>
      if negb (String.eqb code get_ppid_code) then
        inr (ValueError ("Could not find extraction method '" ++ code ++ "'!"))
      else ppid_to_kwargs extract_defaults pp_extr_kwargs
  | [_] => inr (ValueError "not enough values to unpack (expected 2, got 1)")
  | _ => inr (ValueError "too many values to unpack (expected 2)")
  end.

End Ppid.

(* ================================================================== *)
(** * Further definitions: images *)
(* ================================================================== *)

Module Images.

(** Two images of the same shape: as many rows, and rows of equal length. *)
Definition same_shape (a b : Cache.image) : Prop :=
  Forall2 (fun r r' : list Z => length r = length r') a b.

(** An image of 8-bit pixels. *)
Definition uint8_image (a : Cache.image) : Prop :=
  Forall (Forall (fun v => 0 <= v < 256)) a.

(** The pixel-wise difference of two images. *)
Definition pixel_diff (a b : Cache.image) : Cache.image :=
  map (fun rr => map (fun xy => fst xy - snd xy) (combine (fst rr) (snd rr)))
      (combine a b).

End Images.

(* ================================================================== *)
(** * [QueueEventExtractor]: masks, duplicate frames and event gating *)
(* ================================================================== *)

Module Masks.
Import Py.

Definition label : Type := list (list Z).
Definition mask : Type := list (list bool).

(** [np.max] of a 2-D array; an array without elements has no maximum. *)
Definition np_max (a : label) : result Z :=
  match concat a with
  | [] => inr (ValueError "zero-size array to reduction operation maximum which has no identity")
  | x :: rest => inl (fold_left Z.max rest x)
  end.

(** [label == jj] *)
Definition label_eq (l : label) (jj : Z) : mask :=
  map (map (fun v => v =? jj)) l.

(** [np.sum] of a boolean array: the number of [True] pixels. *)
Definition mask_sum (m : mask) : Z :=
  Z.of_nat (length (filter (fun b : bool => b) (concat m))).

(** [range(a, b)] *)
Definition range2 (a b : Z) : list Z :=
  map (fun k => a + Z.of_nat k) (seq 0 (Z.to_nat (b - a))).

(** [np.array(masks).size]: the number of pixels of all masks together. *)
Definition masks_size (masks : list mask) : Z :=
  Z.of_nat (length (concat (concat masks))).

(** [np.all(a == b)] for two images of one dataset. *)
Definition images_equal (a b : Cache.image) : bool :=
  if list_eq_dec (list_eq_dec Z.eq_dec) a b then true else false.

Section Extraction.

(** [Gate.gate_mask(mask, mask_sum=...)], which is not part of the sources. *)
Variable gate_mask : mask -> Z -> bool.

(** [QueueEventExtractor.get_masks_from_label] *)
Definition get_masks_from_label (l : label) : result (list mask) :=
  bind (np_max l) (fun lmax =>
  inl (flat_map (fun jj =>
                   let mask_jj := label_eq l jj in
                   let s := mask_sum mask_jj in
                   if negb (s =? 0) && gate_mask mask_jj s then [mask_jj] else [])
                (range2 1 (lmax + 1)))).

(** The events of a frame, and [get_events_from_masks] with the keyword
    arguments of the worker applied; its gating is modelled further
    below. *)
Variable events : Type.
Variable get_events_from_masks : list mask -> Z -> result events.

(** Lines 297-303 of [process_label]: masks and, if there are any, events. *)
Definition extract (l : label) (index : Z) : result (option events) :=
  bind (get_masks_from_label l) (fun masks =>
  if negb (masks_size masks =? 0)
  then bind (get_events_from_masks masks index) (fun ev => inl (Some ev))
  else inl None).

(** [QueueEventExtractor.process_label], on the image cache of the data.
    Both images are read before the index is looked at; the second read
    sees the cache as the first one left it. *)
Definition process_label (image : Cache.HDF5ImageCache) (l : label) (index : Z)
  : result (option events) :=
  bind (fst (Cache.getitem image (index - 1))) (fun previous =>
  bind (fst (Cache.getitem (snd (Cache.getitem image (index - 1))) index))
       (fun current =>
  if images_equal previous current && negb (index =? 0) then inl None
  else extract l index)).

End Extraction.

Arguments extract gate_mask {events}.
Arguments process_label gate_mask {events}.

End Masks.

(* ================================================================== *)
(** * Further definitions: traces of the coordinator *)
(* ================================================================== *)

Module Traces.
Import Manager.

Definition is_state_write (e : event) : bool :=
  match e with SetState _ _ => true | _ => false end.

Definition is_put (e : event) : bool :=
  match e with Put _ => true | _ => false end.

Definition is_finalize (e : event) : bool :=
  match e with Finalize => true | _ => false end.

(** How many events of a kind a trace holds. *)
Definition count (kind : event -> bool) (evs : list event) : Z :=
  Z.of_nat (length (filter kind evs)).

(** The slot at [j] is the first one in state "e". *)
Definition first_ready (states : list ascii) (j : nat) : Prop :=
  nth_error states j = Some "e"%char /\
  forall i, (i < j)%nat -> nth_error states i <> Some "e"%char.

(** Neither slot holds fresh labels. *)
Definition idle_world : world :=
  mk_world ["s"%char; "w"%char] [5; 0] [[]; []] [0; 0] 0.

(** The scenario continued: the segmenter has put the one label image of
    chunk 1 in slot 0, and worker 0 is seen to count it. *)
Definition second_world (monitor : list Z) : world :=
  mk_world ["e"%char; "w"%char] [1; 0]
           [[[[4; 4]]]; [[[0; 1]]; [[2; 0]]]] monitor 0.

Definition full_scenario : list world :=
  (scenario ++ [second_world [1; 1]; second_world [1; 1]; second_world [1; 1];
                second_world [1; 1]; second_world [2; 1]])%list.

(** A coordinator started on data without frames. *)
Definition empty_start : manager :=
  init (mk_info 0 2) 2 [[[7; 7]]; [[7; 7]]].

End Traces.

(* ================================================================== *)
(** * Further definitions: the background series and its assignment *)
(* ================================================================== *)

From Stdlib Require Import Qround.

Module Series.
Import Py SparseMed.

(** Lines 81-85 of [BackgroundSparseMed.__init__]: a kernel larger than the
    input data is cut down to the size of the input data. *)
Definition clamp_kernel_size (kernel_size : Z) (input_data : list frame) : Z :=
  if kernel_size >? Z.of_nat (length input_data)
  then Z.of_nat (length input_data)
  else kernel_size.

(** Line 123: [self.time[-1] - self.time[0]]. *)
Definition duration (time : list Q) : result Q :=
  bind (np_getitem time (-1)) (fun t_last =>
  bind (np_getitem time 0) (fun t_first => inl (t_last - t_first)%Q)).

(** [np.arange(0, stop, step)] for a positive [step]: the multiples of
    [step] below [stop]. *)
Definition arange (stop step : Q) : list Q :=
  map (fun k => (inject_Z (Z.of_nat k) * step)%Q)
      (seq 0 (Z.to_nat (Qceiling (stop / step)))).



(** [a[idx]] for an integer array [idx]: the entries of [a] at the
    positions that [idx] lists. *)
Fixpoint np_take {A : Type} (a : list A) (idx : list Z) : result (list A) :=
  match idx with
  | [] => inl []
  | i :: idx' =>
      bind (np_getitem a i) (fun x =>
      bind (np_take a idx') (fun r => inl (x :: r)))
  end.

(** One assignment [h5out["events/image_bg"][start:stop] = values]. *)
Record write (A : Type) : Type := mk_write {
  w_start : Z;
  w_stop : Z;
  w_values : list A
}.
Arguments mk_write {A}.
Arguments w_start {A}.
Arguments w_stop {A}.
Arguments w_values {A}.

(** Lines 302-309 of [process_approach]: the background images are written
    in batches of 1000 frames.  The result holds the writes made, in
    order, and the exception that ended the loop, if any. *)
Fixpoint write_loop {A : Type} (fuel : nat) (bg_images : list A)
  (bg_idx : list Z) (event_count pos : Z) : list (write A) * option exn :=
  match fuel with
  | O => ([], None)
  | S fuel' =>
      if pos <? event_count then
        let stop := Z.min (pos + 1000) event_count in
        match np_take bg_images (slice bg_idx pos stop) with
        | inr e => ([], Some e)
        | inl values =>
            let (ws, e) :=
              write_loop fuel' bg_images bg_idx event_count (pos + 1000) in
            (mk_write pos stop values :: ws, e)
        end
      else ([], None)
  end.

(** The loop runs at most once per frame. *)
Definition write_background {A : Type} (bg_images : list A) (bg_idx : list Z)
  (event_count : Z) : list (write A) * option exn :=
  write_loop (Z.to_nat event_count) bg_images bg_idx event_count 0.

(** Lines 288-309 with the cleansing disabled ([frac_cleansing = 1]): the
    frames are assigned to the images of the series and the assigned
    images are written. *)
Definition assign_and_write {A : Type} (time : list Q) (split_time : Q)
  (step_times : list Q) (bg_images : list A) : list (write A) * option exn :=
  match assign time split_time step_times with
  | inr e => ([], Some e)
  | inl bg_idx =>
      write_background bg_images bg_idx (Z.of_nat (length time))
  end.

End Series.

(* ================================================================== *)
(** * [md5sum]: the (partial) MD5 sum of a file *)
(* ================================================================== *)

Module Md5.
Import Py.

Definition bytes : Type := list Byte.byte.

(** [fd.read(size)] on the bytes not yet read: what is returned and what
    remains.  A negative [size] reads to the end of the file. *)
Definition read (rest : bytes) (size : Z) : bytes * bytes :=
  if size <? 0 then (rest, [])
  else (firstn (Z.to_nat size) rest, skipn (Z.to_nat size) rest).

(** The loop of [md5sum].  The state of the hasher is the bytes it has
    been fed: [update(a)] followed by [update(b)] is [update(a + b)]. *)
Fixpoint feed (fuel : nat) (rest hashed : bytes) (blocksize count ii : Z)
  : bytes :=
  match fuel with
  | O => hashed
  | S fuel' =>
      let (buf, rest') := read rest blocksize in
      if Z.of_nat (length buf) >? 0 then
        let hashed := (hashed ++ buf)%list in
        let ii := ii + 1 in
        if negb (count =? 0) && (ii =? count) then hashed
        else feed fuel' rest' hashed blocksize count ii
      else hashed
  end.

(** Every turn of the loop but the last one reads at least one byte. *)
Definition fed (content : bytes) (blocksize count : Z) : bytes :=
  feed (S (length content)) content [] blocksize count 0.

Section Digest.

(** [hashlib.md5(data).hexdigest()] *)
Variable hexdigest : bytes -> string.

(** [md5sum(path, blocksize, count)] for a file with the given content. *)
Definition md5sum (content : bytes) (blocksize count : Z) : string :=
  hexdigest (fed content blocksize count).

End Digest.

End Md5.

(* ================================================================== *)
(** * [haralick_texture_features] and [SegmentThresh.segment_approach] *)
(* ================================================================== *)

Module Texture.
Import Py.

Definition image : Type := list (list Z).
Definition mask : Type := list (list bool).

(** The pixels of an image, each with the mask value at its position. *)
Definition pixels (imcoi : image) (maski : mask) : list (list (Z * bool)) :=
  map (fun rm => combine (fst rm) (snd rm)) (combine imcoi maski).

(** Image and mask have the same shape. *)
Definition same_dims (imcoi : image) (maski : mask) : bool :=
  (length imcoi =? length maski)%nat &&
  forallb (fun rm => (length (fst rm) =? length (snd rm))%nat)
          (combine imcoi maski).

(** [imcoi[maski]]: the values of the pixels in the mask, row by row. *)
Definition select (imcoi : image) (maski : mask) : result (list Z) :=
  if same_dims imcoi maski
  then inl (flat_map (fun row => map fst (filter snd row)) (pixels imcoi maski))
  else inr (IndexError "boolean index did not match indexed array").

(** [a.min()] *)
Definition np_min (a : list Z) : result Z :=
  match a with
  | [] => inr (ValueError "zero-size array to reduction operation minimum which has no identity")
  | x :: rest => inl (fold_left Z.min rest x)
  end.

(** [np.array(x, dtype=np.uint8)] of a signed integer: the low 8 bits. *)
Definition astype_uint8 (z : Z) : Z := z mod 256.

(** Lines 37-38: the image handed to mahotas.  The intermediate values are
    64-bit signed; their wrap-around does not change the low 8 bits. *)
Definition preprocess (imcoi : image) (maski : mask) : result image :=
  bind (select imcoi maski) (fun values =>
  bind (np_min values) (fun minval =>
  inl (map (map (fun vm : Z * bool =>
                   astype_uint8 ((fst vm - minval + 1)
                                 * (if snd vm then 1 else 0))))
           (pixels imcoi maski)))).

Section Haralick.

(** [mahotas.features.haralick(imi, ignore_zeros=True,
    return_mean_ptp=True)]: the feature values, or an exception. *)
Variable mh_haralick : image -> result (list Q).

(** One turn of the loop over the events (lines 31-52).  [None] stands for
    the [continue]: the entries of this event stay [nan]. *)
Definition event_features (image_corr : list image) (masks : list mask)
  (ii : Z) : result (option (list Q)) :=
  bind (np_getitem masks ii) (fun maski =>
  bind (if (length image_corr =? 1)%nat then np_getitem image_corr 0
        else np_getitem image_corr ii) (fun imcoi =>
  bind (preprocess imcoi maski) (fun imi =>
  match mh_haralick imi with
  | inl ret => inl (Some ret)
  | inr (ValueError _) => inl None
  | inr e => inr e
  end))).

(** The loop, for a call with [image_corr] given: per event the values
    that are copied into the dictionary (lines 54-90), or [None].  An
    exception ends the call. *)
Fixpoint events_from (image_corr : list image) (masks : list mask)
  (todo : list Z) : result (list (option (list Q))) :=
  match todo with
  | [] => inl []
  | ii :: todo' =>
      bind (event_features image_corr masks ii) (fun row =>
      bind (events_from image_corr masks todo') (fun rows =>
      inl (row :: rows)))
  end.

Definition haralick_texture_features (image_corr : list image)
  (masks : list mask) : result (list (option (list Q))) :=
  events_from image_corr masks (range (Z.of_nat (length masks))).

End Haralick.

(** A mask with at least one pixel. *)
Definition nonempty (maski : mask) : Prop :=
  exists row, In row maski /\ In true row.

End Texture.

Module Thresh.
Import Py.

(** [SegmentThresh.segment_approach(image, thresh=...)] on a
    background-corrected image of integers; [image < thresh] compares
    every pixel with the threshold. *)
Definition segment_approach (image : list (list Z)) (thresh : Q)
  : result (list (list bool)) :=
  if SparseMed.Qltb thresh 0
  then inl (map (map (fun v => SparseMed.Qltb (inject_Z v) thresh)) image)
  else inr (AssertionError "threshold values above zero not supported!").

End Thresh.

(* ================================================================== *)
(** * [get_events_from_masks]: gating and removal of invalid events *)
(* ================================================================== *)

Module Gating.
Import Py.
Local Open Scope string_scope.

Section Events.

(** What a feature array holds for one event: a number, a mask, a flag. *)
Variable V : Type.

(** Modelled from the spec: [moments_based_features] is not part of the
    sources.  The spec: it returns "a mandatory "valid" boolean array
    flagging events to discard".  [is_true] reads an entry of that array. *)
Variable is_true : V -> bool.

(** The dictionary of feature arrays, in insertion order; the first axis
    of every array enumerates the events. *)
Definition events : Type := list (string * list V).

(** The entries of [a] at the positions where [keep] is [True]. *)
Definition compress (a : list V) (keep : list bool) : list V :=
  map fst (filter snd (combine a keep)).

(** [a[keep]] for a boolean array [keep]. *)
Definition np_compress (a : list V) (keep : list bool) : result (list V) :=
  if (length a =? length keep)%nat then inl (compress a keep)
  else inr (IndexError "boolean index did not match indexed array").

(** The loops of lines 206-207 and 224-225: every array indexed by the
    same boolean array. *)
Fixpoint select_events (ev : events) (keep : list bool) : result events :=
  match ev with
  | [] => inl []
  | (key, a) :: ev' =>
      bind (np_compress a keep) (fun a' =>
      bind (select_events ev' keep) (fun rest => inl ((key, a') :: rest)))
  end.

(** [d.pop(key)]: the value and the dictionary without the key. *)
Fixpoint pop (ev : events) (key : string) : result (list V * events) :=
  match ev with
  | [] => inr (KeyError ("'" ++ key ++ "'"))
  | (k, a) :: ev' =>
      if String.eqb k key then inl (a, ev')
      else bind (pop ev' key) (fun r => inl (fst r, (k, a) :: snd r))
  end.

(** [Gate.box_gates] (its truth value) and [Gate.gate_events], which are
    not part of the sources. *)
Variable box_gates : bool.
Variable gate_events : events -> list bool.

(** Lines 202-229 of [get_events_from_masks]: the events that are returned
    and the new value of [invalid_mask_counter], an unsigned 64-bit
    counter. *)
Definition gate_and_clean (ev : events) (invalid_mask_counter : Z)
  : result events * Z :=
  match (if box_gates then select_events ev (gate_events ev) else inl ev) with
  | inr e => (inr e, invalid_mask_counter)
  | inl gated_events =>
      match pop gated_events "valid" with
      | inr e => (inr e, invalid_mask_counter)
      | inl (valid, gated_events) =>
          let valid := map is_true valid in
          let invalid := map negb valid in
          if existsb (fun b : bool => b) invalid then
            (select_events gated_events valid,
             (invalid_mask_counter
              + Z.of_nat (length (filter (fun b : bool => b) invalid)))
             mod 2 ^ 64)
          else (inl gated_events, invalid_mask_counter)
      end
  end.

(** The events that pass: the box gates, if there are any, and the flag of
    the moments. *)
Definition passes (ev : events) (valid : list V) : list bool :=
  if box_gates
  then map (fun gv => fst gv && is_true (snd gv)) (combine (gate_events ev) valid)
  else map is_true valid.

(** The events that pass the box gates and are flagged invalid. *)
Definition dropped_invalid (ev : events) (valid : list V) : list bool :=
  if box_gates
  then map (fun gv => fst gv && negb (is_true (snd gv)))
           (combine (gate_events ev) valid)
  else map (fun v => negb (is_true v)) valid.

End Events.

Arguments compress {V}.
Arguments np_compress {V}.
Arguments select_events {V}.
Arguments pop {V}.
Arguments gate_and_clean {V}.
Arguments passes {V}.
Arguments dropped_invalid {V}.

End Gating.

Module PpidText.

(** How often a character occurs in a string. *)
Fixpoint count_char (c : ascii) (s : string) : nat :=
  match s with
  | EmptyString => 0
  | String c' s' => (if Ascii.eqb c' c then 1 else 0) + count_char c s'
  end.

End PpidText.

(* ================================================================== *)
(** * Facts about the Python primitives *)
(* ================================================================== *)

Section PyFacts.
Import Py.
Context {V : Type}.
Implicit Types (d : odict V) (k : Z) (v : V).

Lemma od_contains_false d k :
  od_contains k d = false <-> ~ In k (od_keys d).
Proof.
  unfold od_contains, od_keys. induction d as [|[k' v'] d IH]; simpl.
  - tauto.
  - rewrite orb_false_iff, IH, Z.eqb_neq. tauto.
Qed.

Lemma od_contains_true d k :
  od_contains k d = true <-> In k (od_keys d).
Proof.
  destruct (od_contains k d) eqn:E.
  - split; [intros _|reflexivity].
    destruct (in_dec Z.eq_dec k (od_keys d)) as [H|H]; [exact H|].
    apply od_contains_false in H. congruence.
  - apply od_contains_false in E. split; [discriminate|tauto].
Qed.

Lemma od_setitem_absent d k v :
  od_contains k d = false -> od_setitem d k v = (d ++ [(k, v)])%list.
Proof.
  unfold od_contains. induction d as [|[k' v'] d IH]; simpl; intros H.
  - reflexivity.
  - apply orb_false_iff in H as [H1 H2]. rewrite H1, IH by exact H2.
    reflexivity.
Qed.

Lemma od_getitem_In d k v :
  NoDup (od_keys d) -> In (k, v) d -> od_getitem d k = inl v.
Proof.
  unfold od_getitem, od_keys.
  induction d as [|[k' v'] d IH]; simpl; intros ND HIn; [tauto|].
  inversion ND as [|? ? Hnot ND']; subst.
  destruct HIn as [E|HIn].
  - inversion E; subst. rewrite Z.eqb_refl. reflexivity.
  - destruct (k' =? k) eqn:Ek.
    + apply Z.eqb_eq in Ek. subst k'. exfalso. apply Hnot.
      change k with (fst (k, v)). apply in_map. exact HIn.
    + apply IH; assumption.
Qed.

Lemma od_keys_In d k :
  In k (od_keys d) -> exists v, In (k, v) d.
Proof.
  unfold od_keys. intros H. apply in_map_iff in H as [[k' v] [E H]].
  simpl in E. subst. eauto.
Qed.

Lemma od_keys_app d d' :
  od_keys (d ++ d') = (od_keys d ++ od_keys d')%list.
Proof. apply map_app. Qed.

Lemma od_keys_tl d : od_keys (tl d) = tl (od_keys d).
Proof. destruct d; reflexivity. Qed.

End PyFacts.

Section ListFacts.
Import Py.
Context {A : Type}.
Implicit Types (l : list A) (n : nat).

Lemma in_firstn n l x : In x (firstn n l) -> In x l.
Proof.
  intros H. rewrite <- (firstn_skipn n l). apply in_or_app. left. exact H.
Qed.

Lemma in_skipn n l x : In x (skipn n l) -> In x l.
Proof.
  intros H. rewrite <- (firstn_skipn n l). apply in_or_app. right. exact H.
Qed.

Lemma lastn_all n l : (length l <= n)%nat -> lastn n l = l.
Proof.
  intros H. unfold lastn. replace (length l - n)%nat with 0%nat by lia.
  reflexivity.
Qed.

Lemma length_lastn n l : length (lastn n l) = Nat.min n (length l).
Proof. unfold lastn. rewrite length_skipn. lia. Qed.

Lemma tl_skipn n l : tl (skipn n l) = skipn (S n) l.
Proof.
  revert l. induction n as [|n IH]; intros [|x l]; simpl.
  - reflexivity.
  - reflexivity.
  - reflexivity.
  - rewrite IH. reflexivity.
Qed.

Lemma lastn_snoc_full n l x :
  (n <= length l)%nat -> tl (lastn n l ++ [x]) = lastn n (l ++ [x]).
Proof.
  intros H. unfold lastn. rewrite length_app. simpl.
  destruct n as [|n].
  - rewrite !Nat.sub_0_r, skipn_all. simpl.
    rewrite skipn_all2 by (rewrite length_app; simpl; lia). reflexivity.
  - replace (length l + 1 - S n)%nat with (S (length l - S n)) by lia.
    rewrite skipn_app.
    replace (S (length l - S n) - length l)%nat with 0%nat by lia.
    rewrite <- tl_skipn.
    destruct (skipn (length l - S n) l) eqn:E; [|reflexivity].
    exfalso. assert (L : length (skipn (length l - S n) l) = 0%nat)
      by (rewrite E; reflexivity).
    rewrite length_skipn in L. lia.
Qed.

Lemma nth_error_slice l (a b : Z) (j : nat) :
  0 <= a -> a + Z.of_nat j < b -> a + Z.of_nat j < Z.of_nat (length l) ->
  nth_error (slice l a b) j = nth_error l (Z.to_nat a + j).
Proof.
  intros Ha Hj Hlen. unfold slice, clamp_index.
  assert (Ea : (a <? 0) = false) by (apply Z.ltb_ge; lia).
  assert (Eb : (b <? 0) = false) by (apply Z.ltb_ge; lia).
  rewrite Ea, Eb.
  rewrite nth_error_firstn.
  destruct (Nat.ltb_spec j (Z.to_nat (Z.min b (Z.of_nat (length l)) - Z.min a (Z.of_nat (length l))))) as [L|L]; [|lia].
  rewrite nth_error_skipn. f_equal. lia.
Qed.

Lemma length_slice l (a b : Z) :
  0 <= a <= b ->
  Z.of_nat (length (slice l a b)) =
  Z.max 0 (Z.min b (Z.of_nat (length l)) - a).
Proof.
  intros H. unfold slice, clamp_index.
  assert (Ea : (a <? 0) = false) by (apply Z.ltb_ge; lia).
  assert (Eb : (b <? 0) = false) by (apply Z.ltb_ge; lia).
  rewrite Ea, Eb, length_firstn, length_skipn. lia.
Qed.

End ListFacts.

(* ================================================================== *)
(** * [HDF5ImageCache]: invariant and behaviour of [get_chunk] *)
(* ================================================================== *)

Section CacheFacts.
Import Py Cache.
Implicit Types (c : HDF5ImageCache) (k i : Z).

Lemma same_params_refl c : same_params c c.
Proof. repeat split. Qed.

Lemma same_params_trans c1 c2 c3 :
  same_params c1 c2 -> same_params c2 c3 -> same_params c1 c3.
Proof. unfold same_params. intuition congruence. Qed.

Lemma materialize_params c c' k :
  same_params c c' -> materialize c' k = materialize c k.
Proof.
  intros (E1 & E2 & E3 & E4). unfold materialize. rewrite E1, E2, E3.
  reflexivity.
Qed.

Lemma get_chunk_hit c k :
  od_contains k (cache c) = true ->
  get_chunk c k = (od_getitem (cache c) k, c).
Proof. intros H. unfold get_chunk. rewrite H. reflexivity. Qed.

Lemma get_chunk_miss c k :
  od_contains k (cache c) = false ->
  get_chunk c k =
  (od_getitem (after_miss c k) k,
   with_cache c (after_miss c k) (loads c ++ [k])).
Proof.
  intros H. unfold get_chunk, after_miss. rewrite H.
  rewrite (od_setitem_absent _ _ _ H).
  destruct (Z.of_nat (length (cache c ++ [(k, materialize c k)])) >? cache_size c);
    [|reflexivity].
  destruct (cache c); reflexivity.
Qed.

Lemma get_chunk_params c k : same_params c (snd (get_chunk c k)).
Proof.
  destruct (od_contains k (cache c)) eqn:E.
  - rewrite get_chunk_hit by exact E. apply same_params_refl.
  - rewrite get_chunk_miss by exact E. repeat split.
Qed.

Lemma getitem_params c i : same_params c (snd (getitem c i)).
Proof.
  unfold getitem. destruct (chunk_size c =? 0); [apply same_params_refl|].
  match goal with |- context [get_chunk c ?k] =>
    pose proof (get_chunk_params c k) as H; destruct (get_chunk c k) end.
  exact H.
Qed.

Lemma init_inv ds cs n b : inv (init ds cs n b).
Proof.
  split; simpl.
  - constructor.
  - tauto.
  - unfold lastn. rewrite skipn_nil. reflexivity.
Qed.

Lemma after_miss_keys c k :
  inv c ->
  od_keys (after_miss c k) =
  lastn (Z.to_nat (cache_size c)) (loads c ++ [k]).
Proof.
  intros [_ _ F]. unfold after_miss.
  assert (L : length (od_keys (cache c)) =
              Nat.min (Z.to_nat (cache_size c)) (length (loads c)))
    by (rewrite F; apply length_lastn).
  unfold od_keys in L. rewrite length_map in L.
  rewrite length_app. simpl length.
  destruct (Z.gtb_spec (Z.of_nat (length (cache c) + 1)) (cache_size c)) as [G|G].
  - rewrite od_keys_tl, od_keys_app, F. simpl.
    apply lastn_snoc_full. lia.
  - rewrite od_keys_app, F. simpl.
    rewrite !lastn_all; [reflexivity| |]; try rewrite length_app; simpl; lia.
Qed.

Lemma after_miss_In c k k' v :
  In (k', v) (after_miss c k) ->
  In (k', v) (cache c) \/ (k', v) = (k, materialize c k).
Proof.
  unfold after_miss. intros H.
  assert (H' : In (k', v) (cache c ++ [(k, materialize c k)])).
  { destruct (_ >? _); [|exact H].
    destruct (cache c ++ [(k, materialize c k)])%list; [exact H|right; exact H]. }
  apply in_app_or in H' as [H'|[H'|[]]]; [left; exact H'|right; congruence].
Qed.

Lemma NoDup_tl {A : Type} (l : list A) : NoDup l -> NoDup (tl l).
Proof. intros H. destruct l; [exact H|]. inversion H; assumption. Qed.

Lemma get_chunk_inv c k : inv c -> inv (snd (get_chunk c k)).
Proof.
  intros I. destruct (od_contains k (cache c)) eqn:E.
  - rewrite get_chunk_hit by exact E. exact I.
  - rewrite get_chunk_miss by exact E. simpl.
    pose proof (after_miss_keys c k I) as K.
    destruct I as [ND D F]. split; simpl.
    + unfold after_miss.
      assert (ND1 : NoDup (od_keys (cache c ++ [(k, materialize c k)]))).
      { rewrite od_keys_app. simpl. apply NoDup_app; [exact ND|repeat constructor; simpl; tauto|].
        intros x Hx [<-|[]]. apply od_contains_false in E. tauto. }
      destruct (_ >? _); [|exact ND1].
      rewrite od_keys_tl. apply NoDup_tl. exact ND1.
    + intros k' v H. apply after_miss_In in H as [H|H].
      * apply D in H. exact H.
      * inversion H; subst. reflexivity.
    + exact K.
Qed.

Lemma getitem_inv c i : inv c -> inv (snd (getitem c i)).
Proof.
  intros I. unfold getitem. destruct (chunk_size c =? 0); [exact I|].
  match goal with |- context [get_chunk c ?k] =>
    pose proof (get_chunk_inv c k I) as H; destruct (get_chunk c k) end.
  exact H.
Qed.

Lemma reachable_inv c0 c :
  inv c0 -> reachable c0 c -> inv c /\ same_params c0 c.
Proof.
  intros I0 R. induction R as [|c k R [I P]|c i R [I P]].
  - split; [exact I0|apply same_params_refl].
  - split; [apply get_chunk_inv; exact I|].
    eapply same_params_trans; [exact P|apply get_chunk_params].
  - split; [apply getitem_inv; exact I|].
    eapply same_params_trans; [exact P|apply getitem_params].
Qed.

Lemma inv_bound c :
  inv c -> 0 <= cache_size c -> Z.of_nat (length (cache c)) <= cache_size c.
Proof.
  intros [_ _ F] H.
  assert (L : length (od_keys (cache c)) =
              Nat.min (Z.to_nat (cache_size c)) (length (loads c)))
    by (rewrite F; apply length_lastn).
  unfold od_keys in L. rewrite length_map in L. lia.
Qed.

(** With room for at least one chunk, [get_chunk] returns the chunk that a
    miss on that index materialises, whether it was resident or not. *)
Lemma get_chunk_value c k :
  inv c -> 1 <= cache_size c ->
  fst (get_chunk c k) = inl (materialize c k).
Proof.
  intros I N. destruct (od_contains k (cache c)) eqn:E.
  - rewrite get_chunk_hit by exact E. simpl.
    apply od_contains_true, od_keys_In in E as [v Hv].
    rewrite (od_getitem_In _ _ _ (inv_nodup _ I) Hv).
    f_equal. apply (inv_data _ I). exact Hv.
  - pose proof (get_chunk_inv c k I) as I'.
    rewrite get_chunk_miss in * by exact E. simpl in *.
    apply od_getitem_In; [exact (inv_nodup _ I')|].
    unfold after_miss. rewrite length_app. simpl length.
    destruct (Z.gtb_spec (Z.of_nat (length (cache c) + 1)) (cache_size c)) as [G|G].
    + destruct (cache c) as [|p d] eqn:Ec; [simpl in G; lia|].
      simpl. apply in_or_app. right. left. reflexivity.
    + apply in_or_app. right. left. reflexivity.
Qed.

End CacheFacts.

(* ================================================================== *)
(** * [HDF5ImageCache]: element access *)
(* ================================================================== *)

Section CacheAccess.
Import Py Cache.
Implicit Types (c : HDF5ImageCache) (k i : Z).

Lemma getitem_fst c i :
  chunk_size c <> 0 ->
  fst (getitem c i) =
  let index := if i <? 0 then Z.of_nat (length (h5ds c)) + i else i in
  bind (fst (get_chunk c (index / chunk_size c)))
       (fun ch => np_getitem ch (index mod chunk_size c)).
Proof.
  intros H. unfold getitem. apply Z.eqb_neq in H. rewrite H.
  destruct (get_chunk c _). reflexivity.
Qed.

(** Reading position [i mod cs] of the slice that chunk [i / cs] covers. *)
Lemma np_getitem_slice {A : Type} (l : list A) (cs i : Z) :
  1 <= cs -> 0 <= i ->
  np_getitem (slice l (cs * (i / cs)) (cs * (i / cs + 1))) (i mod cs) =
  match nth_error l (Z.to_nat i) with
  | Some x => inl x
  | None =>
      inr (IndexError
             (np_index_msg (i mod cs)
                (Z.max 0 (Z.min (cs * (i / cs + 1)) (Z.of_nat (length l))
                          - cs * (i / cs)))))
  end.
Proof.
  intros Hcs Hi.
  pose proof (Z.mod_pos_bound i cs ltac:(lia)) as Hm.
  pose proof (Z.div_mod i cs ltac:(lia)) as Hd.
  assert (Hq : 0 <= i / cs) by (apply Z.div_pos; lia).
  assert (Hk : 0 <= cs * (i / cs)) by nia.
  unfold np_getitem.
  rewrite length_slice by nia.
  assert (E : (i mod cs <? 0) = false) by (apply Z.ltb_ge; lia).
  rewrite E.
  destruct (Z.ltb_spec (i mod cs)
              (Z.max 0 (Z.min (cs * (i / cs + 1)) (Z.of_nat (length l))
                        - cs * (i / cs)))) as [L|L].
  - replace (0 <=? i mod cs) with true by (symmetry; apply Z.leb_le; lia).
    simpl.
    assert (Hlt : i < Z.of_nat (length l)) by lia.
    rewrite (nth_error_slice l (cs * (i / cs)) (cs * (i / cs + 1))
               (Z.to_nat (i mod cs))) by lia.
    replace (Z.to_nat (cs * (i / cs)) + Z.to_nat (i mod cs))%nat
      with (Z.to_nat i) by lia.
    destruct (nth_error l (Z.to_nat i)) eqn:N; [reflexivity|].
    apply nth_error_None in N. lia.
  - rewrite andb_false_r.
    destruct (nth_error l (Z.to_nat i)) eqn:N; [|reflexivity].
    exfalso. assert (Hn : nth_error l (Z.to_nat i) <> None) by congruence.
    apply nth_error_Some in Hn. lia.
Qed.

Lemma np_getitem_map {A B : Type} (f : A -> B) (l : list A) (j : Z) :
  np_getitem (map f l) j =
  match np_getitem l j with
  | inl x => inl (f x)
  | inr e => inr e
  end.
Proof.
  unfold np_getitem. rewrite length_map.
  destruct ((0 <=? _) && _); [|reflexivity].
  rewrite nth_error_map. destruct (nth_error l _); reflexivity.
Qed.

(** The general form of element access on a plain (non-boolean) cache:
    data exactly when the index is inside the dataset, numpy's
    [IndexError] of the sub-index otherwise. *)
Lemma getitem_plain ds cs n c i :
  1 <= cs -> 1 <= n -> 0 <= i ->
  reachable (init ds cs n false) c ->
  fst (getitem c i) =
  match nth_error ds (Z.to_nat i) with
  | Some x => inl x
  | None =>
      inr (IndexError
             (np_index_msg (i mod cs)
                (Z.max 0 (Z.min (cs * (i / cs + 1)) (Z.of_nat (length ds))
                          - cs * (i / cs)))))
  end.
Proof.
  intros Hcs Hn Hi R.
  destruct (reachable_inv _ c (init_inv ds cs n false) R)
    as [I (E1 & E2 & E3 & E4)].
  simpl in E1, E2, E3, E4.
  rewrite getitem_fst by lia.
  replace (i <? 0) with false by (symmetry; apply Z.ltb_ge; lia).
  cbv zeta. rewrite get_chunk_value by (assumption || lia).
  unfold materialize. rewrite E1, E2, E3. cbn [bind].
  apply np_getitem_slice; assumption.
Qed.

(** The same for the boolean variant: the element is converted to a mask. *)
Lemma getitem_boolean ds cs n c i :
  1 <= cs -> 1 <= n -> 0 <= i < Z.of_nat (length ds) ->
  reachable (init ds cs n true) c ->
  exists x, nth_error ds (Z.to_nat i) = Some x /\
            fst (getitem c i) =
            inl (map (map (fun v => if v =? 0 then 0 else 1)) x).
Proof.
  intros Hcs Hn Hi R.
  destruct (reachable_inv _ c (init_inv ds cs n true) R)
    as [I (E1 & E2 & E3 & E4)].
  simpl in E1, E2, E3, E4.
  destruct (nth_error ds (Z.to_nat i)) as [x|] eqn:N.
  2:{ apply nth_error_None in N. lia. }
  exists x. split; [reflexivity|].
  rewrite getitem_fst by lia.
  replace (i <? 0) with false by (symmetry; apply Z.ltb_ge; lia).
  cbv zeta. rewrite get_chunk_value by (assumption || lia).
  unfold materialize, astype_bool. rewrite E1, E2, E3. cbn [bind].
  pose proof (np_getitem_slice ds cs i ltac:(lia) ltac:(lia)) as HS.
  rewrite N in HS.
  rewrite np_getitem_map.
  match goal with |- context [np_getitem ?s ?j] =>
    change (np_getitem s j) with
      (np_getitem (slice ds (cs * (i / cs)) (cs * (i / cs + 1))) (i mod cs))
  end.
  rewrite HS. reflexivity.
Qed.



(** Beyond the dataset no index returns data: the read of the sub-index in
    the (short or empty) chunk raises numpy's [IndexError]. *)
Lemma getitem_out_of_range ds cs n c i :
  1 <= cs -> 1 <= n -> Z.of_nat (length ds) <= i ->
  reachable (init ds cs n false) c ->
  fst (getitem c i) =
  inr (IndexError
         (np_index_msg (i mod cs)
            (Z.max 0 (Z.min (cs * (i / cs + 1)) (Z.of_nat (length ds))
                      - cs * (i / cs))))).
Proof.
  intros Hcs Hn Hi R.
  rewrite (getitem_plain ds cs n c i) by (assumption || lia).
  destruct (nth_error ds (Z.to_nat i)) eqn:N; [|reflexivity].
  exfalso. assert (Hs : nth_error ds (Z.to_nat i) <> None) by congruence.
  apply nth_error_Some in Hs. lia.
Qed.

(** C4.  In every reachable state with a capacity [cache_size >= 0], after
    [get_chunk k]: the cache holds at most [cache_size] chunks; a hit leaves
    the whole object as it was (nothing read, nothing evicted, order kept);
    a miss reads chunk [k], puts it last and drops exactly the first entry
    when the capacity is exceeded; and the resident indices are, in order,
    the last [cache_size] indices that were loaded (first in, first out,
    whatever was accessed in between). *)
Theorem C4_get_chunk_fifo ds cs n b c k :
  0 <= n ->
  reachable (init ds cs n b) c ->
  Z.of_nat (length (cache (snd (get_chunk c k)))) <= n /\
  (od_contains k (cache c) = true -> snd (get_chunk c k) = c) /\
  (od_contains k (cache c) = false ->
   loads (snd (get_chunk c k)) = (loads c ++ [k])%list /\
   cache (snd (get_chunk c k)) =
     if Z.of_nat (length (cache c ++ [(k, materialize c k)])) >? n
     then tl (cache c ++ [(k, materialize c k)])
     else (cache c ++ [(k, materialize c k)])%list) /\
  od_keys (cache (snd (get_chunk c k))) =
    lastn (Z.to_nat n) (loads (snd (get_chunk c k))).
Proof.
  intros Hn R.
  destruct (reachable_inv _ _ (init_inv ds cs n b) (reach_get_chunk _ c k R))
    as [I' (_ & _ & _ & E4')].
  destruct (reachable_inv _ c (init_inv ds cs n b) R) as [I (_ & _ & _ & E4)].
  simpl in E4, E4'.
  repeat split.
  - rewrite <- E4'. apply inv_bound; [exact I'|lia].
  - intros H. rewrite get_chunk_hit by exact H. reflexivity.
  - rewrite get_chunk_miss by assumption. reflexivity.
  - rewrite get_chunk_miss by assumption. simpl. unfold after_miss.
    rewrite E4. reflexivity.
  - rewrite (inv_fifo _ I'), E4'. reflexivity.
Qed.

Lemma C4_get_chunk_fifo_witness :
  Z.of_nat (length (cache (snd (get_chunk (init (dataset 5) 2 1 false) 1)))) <= 1.
Proof.
  exact (proj1 (C4_get_chunk_fifo (dataset 5) 2 1 false
                  (init (dataset 5) 2 1 false) 1
                  ltac:(lia) (reach_init _))).
Defined.

(** The test scenario of the FIFO policy (chunks 0, 2, 0 again, then 1 with
    room for two): the hit on chunk 0 does not save it from eviction. *)
Example fifo_ignores_access_recency :
  let hic := init (dataset 210) 100 2 false in
  let hic1 := snd (getitem hic 10) in
  let hic2 := snd (getitem hic1 205) in
  let hic3 := snd (getitem hic2 90) in
  let hic4 := snd (getitem hic3 140) in
  od_keys (cache hic2) = [0; 2] /\ hic3 = hic2 /\ od_keys (cache hic4) = [2; 1].
Proof. vm_compute. repeat split. Qed.

(** C7 (evaluation at the input of [test_image_cache_index_out_of_range]:
    20 images, [chunk_size = 8], [cache_size = 2], index 20).  The read
    raises, but the exception is numpy's, for sub-index 4 of the 4-image
    last chunk: its message names neither [HDF5ImageCache], which the test
    matches on, nor the index 20. *)
Theorem C7_out_of_range_message :
  let hic := init (dataset 20) 8 2 false in
  let hic1 := snd (getitem hic 10) in
  fst (getitem hic1 20) =
    inr (IndexError "index 4 is out of bounds for axis 0 with size 4") /\
  contains "of bounds for HDF5ImageCache"
           "index 4 is out of bounds for axis 0 with size 4" = false /\
  contains "20" "index 4 is out of bounds for axis 0 with size 4" = false.
Proof. vm_compute. repeat split. Qed.

End CacheAccess.

(* ================================================================== *)
(** * First-in first-out insertion, for both caches *)
(* ================================================================== *)

Section FifoFacts.
Import Py.
Context {V : Type}.
Implicit Types (d : odict V) (k n : Z) (v : V).

Lemma od_getitem_inl d k v : od_getitem d k = inl v -> In (k, v) d.
Proof.
  unfold od_getitem. destruct (find _ d) as [[k' v']|] eqn:F; [|discriminate].
  intros E. inversion E; subst. apply find_some in F as [HIn Hk].
  simpl in Hk. apply Z.eqb_eq in Hk. subst. exact HIn.
Qed.

Lemma fifo_put_keys d n k v (log : list Z) :
  od_keys d = lastn (Z.to_nat n) log ->
  od_keys (fifo_put d n k v) = lastn (Z.to_nat n) (log ++ [k]).
Proof.
  intros F. unfold fifo_put.
  assert (L : length (od_keys d) = Nat.min (Z.to_nat n) (length log))
    by (rewrite F; apply length_lastn).
  unfold od_keys in L. rewrite length_map in L.
  rewrite length_app. simpl length.
  destruct (Z.gtb_spec (Z.of_nat (length d + 1)) n) as [G|G].
  - rewrite od_keys_tl, od_keys_app, F. simpl.
    apply lastn_snoc_full. lia.
  - rewrite od_keys_app, F. simpl.
    rewrite !lastn_all; [reflexivity| |]; try rewrite length_app; simpl; lia.
Qed.

Lemma fifo_put_In d n k v k' v' :
  In (k', v') (fifo_put d n k v) -> In (k', v') d \/ (k', v') = (k, v).
Proof.
  unfold fifo_put. intros H.
  assert (H' : In (k', v') (d ++ [(k, v)])).
  { destruct (_ >? _); [|exact H].
    destruct (d ++ [(k, v)])%list; [exact H|right; exact H]. }
  apply in_app_or in H' as [H'|[H'|[]]]; [left; exact H'|right; congruence].
Qed.

Lemma fifo_put_nodup d n k v :
  NoDup (od_keys d) -> od_contains k d = false ->
  NoDup (od_keys (fifo_put d n k v)).
Proof.
  intros ND E. unfold fifo_put.
  assert (ND1 : NoDup (od_keys (d ++ [(k, v)]))).
  { rewrite od_keys_app. simpl.
    apply NoDup_app; [exact ND|repeat constructor; simpl; tauto|].
    intros x Hx [<-|[]]. apply od_contains_false in E. tauto. }
  destruct (_ >? _); [|exact ND1].
  rewrite od_keys_tl. apply NoDup_tl. exact ND1.
Qed.

Lemma fifo_put_last d n k v : 1 <= n -> In (k, v) (fifo_put d n k v).
Proof.
  intros N. unfold fifo_put. rewrite length_app. simpl length.
  destruct (Z.gtb_spec (Z.of_nat (length d + 1)) n) as [G|G].
  - destruct d as [|p d]; [simpl in G; lia|].
    simpl. apply in_or_app. right. left. reflexivity.
  - apply in_or_app. right. left. reflexivity.
Qed.

Lemma fifo_put_bound d n k v :
  0 <= n -> Z.of_nat (length d) <= n ->
  Z.of_nat (length (fifo_put d n k v)) <= n.
Proof.
  intros N L. unfold fifo_put. rewrite length_app. simpl length.
  destruct (Z.gtb_spec (Z.of_nat (length d + 1)) n) as [G|G].
  - destruct d; simpl in *; [lia|]. rewrite length_app. simpl. lia.
  - rewrite length_app. simpl. lia.
Qed.

(** The three statements of the source, on a key that is absent. *)
Lemma od_put_evict d n k v :
  od_contains k d = false ->
  (let cache1 := od_setitem d k v in
   if Z.of_nat (length cache1) >? n then
     match od_popitem_first cache1 with
     | inl (_, cache2) => inl cache2
     | inr e => inr e
     end
   else inl cache1) = inl (fifo_put d n k v).
Proof.
  intros E. cbv zeta. rewrite (od_setitem_absent _ _ _ E). unfold fifo_put.
  destruct (_ >? _); [|reflexivity].
  destruct d; reflexivity.
Qed.

End FifoFacts.

(* ================================================================== *)
(** * [ImageCorrCache]: invariant and behaviour *)
(* ================================================================== *)

Section CorrFacts.
Import Py.
Implicit Types (cc : CorrCache.ImageCorrCache) (c : Cache.HDF5ImageCache).
Implicit Types (k i : Z).

Lemma cache_get_chunk_sound c k v :
  Cache.inv c -> fst (Cache.get_chunk c k) = inl v ->
  v = Cache.materialize c k.
Proof.
  intros I H. destruct (od_contains k (Cache.cache c)) eqn:E.
  - rewrite get_chunk_hit in H by exact E. simpl in H.
    apply od_getitem_inl in H. apply (Cache.inv_data _ I). exact H.
  - rewrite get_chunk_miss in H by exact E. simpl in H.
    apply od_getitem_inl, after_miss_In in H as [H|H].
    + apply (Cache.inv_data _ I). exact H.
    + inversion H. reflexivity.
Qed.

Lemma corr_get_chunk_hit cc k :
  od_contains k (CorrCache.cache cc) = true ->
  CorrCache._get_chunk cc k = (od_getitem (CorrCache.cache cc) k, cc).
Proof. intros H. unfold CorrCache._get_chunk. rewrite H. reflexivity. Qed.

Lemma corr_get_chunk_miss cc k :
  od_contains k (CorrCache.cache cc) = false ->
  CorrCache._get_chunk cc k =
  let im := snd (Cache.get_chunk (CorrCache.image cc) k) in
  match fst (Cache.get_chunk (CorrCache.image cc) k) with
  | inr e => (inr e, CorrCache.with_images cc im (CorrCache.image_bg cc))
  | inl raw =>
      let bg := snd (Cache.get_chunk (CorrCache.image_bg cc) k) in
      let cc1 := CorrCache.with_images cc im bg in
      match fst (Cache.get_chunk (CorrCache.image_bg cc) k) with
      | inr e => (inr e, cc1)
      | inl back =>
          match CorrCache.np_sub (CorrCache.astype_int raw) back with
          | inr e => (inr e, cc1)
          | inl data =>
              let d := fifo_put (CorrCache.cache cc) (CorrCache.cache_size cc)
                                k data in
              (od_getitem d k,
               CorrCache.with_cache cc1 d (CorrCache.computed cc ++ [k]))
          end
      end
  end.
Proof.
  intros H. unfold CorrCache._get_chunk. rewrite H.
  destruct (Cache.get_chunk (CorrCache.image cc) k) as [[raw|e] im];
    [|reflexivity].
  destruct (Cache.get_chunk (CorrCache.image_bg cc) k) as [[back|e] bg];
    [|reflexivity].
  cbn [fst snd].
  destruct (CorrCache.np_sub _ back) as [data|e]; [|reflexivity].
  cbv zeta. cbn [CorrCache.cache CorrCache.with_images CorrCache.cache_size
                 CorrCache.computed].
  pose proof (od_put_evict (CorrCache.cache cc) (CorrCache.cache_size cc)
                k data H) as P.
  cbv zeta in P.
  destruct (Z.of_nat (length (od_setitem (CorrCache.cache cc) k data))
            >? CorrCache.cache_size cc).
  - destruct (od_popitem_first _) as [[p d2]|e]; [|discriminate].
    inversion P; subst. reflexivity.
  - inversion P as [P']. rewrite !P'. reflexivity.
Qed.

Lemma corr_with_images_inv cc im bg :
  CorrCache.inv cc ->
  Cache.inv im -> Cache.same_params (CorrCache.image cc) im ->
  Cache.inv bg -> Cache.same_params (CorrCache.image_bg cc) bg ->
  CorrCache.inv (CorrCache.with_images cc im bg).
Proof.
  intros [I1 I2 S C H ND D F] Iim Pim Ibg Pbg.
  pose proof Pim as (E1 & E2 & E3 & E4).
  split; simpl; try assumption; try congruence.
  intros k v HIn.
  rewrite (materialize_params _ _ k Pim), (materialize_params _ _ k Pbg).
  apply D. exact HIn.
Qed.

Lemma corr_get_chunk_inv cc k :
  CorrCache.inv cc -> CorrCache.inv (snd (CorrCache._get_chunk cc k)).
Proof.
  intros I. destruct (od_contains k (CorrCache.cache cc)) eqn:E.
  - rewrite corr_get_chunk_hit by exact E. exact I.
  - rewrite corr_get_chunk_miss by exact E. cbv zeta.
    pose proof (get_chunk_inv _ k (CorrCache.inv_image _ I)) as Iim.
    pose proof (get_chunk_inv _ k (CorrCache.inv_image_bg _ I)) as Ibg.
    pose proof (get_chunk_params (CorrCache.image cc) k) as Pim.
    pose proof (get_chunk_params (CorrCache.image_bg cc) k) as Pbg.
    pose proof (cache_get_chunk_sound (CorrCache.image cc) k) as Sim.
    pose proof (cache_get_chunk_sound (CorrCache.image_bg cc) k) as Sbg.
    destruct (fst (Cache.get_chunk (CorrCache.image cc) k)) as [raw|e].
    2:{ apply corr_with_images_inv; try assumption.
        - apply (CorrCache.inv_image_bg _ I).
        - apply same_params_refl. }
    destruct (fst (Cache.get_chunk (CorrCache.image_bg cc) k)) as [back|e].
    2:{ apply corr_with_images_inv; assumption. }
    destruct (CorrCache.np_sub _ back) as [data|e] eqn:Esub.
    2:{ apply corr_with_images_inv; assumption. }
    pose proof (corr_with_images_inv cc _ _ I Iim Pim Ibg Pbg)
      as [J1 J2 JS JC JH JND JD JF].
    simpl in *.
    split; simpl; try assumption.
    + apply fifo_put_nodup; assumption.
    + intros k' v H. apply fifo_put_In in H as [H|H].
      * apply JD. exact H.
      * inversion H; subst k' v.
        rewrite (materialize_params _ _ k Pim), (materialize_params _ _ k Pbg).
        rewrite <- (Sim raw (CorrCache.inv_image _ I) eq_refl).
        rewrite <- (Sbg back (CorrCache.inv_image_bg _ I) eq_refl).
        exact Esub.
    + apply fifo_put_keys. exact JF.
Qed.

Lemma corr_getitem_inv cc i :
  CorrCache.inv cc -> CorrCache.inv (snd (CorrCache.getitem cc i)).
Proof.
  intros I. unfold CorrCache.getitem.
  destruct (CorrCache.chunk_size cc =? 0); [exact I|].
  match goal with |- context [CorrCache._get_chunk cc ?k] =>
    pose proof (corr_get_chunk_inv cc k I) as H;
    destruct (CorrCache._get_chunk cc k) end.
  exact H.
Qed.

Lemma corr_init_inv im bg :
  Cache.inv im -> Cache.inv bg -> CorrCache.inv (CorrCache.init im bg).
Proof.
  intros I1 I2. split; simpl; try assumption; try reflexivity.
  - constructor.
  - tauto.
Qed.

Lemma corr_reachable_inv cc0 cc :
  CorrCache.inv cc0 -> CorrCache.reachable cc0 cc -> CorrCache.inv cc.
Proof.
  intros I0 R. induction R as [|cc k R I|cc i R I|cc k R I|cc k R I].
  - exact I0.
  - apply corr_get_chunk_inv. exact I.
  - apply corr_getitem_inv. exact I.
  - apply corr_with_images_inv; try assumption.
    + apply get_chunk_inv, (CorrCache.inv_image _ I).
    + apply get_chunk_params.
    + apply (CorrCache.inv_image_bg _ I).
    + apply same_params_refl.
  - apply corr_with_images_inv; try assumption.
    + apply (CorrCache.inv_image _ I).
    + apply same_params_refl.
    + apply get_chunk_inv, (CorrCache.inv_image_bg _ I).
    + apply get_chunk_params.
Qed.

(** The parameters of the two underlying caches never change. *)
Lemma corr_get_chunk_params cc k :
  Cache.same_params (CorrCache.image cc)
    (CorrCache.image (snd (CorrCache._get_chunk cc k))) /\
  Cache.same_params (CorrCache.image_bg cc)
    (CorrCache.image_bg (snd (CorrCache._get_chunk cc k))).
Proof.
  destruct (od_contains k (CorrCache.cache cc)) eqn:E.
  - rewrite corr_get_chunk_hit by exact E. split; apply same_params_refl.
  - rewrite corr_get_chunk_miss by exact E. cbv zeta.
    pose proof (get_chunk_params (CorrCache.image cc) k) as Pim.
    pose proof (get_chunk_params (CorrCache.image_bg cc) k) as Pbg.
    destruct (fst (Cache.get_chunk (CorrCache.image cc) k)) as [raw|e];
      [|split; [exact Pim|apply same_params_refl]].
    destruct (fst (Cache.get_chunk (CorrCache.image_bg cc) k)) as [back|e];
      [|split; assumption].
    destruct (CorrCache.np_sub _ back) as [data|e]; split; assumption.
Qed.

Lemma corr_reachable_params cc0 cc :
  CorrCache.reachable cc0 cc ->
  Cache.same_params (CorrCache.image cc0) (CorrCache.image cc) /\
  Cache.same_params (CorrCache.image_bg cc0) (CorrCache.image_bg cc).
Proof.
  intros R. induction R as [|cc k R [P1 P2]|cc i R [P1 P2]
                            |cc k R [P1 P2]|cc k R [P1 P2]].
  - split; apply same_params_refl.
  - destruct (corr_get_chunk_params cc k) as [Q1 Q2].
    split; eapply same_params_trans; eassumption.
  - assert (Q : Cache.same_params (CorrCache.image cc)
                  (CorrCache.image (snd (CorrCache.getitem cc i))) /\
                Cache.same_params (CorrCache.image_bg cc)
                  (CorrCache.image_bg (snd (CorrCache.getitem cc i)))).
    { unfold CorrCache.getitem.
      destruct (CorrCache.chunk_size cc =? 0);
        [split; apply same_params_refl|].
      match goal with |- context [CorrCache._get_chunk cc ?k] =>
        pose proof (corr_get_chunk_params cc k) as H;
        destruct (CorrCache._get_chunk cc k) end.
      exact H. }
    destruct Q as [Q1 Q2].
    split; eapply same_params_trans; eassumption.
  - split; [|exact P2]. simpl.
    eapply same_params_trans; [exact P1|apply get_chunk_params].
  - split; [exact P1|]. simpl.
    eapply same_params_trans; [exact P2|apply get_chunk_params].
Qed.

(** What [_get_chunk] returns: the difference the two caches define. *)
Lemma corr_get_chunk_value cc k :
  CorrCache.inv cc ->
  1 <= Cache.cache_size (CorrCache.image cc) ->
  1 <= Cache.cache_size (CorrCache.image_bg cc) ->
  fst (CorrCache._get_chunk cc k) = CorrCache.corrected cc k.
Proof.
  intros I N1 N2. unfold CorrCache.corrected.
  pose proof (get_chunk_value _ k (CorrCache.inv_image _ I) N1) as V1.
  pose proof (get_chunk_value _ k (CorrCache.inv_image_bg _ I) N2) as V2.
  destruct (od_contains k (CorrCache.cache cc)) eqn:E.
  - rewrite corr_get_chunk_hit by exact E. rewrite V1, V2. simpl.
    apply od_contains_true, od_keys_In in E as [v Hv].
    rewrite (od_getitem_In _ _ _ (CorrCache.inv_nodup _ I) Hv).
    symmetry. apply (CorrCache.inv_data _ I). exact Hv.
  - pose proof (corr_get_chunk_inv cc k I) as I'.
    rewrite corr_get_chunk_miss in * by exact E. cbv zeta in *.
    rewrite V1, V2 in *. cbn [bind].
    destruct (CorrCache.np_sub _ _) as [data|e]; [|reflexivity].
    simpl in *. apply od_getitem_In.
    + exact (CorrCache.inv_nodup _ I').
    + apply fifo_put_last. rewrite (CorrCache.inv_size _ I). exact N1.
Qed.

End CorrFacts.

Section CorrClaims.
Import Py.

Lemma corr_getitem_fst cc i :
  CorrCache.chunk_size cc <> 0 ->
  fst (CorrCache.getitem cc i) =
  let index := if i <? 0 then Z.of_nat (length (CorrCache.h5ds cc)) + i else i in
  bind (fst (CorrCache._get_chunk cc (index / CorrCache.chunk_size cc)))
       (fun ch => np_getitem ch (index mod CorrCache.chunk_size cc)).
Proof.
  intros H. unfold CorrCache.getitem. apply Z.eqb_neq in H. rewrite H.
  destruct (CorrCache._get_chunk cc _). reflexivity.
Qed.

(** For 8-bit images the 64-bit signed difference is the exact difference. *)
Lemma int64_sub_uint8 x y :
  0 <= x < 256 -> 0 <= y < 256 ->
  CorrCache.int64_wrap (CorrCache.int64_wrap x - y) = x - y.
Proof.
  intros Hx Hy. unfold CorrCache.int64_wrap.
  rewrite (Z.mod_small (x + 2 ^ 63)) by lia.
  rewrite Z.mod_small by lia. lia.
Qed.



(** A corrected read on 8-bit data: image 3 minus background image 3. *)
Example corrected_read :
  let raw := Cache.init [[[10; 200]]; [[20; 0]]; [[30; 7]]; [[40; 255]]] 3 2 false in
  let back := Cache.init [[[12; 100]]; [[12; 100]]; [[12; 100]]; [[12; 100]]] 3 2 false in
  fst (CorrCache.getitem (CorrCache.init raw back) 3) = inl [[28; 155]] /\
  fst (CorrCache.getitem (CorrCache.init raw back) (-3)) = inl [[8; -100]].
Proof. vm_compute. split; reflexivity. Qed.

End CorrClaims.

(* ================================================================== *)
(** * The extraction coordinator *)
(* ================================================================== *)

Section ManagerFacts.
Import Py Manager.
Implicit Types (st : manager) (o : list world).

Lemma same_locals_refl st : same_locals st st.
Proof. repeat split. Qed.

Lemma same_locals_emit st evs : same_locals st (emit st evs).
Proof. repeat split. Qed.

Lemma same_locals_trans st1 st2 st3 :
  same_locals st1 st2 -> same_locals st2 st3 -> same_locals st1 st3.
Proof. unfold same_locals. intuition congruence. Qed.

Lemma barrier_done st target o st' o' :
  barrier st target o = Done tt st' o' ->
  exists waits,
    trace st' = (trace st ++ waits ++ [Poll target])%list /\
    Forall (waiting_event target) waits /\
    same_locals st st' /\
    exists w, In w o /\ np_sum (worker_monitor w) = target.
Proof.
  revert st. induction o as [|w o IH]; intros st H; simpl in H; [discriminate|].
  destruct (Z.eqb_spec (np_sum (worker_monitor w)) target) as [E|E]; simpl in H.
  - injection H as <- <-. exists []. simpl. rewrite E.
    repeat split; [constructor|].
    exists w. split; [left; reflexivity|exact E].
  - apply IH in H as (waits & T & F & L & w' & Hin & Hs).
    exists (Poll (np_sum (worker_monitor w)) :: Sleep 100 :: waits).
    split; [|split; [|split]].
    + rewrite T. simpl. rewrite <- app_assoc. reflexivity.
    + constructor; [right; eauto|]. constructor; [left; reflexivity|exact F].
    + eapply same_locals_trans; [apply same_locals_emit|exact L].
    + exists w'. split; [right; exact Hin|exact Hs].
Qed.

(** The barrier is passed as soon as one observation shows the count. *)
Lemma barrier_passes st target o :
  (exists w, In w o /\ np_sum (worker_monitor w) = target) ->
  exists st' o', barrier st target o = Done tt st' o'.
Proof.
  revert st. induction o as [|w o IH]; intros st (w' & Hin & Hs).
  - destruct Hin.
  - simpl. destruct (Z.eqb_spec (np_sum (worker_monitor w)) target) as [E|E];
      simpl.
    + eauto.
    + apply IH. destruct Hin as [->|Hin]; [contradiction|]. eauto.
Qed.

Lemma barrier_not_raised st target o e st' :
  barrier st target o <> Raised e st'.
Proof.
  revert st. induction o as [|w o IH]; intros st; simpl; [discriminate|].
  destruct (negb _); [apply IH|discriminate].
Qed.

Lemma barrier_final st target o :
  same_locals st (final (barrier st target o)) /\
  exists evs, trace (final (barrier st target o)) = (trace st ++ evs)%list.
Proof.
  revert st. induction o as [|w o IH]; intros st; simpl.
  - split; [apply same_locals_refl|exists []; symmetry; apply app_nil_r].
  - destruct (negb _); simpl.
    + destruct (IH (emit st [Poll (np_sum (worker_monitor w)); Sleep 100]))
        as [L [evs T]].
      split; [eapply same_locals_trans; [apply same_locals_emit|exact L]|].
      rewrite T. simpl. rewrite <- app_assoc. eauto.
    + split; [apply same_locals_emit|eauto].
Qed.

Lemma scan_done st cur unavailable o cur' st' o' :
  scan st cur unavailable o = Done cur' st' o' ->
  exists sleeps w,
    trace st' = (trace st ++ sleeps)%list /\
    Forall (eq (Sleep 100)) sleeps /\
    same_locals st st' /\
    In w o /\ py_getitem (slot_states w) cur' = inl "e"%char /\
    (forall x, In x o' -> In x o).
Proof.
  revert st cur unavailable.
  induction o as [|w o IH]; intros st cur unavailable H; simpl in H;
    [discriminate|].
  destruct (py_getitem (slot_states w) cur) as [tag|e] eqn:G; [|discriminate].
  destruct (Ascii.eqb_spec tag "e") as [E|E].
  - inversion H; subst. exists [], w. rewrite app_nil_r.
    repeat split; [constructor|left; reflexivity|exact G|].
    intros x Hx. right. exact Hx.
  - destruct (num_slots st =? 0); [discriminate|].
    destruct (unavailable + 1 >=? num_slots st).
    + apply IH in H as (sleeps & w' & T & F & L & Hin & Hs & Hsub).
      exists (Sleep 100 :: sleeps), w'.
      split; [|split; [|split; [|split; [|split]]]].
      * rewrite T. simpl. rewrite <- app_assoc. reflexivity.
      * constructor; [reflexivity|exact F].
      * eapply same_locals_trans; [apply same_locals_emit|exact L].
      * right. exact Hin.
      * exact Hs.
      * intros x Hx. right. apply Hsub. exact Hx.
    + apply IH in H as (sleeps & w' & T & F & L & Hin & Hs & Hsub).
      exists sleeps, w'.
      split; [exact T|]. split; [exact F|]. split; [exact L|].
      split; [right; exact Hin|]. split; [exact Hs|].
      intros x Hx. right. apply Hsub. exact Hx.
Qed.

Lemma astype_int16_fits l : fits_int16 l -> astype_int16 l = l.
Proof.
  unfold fits_int16, astype_int16. intros H.
  rewrite <- (map_id l) at 2. apply map_ext_in. intros row Hrow.
  rewrite Forall_forall in H. specialize (H row Hrow).
  rewrite <- (map_id row) at 2. apply map_ext_in. intros v Hv.
  rewrite Forall_forall in H. specialize (H v Hv).
  unfold int16_wrap. rewrite Z.mod_small by lia. lia.
Qed.

Lemma zero_like_background l : all_background (zero_like l).
Proof.
  unfold all_background, zero_like. apply Forall_map.
  apply Forall_forall. intros row _. apply Forall_map.
  apply Forall_forall. reflexivity.
Qed.

End ManagerFacts.

Section ManagerClaims.
Import Py Manager.
Implicit Types (st : manager) (o : list world).

(** The shape of [process] once the labels of the slot are accepted. *)
Lemma process_populated st cur w o chunk new_labels la :
  py_getitem (slot_chunks w) cur = inl chunk ->
  py_getitem (labels_list w) cur = inl new_labels ->
  populate (label_array st) new_labels = inl la ->
  label_array (final (process st cur (w :: o))) = la /\
  exists evs,
    trace (final (process st cur (w :: o))) =
    (trace st ++ SetLabels la :: evs)%list.
Proof.
  intros Hc Hl Hp. unfold process. rewrite Hc, Hl, Hp.
  destruct (get_chunk_size _ chunk) as [cs|e]; simpl.
  2:{ split; [reflexivity|exists []; reflexivity]. }
  match goal with |- context [barrier ?s ?t o] =>
    destruct (barrier_final s t o) as [L [evs T]];
    destruct (barrier s t o) as [u s' o'|e s'|s'] end; simpl in *.
  - split; [apply L|]. rewrite T, <- !app_assoc. simpl. eauto.
  - split; [apply L|]. rewrite T, <- !app_assoc. simpl. eauto.
  - split; [apply L|]. rewrite T, <- !app_assoc. simpl. eauto.
Qed.

Lemma process_done st cur o st' o' :
  process st cur o = Done tt st' o' ->
  exists w chunk new_labels la cs waits,
    In w o /\
    py_getitem (slot_chunks w) cur = inl chunk /\
    py_getitem (labels_list w) cur = inl new_labels /\
    populate (label_array st) new_labels = inl la /\
    get_chunk_size (data st) chunk = inl cs /\
    Forall (waiting_event (frames_processed st + cs)) waits /\
    (exists w', In w' o /\
                np_sum (worker_monitor w') = frames_processed st + cs) /\
    trace st' =
      (trace st ++ [SetLabels la]
       ++ map (fun ii => Put (chunk, ii)) (range cs)
       ++ waits
       ++ [Poll (frames_processed st + cs); SetState cur "w"])%list /\
    label_array st' = la /\
    data st' = data st /\ num_slots st' = num_slots st /\
    frames_processed st' = frames_processed st + cs /\
    chunks_processed st' = chunks_processed st + 1.
Proof.
  unfold process. destruct o as [|w o]; [discriminate|].
  destruct (py_getitem (slot_chunks w) cur) as [chunk|e] eqn:Hc; [|discriminate].
  destruct (py_getitem (labels_list w) cur) as [nl|e] eqn:Hl; [|discriminate].
  destruct (populate (label_array st) nl) as [la|e] eqn:Hp; [|discriminate].
  cbn [data emit with_labels].
  destruct (get_chunk_size (data st) chunk) as [cs|e] eqn:Hs; [|discriminate].
  cbn [frames_processed emit with_labels].
  match goal with |- context [barrier ?s ?t o] =>
    destruct (barrier s t o) as [u s' o''|e s'|s'] eqn:B end;
    [|discriminate|discriminate].
  intros H. injection H as <- <-. destruct u.
  apply barrier_done in B as (waits & T & F & (L1 & L2 & L3 & L4 & L5) & w' & Hin & Hw).
  simpl in T, L1, L2, L3, L4, L5.
  exists w, chunk, nl, la, cs, waits.
  split; [left; reflexivity|].
  do 4 (split; [assumption|]).
  split; [exact F|].
  split; [exists w'; split; [right; exact Hin|exact Hw]|].
  simpl. rewrite T, L1, L2, L3, L4, L5, <- !app_assoc. simpl.
  repeat split.
Qed.

(** C1 (what the code does for a claimed slot).  Whenever a turn of the
    coordinator's loop completes, it has claimed a slot that it observed in
    state "e"; after possible sleeps it wrote the slot's labels to the
    shared label array, then put one work item per frame of the chunk,
    then polled the worker monitor until its sum was the number of frames
    processed so far plus the size of the chunk, and only then wrote the
    slot's state.  The tag it writes is "w"; the documentation of
    [slot_states] says "s". *)
Theorem C1_claimed_slot_protocol st o b st' o' :
  iteration st o = Done b st' o' ->
  exists cur w_e w chunk new_labels la cs sleeps waits,
    (In w_e o /\ py_getitem (slot_states w_e) cur = inl "e"%char) /\
    (In w o /\ py_getitem (slot_chunks w) cur = inl chunk /\
     py_getitem (labels_list w) cur = inl new_labels) /\
    populate (label_array st) new_labels = inl la /\
    get_chunk_size (data st) chunk = inl cs /\
    Forall (fun e => exists ms, e = Sleep ms) sleeps /\
    Forall (waiting_event (frames_processed st + cs)) waits /\
    trace st' =
      (trace st ++ sleeps ++ [SetLabels la]
       ++ map (fun ii => Put (chunk, ii)) (range cs)
       ++ waits
       ++ [Poll (frames_processed st + cs); SetState cur "w"])%list /\
    frames_processed st' = frames_processed st + cs /\
    chunks_processed st' = chunks_processed st + 1 /\
    ~ In (SetState cur "s") (sleeps ++ [SetLabels la]
       ++ map (fun ii => Put (chunk, ii)) (range cs)
       ++ waits
       ++ [Poll (frames_processed st + cs); SetState cur "w"]).
Proof.
  unfold iteration. intros H.
  destruct o as [|w0 o1]; [discriminate|]. simpl in H.
  set (st1 := if writer_dq w0 >? 100
              then emit st [Sleep (writer_dq w0 * 10)] else st) in *.
  assert (T1 : exists pre, trace st1 = (trace st ++ pre)%list /\
                           Forall (fun e => exists ms, e = Sleep ms) pre /\
                           same_locals st st1).
  { unfold st1. destruct (writer_dq w0 >? 100).
    - exists [Sleep (writer_dq w0 * 10)]. repeat split.
      constructor; [eauto|constructor].
    - exists []. rewrite app_nil_r. repeat split. constructor. }
  assert (H' : match scan st1 0 0 o1 with
               | Done cur_slot st0 o2 =>
                   match process st0 cur_slot o2 with
                   | Done _ st2 o3 =>
                       Done (chunks_processed st2 =? num_chunks (data st2)) st2 o3
                   | Raised e st2 => Raised e st2
                   | Blocked st2 => Blocked st2
                   end
               | Raised e st0 => Raised e st0
               | Blocked st0 => Blocked st0
               end = Done b st' o').
  { unfold st1. destruct (writer_dq w0 >? 100); exact H. }
  clear H. destruct T1 as (pre & Tpre & Fpre & L1).
  destruct (scan st1 0 0 o1) as [cur st2 o2|e st2|st2] eqn:S;
    [|discriminate|discriminate].
  apply scan_done in S as (sleeps & w_e & T2 & F2 & L2 & Hin_e & He & Hsub).
  destruct (process st2 cur o2) as [u st3 o3|e st3|st3] eqn:P;
    [|discriminate|discriminate].
  injection H' as _ <- <-. destruct u.
  apply process_done in P
    as (w & chunk & nl & la & cs & waits & Hin & Hc & Hl & Hp & Hs & Fw & _
        & T3 & _ & _ & _ & Hf & Hn).
  pose proof (same_locals_trans _ _ _ L1 L2) as (D1 & D2 & D3 & D4 & D5).
  rewrite D1 in Hs. rewrite D3 in Hp. rewrite D5 in *. rewrite D4 in Hn.
  exists cur, w_e, w, chunk, nl, la, cs, (pre ++ sleeps)%list, waits.
  split; [split; [right; exact Hin_e|exact He]|].
  split; [split; [right; apply Hsub; exact Hin|split; assumption]|].
  split; [exact Hp|]. split; [exact Hs|].
  split.
  { apply Forall_app. split; [exact Fpre|].
    eapply Forall_impl; [|exact F2]. intros e <-. eauto. }
  split; [exact Fw|].
  split; [rewrite T3, T2, Tpre, <- !app_assoc; reflexivity|].
  split; [exact Hf|]. split; [exact Hn|].
  intros Hbad. rewrite !in_app_iff in Hbad.
  destruct Hbad as [[Hb|Hb]|[Hb|[Hb|[Hb|Hb]]]].
  - rewrite Forall_forall in Fpre. destruct (Fpre _ Hb) as [ms Hms].
    discriminate.
  - rewrite Forall_forall in F2. specialize (F2 _ Hb). discriminate.
  - destruct Hb as [Hb|[]]. discriminate.
  - apply in_map_iff in Hb as (ii & Hb & _). discriminate.
  - rewrite Forall_forall in Fw. destruct (Fw _ Hb) as [Hw|(s & Hw & _)];
      discriminate.
  - destruct Hb as [Hb|[Hb|[]]]; discriminate.
Qed.

(** The scenario, evaluated: the labels, the two work items, two polls of
    the monitor, and then the state tag "w" for slot 1. *)
Example scenario_trace :
  iteration scenario_start scenario =
  Done false
    (mk (mk_info 3 2) 2 [[[0; 1]]; [[2; 0]]] 1 2
        [SetLabels [[[0; 1]]; [[2; 0]]]; Put (0, 0); Put (0, 1);
         Poll 1; Sleep 100; Poll 2; SetState 1 "w"])
    [].
Proof. vm_compute. reflexivity. Qed.

Lemma C1_claimed_slot_protocol_witness :
  exists cur w_e,
    In w_e scenario /\ py_getitem (slot_states w_e) cur = inl "e"%char.
Proof.
  destruct (C1_claimed_slot_protocol scenario_start scenario
              false _ [] scenario_trace)
    as (cur & w_e & _ & _ & _ & _ & _ & _ & _ & He & _).
  exists cur, w_e. exact He.
Defined.

(** C10.  Let the claimed slot hold [new_labels] and let [label_array] be
    the shared label array when the slot is processed.
    - Fewer label images than the array has entries: however the
      processing ends, the leading entries of the array hold the labels
      (as 16-bit values; unchanged when they fit), every remaining entry is
      background everywhere, the array keeps its length, and this write is
      the first thing the coordinator does for the slot, before any work
      item is put.
    - More label images than entries: [ValueError] is raised and the
      coordinator's state is untouched: nothing was written. *)
Theorem C10_label_array_padding st cur w o chunk new_labels :
  py_getitem (slot_chunks w) cur = inl chunk ->
  py_getitem (labels_list w) cur = inl new_labels ->
  ((length new_labels < length (label_array st))%nat ->
   let after := label_array (final (process st cur (w :: o))) in
   firstn (length new_labels) after = map astype_int16 new_labels /\
   (Forall fits_int16 new_labels ->
    firstn (length new_labels) after = new_labels) /\
   Forall all_background (skipn (length new_labels) after) /\
   length after = length (label_array st) /\
   exists evs, trace (final (process st cur (w :: o))) =
               (trace st ++ SetLabels after :: evs)%list) /\
  ((length (label_array st) < length new_labels)%nat ->
   process st cur (w :: o) =
   Raised (ValueError "labels_list contains bad size data!") st).
Proof.
  intros Hc Hl. split.
  - intros Hlt.
    assert (Hp : populate (label_array st) new_labels =
                 inl (map astype_int16 new_labels ++
                      map zero_like (skipn (length new_labels) (label_array st)))%list).
    { unfold populate.
      replace (length new_labels =? length (label_array st))%nat with false
        by (symmetry; apply Nat.eqb_neq; lia).
      replace (length new_labels <? length (label_array st))%nat with true
        by (symmetry; apply Nat.ltb_lt; lia).
      reflexivity. }
    destruct (process_populated st cur w o chunk new_labels _ Hc Hl Hp)
      as [E [evs T]].
    cbv zeta. rewrite E.
    assert (F : firstn (length new_labels)
                  (map astype_int16 new_labels ++
                   map zero_like (skipn (length new_labels) (label_array st))) =
                map astype_int16 new_labels).
    { rewrite firstn_app, length_map, Nat.sub_diag. simpl.
      rewrite app_nil_r. apply firstn_all2. rewrite length_map. lia. }
    split; [exact F|]. split; [|split; [|split]].
    + intros Hfit. rewrite F. rewrite <- (map_id new_labels) at 2.
      apply map_ext_in. intros l Hin. apply astype_int16_fits.
      rewrite Forall_forall in Hfit. apply Hfit. exact Hin.
    + rewrite skipn_app, length_map, Nat.sub_diag. simpl.
      rewrite skipn_all2 by (rewrite length_map; lia). simpl.
      apply Forall_map, Forall_forall. intros l _.
      apply zero_like_background.
    + rewrite length_app, !length_map, length_skipn. lia.
    + exists evs. exact T.
  - intros Hgt. unfold process. rewrite Hc, Hl. unfold populate.
    replace (length new_labels =? length (label_array st))%nat with false
      by (symmetry; apply Nat.eqb_neq; lia).
    replace (length new_labels <? length (label_array st))%nat with false
      by (symmetry; apply Nat.ltb_ge; lia).
    reflexivity.
Qed.

Lemma C10_label_array_padding_witness :
  let st := init (mk_info 3 2) 2 [[[7; 7]]; [[7; 7]]] in
  let w := mk_world ["e"%char] [1] [[[[0; 3]]]] [0] 0 in
  Forall all_background
    (skipn 1 (label_array (final (process st 0 [w])))) /\
  process st 0 [mk_world ["e"%char] [1] [[[[1]]; [[2]]; [[3]]]] [0] 0] =
  Raised (ValueError "labels_list contains bad size data!") st.
Proof.
  split.
  - apply (proj1 (C10_label_array_padding
                    (init (mk_info 3 2) 2 [[[7; 7]]; [[7; 7]]]) 0
                    (mk_world ["e"%char] [1] [[[[0; 3]]]] [0] 0) []
                    1 [[[0; 3]]] eq_refl eq_refl)).
    simpl. lia.
  - apply (proj2 (C10_label_array_padding
                    (init (mk_info 3 2) 2 [[[7; 7]]; [[7; 7]]]) 0
                    (mk_world ["e"%char] [1] [[[[1]]; [[2]]; [[3]]]] [0] 0) []
                    1 [[[1]]; [[2]]; [[3]]] eq_refl eq_refl)).
    simpl. lia.
Defined.

(** The last, shorter chunk after a full one: the second entry of the label
    array no longer shows the labels of the previous chunk. *)
Example stale_labels_cleared :
  label_array
    (final (process (init (mk_info 3 2) 2 [[[5; 5]]; [[6; 6]]]) 0
                    [mk_world ["e"%char] [1] [[[[0; 3]]]] [0] 0])) =
  [[[0; 3]]; [[0; 0]]].
Proof. vm_compute. reflexivity. Qed.

End ManagerClaims.

(* ================================================================== *)
(** * The extraction worker *)
(* ================================================================== *)

Section ExtractorFacts.
Import Py Extractor.

Lemma nth_error_set_nth {A : Type} (a : list A) (n : nat) (x : A) :
  (n < length a)%nat -> nth_error (set_nth a n x) n = Some x.
Proof.
  revert n. induction a as [|y a IH]; intros [|n] H; simpl in *; try lia.
  - reflexivity.
  - apply IH. lia.
Qed.

Lemma length_set_nth {A : Type} (a : list A) (n : nat) (x : A) :
  length (set_nth a n x) = length a.
Proof.
  revert n. induction a as [|y a IH]; intros [|n]; simpl; try reflexivity.
  rewrite IH. reflexivity.
Qed.

Lemma np_sum_set_nth (a : list Z) (n : nat) (old x : Z) :
  nth_error a n = Some old ->
  np_sum (set_nth a n x) = np_sum a - old + x.
Proof.
  revert n. induction a as [|y a IH]; intros [|n] H; simpl in *;
    try discriminate.
  - inversion H; subst. lia.
  - rewrite (IH n H). lia.
Qed.

Lemma py_getitem_inrange {A : Type} (a : list A) (i : Z) :
  0 <= i < Z.of_nat (length a) ->
  exists x, nth_error a (Z.to_nat i) = Some x /\ py_getitem a i = inl x.
Proof.
  intros H. unfold py_getitem.
  replace (i <? 0) with false by (symmetry; apply Z.ltb_ge; lia).
  replace (0 <=? i) with true by (symmetry; apply Z.leb_le; lia).
  replace (i <? Z.of_nat (length a)) with true by (symmetry; apply Z.ltb_lt; lia).
  simpl. destruct (nth_error a (Z.to_nat i)) as [x|] eqn:N; [eauto|].
  apply nth_error_None in N. lia.
Qed.

Lemma py_setitem_inrange {A : Type} (a : list A) (i : Z) (x : A) :
  0 <= i < Z.of_nat (length a) ->
  py_setitem a i x = inl (set_nth a (Z.to_nat i) x).
Proof.
  intros H. unfold py_setitem.
  replace (i <? 0) with false by (symmetry; apply Z.ltb_ge; lia).
  replace (0 <=? i) with true by (symmetry; apply Z.leb_le; lia).
  replace (i <? Z.of_nat (length a)) with true by (symmetry; apply Z.ltb_lt; lia).
  reflexivity.
Qed.

Context {feature : Type}.
Variable process_label : label -> Z -> result (option (events feature)).
Implicit Types (w : worker feature).

(** Counting an item adds one to the worker's own monitor entry. *)
Lemma count_item_counts w :
  0 <= worker_index w < Z.of_nat (length (worker_monitor w)) ->
  exists n,
    py_getitem (worker_monitor w) (worker_index w) = inl n /\
    count_item w =
    (Running,
     with_monitor w (set_nth (worker_monitor w) (Z.to_nat (worker_index w))
                             (n + 1))).
Proof.
  intros H. unfold count_item.
  destruct (py_getitem_inrange _ _ H) as (n & _ & ->).
  rewrite py_setitem_inrange by exact H. eauto.
Qed.

(** C2 (as the code has it).  When the processing of a work item raises,
    the exception is caught and logged and the worker keeps running;
    nothing is put on the event queue and [feat_nevents] is left alone;
    but the worker's entry of the worker monitor is incremented, as it is
    for every item, so the sum that the coordinator waits for advances by
    one. *)
Theorem C2_failed_item_is_counted w e :
  item_raises process_label w e ->
  0 <= worker_index w < Z.of_nat (length (worker_monitor w)) ->
  exists n,
    py_getitem (worker_monitor w) (worker_index w) = inl n /\
    fst (turn process_label w) = Running /\
    log (snd (turn process_label w)) = (log w ++ [LogError e])%list /\
    raw_queue (snd (turn process_label w)) = tl (raw_queue w) /\
    event_queue (snd (turn process_label w)) = event_queue w /\
    feat_nevents (snd (turn process_label w)) = feat_nevents w /\
    py_getitem (worker_monitor (snd (turn process_label w))) (worker_index w)
      = inl (n + 1) /\
    np_sum (worker_monitor (snd (turn process_label w))) =
      np_sum (worker_monitor w) + 1.
Proof.
  unfold item_raises, turn. intros Hr Hi.
  destruct (raw_queue w) as [|[chunk_index label_index] q]; [destruct Hr|].
  cbn [label_array take]. rewrite Hr.
  destruct (count_item_counts
              (logged (take w q) (LogError e)) Hi) as (n & G & C).
  simpl in G. rewrite C. exists n. simpl.
  destruct (py_getitem_inrange _ _ Hi) as (n' & N & G').
  assert (n' = n) by congruence. subst n'.
  repeat split; try assumption.
  - unfold py_getitem. rewrite length_set_nth.
    replace (worker_index w <? 0) with false by (symmetry; apply Z.ltb_ge; lia).
    replace (0 <=? worker_index w) with true by (symmetry; apply Z.leb_le; lia).
    replace (worker_index w <? Z.of_nat (length (worker_monitor w)))
      with true by (symmetry; apply Z.ltb_lt; lia).
    simpl. rewrite nth_error_set_nth by lia. reflexivity.
  - rewrite (np_sum_set_nth _ _ n _ N). lia.
Qed.

End ExtractorFacts.

Section ExtractorClaims.
Import Py Extractor.

(** C2, as stated, fails: the extraction of the only queued item raises,
    and the worker's entry of the worker monitor goes from 5 to 6. *)
Lemma C2_monitor_is_updated :
  item_raises failing_extraction failing_worker
    (ValueError "zero-size array to reduction operation") /\
  event_queue (snd (turn failing_extraction failing_worker)) = [] /\
  feat_nevents (snd (turn failing_extraction failing_worker)) = [-1; -1; -1] /\
  worker_monitor failing_worker = [5] /\
  worker_monitor (snd (turn failing_extraction failing_worker)) = [6] /\
  worker_monitor (snd (turn failing_extraction failing_worker))
    <> worker_monitor failing_worker.
Proof. vm_compute. repeat split. discriminate. Qed.

Lemma C2_failed_item_is_counted_witness :
  np_sum (worker_monitor (snd (turn failing_extraction failing_worker))) =
  np_sum (worker_monitor failing_worker) + 1.
Proof.
  destruct (C2_failed_item_is_counted failing_extraction failing_worker
              (ValueError "zero-size array to reduction operation")
              eq_refl ltac:(simpl; lia))
    as (n & _ & _ & _ & _ & _ & _ & _ & H).
  exact H.
Defined.

End ExtractorClaims.

(* ================================================================== *)
(** * Sparse median background: sorting and order statistics *)
(* ================================================================== *)

Section SortFacts.
Import Py SparseMed.

Lemma insert_perm x l : Permutation (x :: l) (insert x l).
Proof.
  induction l as [|y l IH]; simpl.
  - apply Permutation_refl.
  - destruct (x <=? y).
    + apply Permutation_refl.
    + eapply perm_trans; [apply perm_swap|].
      apply perm_skip. exact IH.
Qed.

Lemma sort_perm l : Permutation l (sort l).
Proof.
  induction l as [|x l IH]; simpl.
  - apply perm_nil.
  - eapply perm_trans; [apply perm_skip; exact IH|apply insert_perm].
Qed.

Lemma length_sort l : length (sort l) = length l.
Proof. symmetry. apply Permutation_length, sort_perm. Qed.

Lemma insert_sorted x l :
  StronglySorted Z.le l -> StronglySorted Z.le (insert x l).
Proof.
  induction 1 as [|y l S IH F]; simpl.
  - constructor; constructor.
  - destruct (Z.leb_spec x y) as [L|L].
    + constructor; [constructor; assumption|].
      constructor; [exact L|].
      eapply Forall_impl; [|exact F]. intros z Hz. lia.
    + constructor; [exact IH|].
      eapply Permutation_Forall; [apply insert_perm|].
      constructor; [lia|exact F].
Qed.

Lemma sort_sorted l : StronglySorted Z.le (sort l).
Proof.
  induction l as [|x l IH]; simpl.
  - constructor.
  - apply insert_sorted. exact IH.
Qed.

Lemma count_below_perm m l l' :
  Permutation l l' -> count_below m l = count_below m l'.
Proof.
  unfold count_below. induction 1; simpl.
  - reflexivity.
  - destruct (x <? m); simpl; congruence.
  - destruct (x <? m), (y <? m); reflexivity.
  - congruence.
Qed.

Lemma count_above_perm m l l' :
  Permutation l l' -> count_above m l = count_above m l'.
Proof.
  unfold count_above. induction 1; simpl.
  - reflexivity.
  - destruct (m <? x); simpl; congruence.
  - destruct (m <? x), (m <? y); reflexivity.
  - congruence.
Qed.

Lemma count_below_le m l : (count_below m l <= length l)%nat.
Proof. unfold count_below. apply filter_length_le. Qed.

Lemma count_above_le m l : (count_above m l <= length l)%nat.
Proof. unfold count_above. apply filter_length_le. Qed.

Lemma count_below_none m l : Forall (Z.le m) l -> count_below m l = 0%nat.
Proof.
  unfold count_below. induction 1 as [|x l H F IH]; simpl; [reflexivity|].
  destruct (Z.ltb_spec x m); [lia|exact IH].
Qed.

Lemma count_above_none m l :
  Forall (fun x => x <= m) l -> count_above m l = 0%nat.
Proof.
  unfold count_above. induction 1 as [|x l H F IH]; simpl; [reflexivity|].
  destruct (Z.ltb_spec m x); [lia|exact IH].
Qed.

(** In a sorted list at most [k] values lie below the one at position [k],
    and at most [n - 1 - k] above. *)
Lemma sorted_counts s k :
  StronglySorted Z.le s -> (k < length s)%nat ->
  (count_below (nth k s 0%Z) s <= k)%nat /\
  (count_above (nth k s 0%Z) s <= length s - 1 - k)%nat.
Proof.
  intros S. revert k. induction S as [|x s S IH F]; intros k Hk; simpl in Hk.
  - lia.
  - destruct k as [|k]; simpl nth.
    + split.
      * unfold count_below. simpl. rewrite Z.ltb_irrefl.
        fold (count_below x s). rewrite count_below_none by exact F. lia.
      * unfold count_above. simpl. rewrite Z.ltb_irrefl.
        fold (count_above x s). pose proof (count_above_le x s). simpl. lia.
    + destruct (IH k ltac:(lia)) as [B A].
      assert (Hx : x <= nth k s 0).
      { rewrite Forall_forall in F. apply F. apply nth_In. lia. }
      split.
      * unfold count_below in *. simpl.
        destruct (x <? nth k s 0); simpl; lia.
      * unfold count_above in *. simpl.
        destruct (Z.ltb_spec (nth k s 0) x); [lia|]. simpl. lia.
Qed.

(** For an odd number of values, the value of rank [n / 2] is the median. *)
Lemma kth_smallest_is_median l :
  Nat.odd (length l) = true ->
  is_median (kth_smallest (Z.of_nat (length l) / 2) l) l.
Proof.
  intros Hodd. unfold kth_smallest.
  assert (Hn : (length l = 2 * (length l / 2) + 1)%nat).
  { apply Nat.odd_spec in Hodd. destruct Hodd as [h Hh].
    assert (length l / 2 = h)%nat
      by (rewrite Hh, Nat.mul_comm, Nat.div_add_l by lia; simpl; lia).
    lia. }
  assert (Hk : Z.to_nat (Z.of_nat (length l) / 2) = (length l / 2)%nat).
  { rewrite <- (Nat2Z.id (length l / 2)). f_equal.
    rewrite Nat2Z.inj_div. reflexivity. }
  rewrite Hk.
  pose proof (sort_perm l) as P.
  destruct (sorted_counts (sort l) (length l / 2) (sort_sorted l)
              ltac:(rewrite length_sort; lia)) as [B A].
  rewrite length_sort in A.
  split; [|split].
  - eapply Permutation_in; [apply Permutation_sym; exact P|].
    apply nth_In. rewrite length_sort. lia.
  - rewrite (count_below_perm _ _ _ P). lia.
  - rewrite (count_above_perm _ _ _ P). lia.
Qed.

(** ... and it is the median as the middle of the sorted values. *)
Lemma kth_smallest_odd_median l :
  Nat.odd (length l) = true ->
  median l = inject_Z (kth_smallest (Z.of_nat (length l) / 2) l).
Proof.
  intros Hodd. unfold median, kth_smallest. rewrite Hodd.
  rewrite <- (Nat2Z.id (length l / 2)) at 1.
  rewrite Nat2Z.inj_div. reflexivity.
Qed.

End SortFacts.

(* ================================================================== *)
(** * Sparse median background: window, jobs and workers *)
(* ================================================================== *)

Section SparseMedFacts.
Import Py SparseMed.

Lemma Qltb_true x y : Qltb x y = true -> (x < y)%Q.
Proof.
  unfold Qltb. intros H. apply negb_true_iff in H.
  apply Qnot_le_lt. intros L. apply Qle_bool_iff in L. congruence.
Qed.

Lemma Qltb_false x y : Qltb x y = false -> (y <= x)%Q.
Proof.
  unfold Qltb. intros H. apply negb_false_iff in H.
  apply Qle_bool_iff. exact H.
Qed.

(** [argmin_from] continues a scan of [L = pre ++ l] that has found [b] at
    [best_i] to be the first smallest value of [pre]. *)
Lemma argmin_from_spec l :
  forall (pre : list Q) (best_i : nat) (b : Q),
    (best_i < length pre)%nat ->
    b = nth best_i (pre ++ l) 0%Q ->
    (forall j, (j < length pre)%nat -> (b <= nth j (pre ++ l) 0)%Q) ->
    (forall j, (j < best_i)%nat -> (b < nth j (pre ++ l) 0)%Q) ->
    let r := argmin_from best_i b (length pre) l in
    (r < length (pre ++ l))%nat /\
    (forall j, (j < length (pre ++ l))%nat ->
               (nth r (pre ++ l) 0 <= nth j (pre ++ l) 0)%Q) /\
    (forall j, (j < r)%nat -> (nth r (pre ++ l) 0 < nth j (pre ++ l) 0)%Q).
Proof.
  induction l as [|x l IH]; intros pre best_i b Hbi Hb Hmin Hfirst; simpl.
  - rewrite app_nil_r in *. rewrite <- Hb.
    split; [exact Hbi|]. split; assumption.
  - assert (E : (pre ++ x :: l = (pre ++ [x]) ++ l)%list)
      by (rewrite <- app_assoc; reflexivity).
    assert (Hx : nth (length pre) (pre ++ x :: l) 0%Q = x)
      by apply nth_middle.
    replace (S (length pre)) with (length (pre ++ [x]))
      by (rewrite length_app; simpl; lia).
    destruct (Qltb x b) eqn:C.
    + apply Qltb_true in C. rewrite E. apply IH.
      * rewrite length_app. simpl. lia.
      * rewrite <- E. symmetry. exact Hx.
      * intros j Hj. rewrite <- E. rewrite length_app in Hj. simpl in Hj.
        destruct (Nat.eq_dec j (length pre)) as [->|Hne].
        -- rewrite Hx. apply Qle_refl.
        -- apply Qlt_le_weak. eapply Qlt_le_trans; [exact C|].
           apply Hmin. lia.
      * intros j Hj. rewrite <- E. eapply Qlt_le_trans; [exact C|].
        apply Hmin. exact Hj.
    + apply Qltb_false in C. rewrite E. apply IH.
      * rewrite length_app. simpl. lia.
      * rewrite <- E. exact Hb.
      * intros j Hj. rewrite <- E. rewrite length_app in Hj. simpl in Hj.
        destruct (Nat.eq_dec j (length pre)) as [->|Hne].
        -- rewrite Hx. exact C.
        -- apply Hmin. lia.
      * intros j Hj. rewrite <- E. apply Hfirst. exact Hj.
Qed.

(** [np.argmin] returns the first position of a smallest value. *)
Lemma argmin_spec (l : list Q) :
  l <> [] ->
  exists r : nat,
    argmin l = inl (Z.of_nat r) /\
    (r < length l)%nat /\
    (forall j, (j < length l)%nat -> (nth r l 0 <= nth j l 0)%Q) /\
    (forall j, (j < r)%nat -> (nth r l 0 < nth j l 0)%Q).
Proof.
  destruct l as [|x l]; [congruence|]. intros _. simpl.
  exists (argmin_from 0 x 1 l). split; [reflexivity|].
  apply (argmin_from_spec l [x] 0%nat x).
  - simpl. lia.
  - reflexivity.
  - intros j Hj. simpl in Hj. assert (j = 0%nat) by lia. subst.
    apply Qle_refl.
  - intros j Hj. lia.
Qed.

Lemma jobs_from_cover fuel :
  forall start smax p,
    start <= p < smax -> (Z.to_nat (smax - start) <= fuel)%nat ->
    exists a, In (a, a + 500) (jobs_from fuel start smax) /\ a <= p < a + 500.
Proof.
  induction fuel as [|fuel IH]; intros start smax p Hp Hf; [lia|].
  simpl. replace (start <? smax) with true by (symmetry; apply Z.ltb_lt; lia).
  destruct (Z_lt_dec p (start + 500)) as [L|L].
  - exists start. split; [left; reflexivity|lia].
  - destruct (IH (start + 500) smax p ltac:(lia) ltac:(lia)) as (a & Hin & Ha).
    exists a. split; [right; exact Hin|exact Ha].
Qed.

Lemma jobs_from_wf fuel :
  forall start smax job,
    0 <= start -> In job (jobs_from fuel start smax) ->
    0 <= fst job <= snd job.
Proof.
  induction fuel as [|fuel IH]; intros start smax job Hs Hin; [destruct Hin|].
  simpl in Hin. destruct (start <? smax); [|destruct Hin].
  destruct Hin as [<-|Hin]; [simpl; lia|].
  apply (IH (start + 500) smax); [lia|exact Hin].
Qed.

Lemma nth_slice (l : list Z) (a b : Z) (j : nat) :
  0 <= a -> a + Z.of_nat j < b -> a + Z.of_nat j < Z.of_nat (length l) ->
  nth j (slice l a b) 0 = nth (Z.to_nat a + j) l 0.
Proof.
  intros Ha Hb Hl.
  apply nth_error_nth. rewrite nth_error_slice by assumption.
  apply nth_error_nth'. lia.
Qed.

Lemma length_slice_nonneg {A : Type} (l : list A) (a b : Z) :
  0 <= a <= b ->
  length (slice l a b) =
  Z.to_nat (Z.min b (Z.of_nat (length l)) - Z.min a (Z.of_nat (length l))).
Proof.
  intros H. unfold slice, clamp_index.
  assert (Ea : (a <? 0) = false) by (apply Z.ltb_ge; lia).
  assert (Eb : (b <? 0) = false) by (apply Z.ltb_ge; lia).
  rewrite Ea, Eb, length_firstn, length_skipn. lia.
Qed.

(** One job writes the rank values of its block of pixels and leaves the
    other pixels as they are. *)
Lemma median_job_spec rows out (a b : Z) (npix : nat) :
  rows <> [] ->
  Forall (fun row => length row = npix) rows ->
  length out = npix ->
  0 <= a <= b ->
  exists out',
    median_job rows out (a, b) = inl out' /\
    length out' = npix /\
    forall p, (p < npix)%nat ->
      nth p out' 0 =
      if (a <=? Z.of_nat p) && (Z.of_nat p <? b)
      then rank_value rows p else nth p out 0.
Proof.
  intros Hne Hrows Hout Hab.
  destruct rows as [|row0 rest]; [congruence|].
  unfold median_job. cbn [map].
  set (rows := row0 :: rest) in *.
  set (a' := Z.min a (Z.of_nat npix)).
  set (b' := Z.min b (Z.of_nat npix)).
  assert (Hrow0 : length row0 = npix) by (inversion Hrows; assumption).
  assert (Hw : length (slice row0 a b) = Z.to_nat (b' - a'))
    by (rewrite length_slice_nonneg, Hrow0 by lia; reflexivity).
  rewrite Hw.
  assert (Hvals :
    map (fun j => kth_smallest (Z.of_nat (length rows) / 2)
                    (column (slice row0 a b :: map (fun row => slice row a b) rest) j))
        (seq 0 (Z.to_nat (b' - a'))) =
    map (fun j => rank_value rows (Z.to_nat a' + j)) (seq 0 (Z.to_nat (b' - a')))).
  { apply map_ext_in. intros j Hj. apply in_seq in Hj.
    unfold rank_value. f_equal.
    change (slice row0 a b :: map (fun row => slice row a b) rest)
      with (map (fun row => slice row a b) rows).
    unfold column. rewrite map_map. apply map_ext_in. intros row Hrow.
    rewrite Forall_forall in Hrows. specialize (Hrows row Hrow).
    rewrite nth_slice by lia.
    f_equal. lia. }
  rewrite Hvals. unfold set_slice, clamp_index.
  assert (Ea : (a <? 0) = false) by (apply Z.ltb_ge; lia).
  assert (Eb : (b <? 0) = false) by (apply Z.ltb_ge; lia).
  rewrite Ea, Eb, Hout. fold a' b'.
  rewrite length_map, length_seq, Nat.eqb_refl.
  eexists. split; [reflexivity|]. split.
  - rewrite !length_app, length_firstn, length_map, length_seq, length_skipn.
    lia.
  - intros p Hp.
    destruct (Z_lt_dec (Z.of_nat p) a') as [L1|L1].
    + rewrite app_nth1 by (rewrite length_firstn; lia).
      rewrite nth_firstn.
      replace (p <? Z.to_nat a')%nat with true
        by (symmetry; apply Nat.ltb_lt; lia).
      replace (a <=? Z.of_nat p) with false
        by (symmetry; apply Z.leb_gt; lia).
      reflexivity.
    + rewrite app_nth2 by (rewrite length_firstn; lia).
      rewrite length_firstn.
      replace (Nat.min (Z.to_nat a') (length out)) with (Z.to_nat a') by lia.
      replace (a <=? Z.of_nat p) with true
        by (symmetry; apply Z.leb_le; lia).
      destruct (Z_lt_dec (Z.of_nat p) b') as [L2|L2].
      * replace (Z.of_nat p <? b) with true
          by (symmetry; apply Z.ltb_lt; lia).
        rewrite app_nth1 by (rewrite length_map, length_seq; lia).
        rewrite (nth_indep _ 0 ((fun j => rank_value rows (Z.to_nat a' + j)) 0%nat))
          by (rewrite length_map, length_seq; lia).
        rewrite (map_nth (fun j => rank_value rows (Z.to_nat a' + j))).
        rewrite seq_nth by lia.
        cbn [andb]. f_equal. lia.
      * replace (Z.of_nat p <? b) with false
          by (symmetry; apply Z.ltb_ge; lia).
        rewrite app_nth2 by (rewrite length_map, length_seq; lia).
        rewrite length_map, length_seq, nth_skipn. cbn [andb].
        f_equal. lia.
Qed.

(** Any sequence of jobs: a pixel covered by some job holds its rank value
    afterwards, every other pixel is unchanged. *)
Lemma run_jobs_spec rows (npix : nat) (order : list (Z * Z)) :
  rows <> [] ->
  Forall (fun row => length row = npix) rows ->
  Forall (fun job => 0 <= fst job <= snd job) order ->
  forall out, length out = npix ->
  exists out',
    run_jobs rows out order = inl out' /\
    length out' = npix /\
    forall p, (p < npix)%nat ->
      nth p out' 0 =
      if existsb (fun job => (fst job <=? Z.of_nat p) && (Z.of_nat p <? snd job))
                 order
      then rank_value rows p else nth p out 0.
Proof.
  intros Hne Hrows Hjobs.
  induction Hjobs as [|[a b] order Hj Hjobs IH]; intros out Hout;
    cbn [run_jobs existsb fst snd].
  - exists out. repeat split; assumption.
  - destruct (median_job_spec rows out a b npix Hne Hrows Hout Hj)
      as (out1 & E1 & L1 & P1).
    rewrite E1. cbn [bind].
    destruct (IH out1 L1) as (out' & E' & L' & P').
    exists out'. split; [exact E'|]. split; [exact L'|].
    intros p Hp. rewrite (P' p Hp), (P1 p Hp).
    destruct (existsb _ order); [rewrite orb_true_r; reflexivity|].
    rewrite orb_false_r. reflexivity.
Qed.

End SparseMedFacts.

Section SparseMedClaims.
Import Py SparseMed.

Lemma slice_window {A : Type} (l : list A) (start k : Z) :
  0 <= start -> 0 <= k -> start + k <= Z.of_nat (length l) ->
  slice l start (start + k) = firstn (Z.to_nat k) (skipn (Z.to_nat start) l).
Proof.
  intros Hs Hk Hl. unfold slice, clamp_index.
  replace (start <? 0) with false by (symmetry; apply Z.ltb_ge; lia).
  replace (start + k <? 0) with false by (symmetry; apply Z.ltb_ge; lia).
  f_equal; [|f_equal]; lia.
Qed.

Lemma window_spec bg second :
  1 <= kernel_size bg <= event_count bg ->
  length (time bg) = length (input_data bg) ->
  exists closest : nat,
    (closest < length (time bg))%nat /\
    (forall j, (j < length (time bg))%nat ->
       (Qabs (second - nth closest (time bg) 0)
        <= Qabs (second - nth j (time bg) 0))%Q) /\
    (forall j, (j < closest)%nat ->
       (Qabs (second - nth closest (time bg) 0)
        < Qabs (second - nth j (time bg) 0))%Q) /\
    window bg second =
      inl (Z.min (Z.of_nat closest) (event_count bg - kernel_size bg),
           Z.min (Z.of_nat closest) (event_count bg - kernel_size bg)
           + kernel_size bg).
Proof.
  intros Hk Ht. unfold event_count in *.
  set (dist := map (fun t => Qabs (second - t)) (time bg)).
  assert (Hne : dist <> []).
  { unfold dist. destruct (time bg); [simpl in Ht; lia|discriminate]. }
  destruct (argmin_spec dist Hne) as (r & E & Hr & Hmin & Hfirst).
  assert (Hd : forall j, (j < length (time bg))%nat ->
                nth j dist 0%Q = Qabs (second - nth j (time bg) 0%Q)).
  { intros j Hj. unfold dist.
    rewrite (nth_indep _ 0%Q ((fun t => Qabs (second - t)) 0%Q))
      by (rewrite length_map; exact Hj).
    apply (map_nth (fun t => Qabs (second - t))). }
  unfold dist in Hr. rewrite length_map in Hr.
  exists r. split; [exact Hr|]. split; [|split].
  - intros j Hj. rewrite <- !Hd by assumption. apply Hmin.
    unfold dist. rewrite length_map. exact Hj.
  - intros j Hj. rewrite <- !Hd by lia. apply Hfirst. exact Hj.
  - unfold window. fold dist. rewrite E. cbn [bind]. unfold event_count.
    destruct (Z.geb_spec (Z.of_nat r + kernel_size bg)
                         (Z.of_nat (length (input_data bg)))) as [G|G].
    + replace (Z.max 0 (Z.of_nat (length (input_data bg)) - kernel_size bg))
        with (Z.of_nat (length (input_data bg)) - kernel_size bg) by lia.
      replace (Z.min (Z.of_nat r)
                 (Z.of_nat (length (input_data bg)) - kernel_size bg))
        with (Z.of_nat (length (input_data bg)) - kernel_size bg) by lia.
      replace (Z.of_nat (length (input_data bg))
               - (Z.of_nat (length (input_data bg)) - kernel_size bg)
               =? kernel_size bg) with true
        by (symmetry; apply Z.eqb_eq; lia).
      f_equal. f_equal. lia.
    + replace (Z.min (Z.of_nat r)
                 (Z.of_nat (length (input_data bg)) - kernel_size bg))
        with (Z.of_nat r) by lia.
      replace (Z.of_nat r + kernel_size bg - Z.of_nat r =? kernel_size bg)
        with true by (symmetry; apply Z.eqb_eq; lia).
      reflexivity.
Qed.

(** C5 (as the code has it).  Let [1 <= kernel_size <= number of frames].
    For a time stamp [second] the window starts at the first frame whose
    time is closest to [second], moved back so that it ends with the last
    frame at the latest, and holds exactly [kernel_size] frames.  Whatever
    the order in which the workers carry out the jobs of 500 pixels, the
    image that [process_second] produces holds in every pixel the value of
    rank [kernel_size // 2] (counting from 0) among the values of that
    pixel in the window.  For an odd [kernel_size] that value is the median;
    for an even one it is the upper of the two middle values. *)
Theorem C5_window_rank_value bg out0 second order :
  1 <= kernel_size bg <= event_count bg ->
  length (time bg) = length (input_data bg) ->
  Forall (fun f => Z.of_nat (length f) = fst (image_shape bg) * snd (image_shape bg))
         (input_data bg) ->
  Z.of_nat (length out0) = fst (image_shape bg) * snd (image_shape bg) ->
  Permutation (jobs (fst (image_shape bg) * snd (image_shape bg))) order ->
  exists closest : nat,
    (closest < length (time bg))%nat /\
    (forall j, (j < length (time bg))%nat ->
       (Qabs (second - nth closest (time bg) 0)
        <= Qabs (second - nth j (time bg) 0))%Q) /\
    (forall j, (j < closest)%nat ->
       (Qabs (second - nth closest (time bg) 0)
        < Qabs (second - nth j (time bg) 0))%Q) /\
    let start := Z.min (Z.of_nat closest) (event_count bg - kernel_size bg) in
    let frames := firstn (Z.to_nat (kernel_size bg))
                         (skipn (Z.to_nat start) (input_data bg)) in
    window bg second = inl (start, start + kernel_size bg) /\
    length frames = Z.to_nat (kernel_size bg) /\
    process_second bg out0 second order =
      inl (map (rank_value frames) (seq 0 (length out0))) /\
    (Nat.odd (Z.to_nat (kernel_size bg)) = true ->
     forall p, (p < length out0)%nat ->
       is_median (rank_value frames p) (column frames p) /\
       median (column frames p) = inject_Z (rank_value frames p)).
Proof.
  intros Hk Ht Hshape Hout Hperm.
  destruct (window_spec bg second Hk Ht) as (r & Hr & Hmin & Hfirst & W).
  exists r. split; [exact Hr|]. split; [exact Hmin|]. split; [exact Hfirst|].
  cbv zeta.
  set (start := Z.min (Z.of_nat r) (event_count bg - kernel_size bg)) in *.
  set (frames := firstn (Z.to_nat (kernel_size bg))
                        (skipn (Z.to_nat start) (input_data bg))).
  assert (Hstart : 0 <= start /\ start + kernel_size bg <= event_count bg)
    by (unfold start; lia).
  assert (Hlen : length frames = Z.to_nat (kernel_size bg)).
  { unfold frames. rewrite length_firstn, length_skipn.
    unfold event_count in *. lia. }
  split; [exact W|]. split; [exact Hlen|].
  assert (Hrows : Forall (fun row => length row = length out0) frames).
  { apply Forall_forall. intros f Hf. unfold frames in Hf.
    apply in_firstn, in_skipn in Hf.
    rewrite Forall_forall in Hshape. specialize (Hshape f Hf). lia. }
  assert (Hne : frames <> []).
  { intros E. rewrite E in Hlen. simpl in Hlen. lia. }
  assert (Hwf : Forall (fun job => 0 <= fst job <= snd job) order).
  { apply Forall_forall. intros job Hj.
    assert (Hj' : In job (jobs (fst (image_shape bg) * snd (image_shape bg))))
      by (eapply Permutation_in; [apply Permutation_sym; exact Hperm|exact Hj]).
    apply (jobs_from_wf _ _ _ _ (Z.le_refl 0) Hj'). }
  split.
  - unfold process_second. rewrite W. cbn [bind].
    rewrite slice_window by (unfold event_count in *; lia).
    fold frames.
    destruct (run_jobs_spec frames (length out0) order Hne Hrows Hwf out0 eq_refl)
      as (out' & E & L & P).
    rewrite E. f_equal.
    apply (nth_ext _ _ 0 0).
    + rewrite length_map, length_seq. exact L.
    + intros p Hp. rewrite L in Hp. rewrite (P p Hp).
      rewrite (nth_indep (map (rank_value frames) (seq 0 (length out0)))
                 0 (rank_value frames 0%nat))
        by (rewrite length_map, length_seq; exact Hp).
      rewrite (map_nth (rank_value frames)), seq_nth by exact Hp. simpl.
      replace (existsb _ order) with true; [reflexivity|].
      symmetry. apply existsb_exists.
      destruct (jobs_from_cover
                  (Z.to_nat (fst (image_shape bg) * snd (image_shape bg)))
                  0 (fst (image_shape bg) * snd (image_shape bg))
                  (Z.of_nat p) ltac:(lia) ltac:(lia)) as (a & Hin & Ha).
      exists (a, a + 500). split.
      * eapply Permutation_in; [exact Hperm|exact Hin].
      * simpl. apply andb_true_iff. split; [apply Z.leb_le|apply Z.ltb_lt]; lia.
  - intros Hodd p Hp.
    assert (Hc : length (column frames p) = @length (list Z) frames)
      by (unfold column; apply length_map).
    unfold rank_value. rewrite <- Hc.
    assert (Hodd' : Nat.odd (length (column frames p)) = true)
      by (rewrite Hc; change (@length (list Z) frames) with (length frames);
          rewrite Hlen; exact Hodd).
    split.
    + apply kth_smallest_is_median. exact Hodd'.
    + apply kth_smallest_odd_median. exact Hodd'.
Qed.

(** C5, as stated, fails for an even kernel: for the two one-pixel frames
    0 and 10 the code produces 10, and the median of 0 and 10 is 5. *)
Lemma C5_even_kernel_not_median :
  process_second two_frames [0] 0%Q (jobs 1) = inl [10] /\
  (median (column (input_data two_frames) 0) == 5)%Q /\
  ~ (inject_Z 10 == median (column (input_data two_frames) 0))%Q.
Proof.
  split; [vm_compute; reflexivity|].
  split; [vm_compute; reflexivity|].
  vm_compute. discriminate.
Qed.

Lemma C5_window_rank_value_witness :
  let bg := mk [[0; 3]; [10; 1]; [4; 4]; [9; 9]] (1, 2) 3 1
               [0; 1; 2; 3]%Q [0; 1; 2]%Q in
  exists closest : nat,
    window bg 3%Q
    = inl (Z.min (Z.of_nat closest) 1, Z.min (Z.of_nat closest) 1 + 3).
Proof.
  destruct (C5_window_rank_value
              (mk [[0; 3]; [10; 1]; [4; 4]; [9; 9]] (1, 2) 3 1
                  [0; 1; 2; 3]%Q [0; 1; 2]%Q)
              [0; 0] 3%Q (jobs 2)
              ltac:(vm_compute; split; discriminate) eq_refl
              ltac:(repeat constructor) eq_refl (Permutation_refl _))
    as (closest & _ & _ & _ & W & _).
  exists closest. exact W.
Defined.

(** The same input, evaluated: the window is clamped to frames 1-3 and the
    result holds the middle values. *)
Example process_second_clamped :
  let bg := mk [[0; 3]; [10; 1]; [4; 4]; [9; 9]] (1, 2) 3 1
               [0; 1; 2; 3]%Q [0; 1; 2]%Q in
  window bg 3%Q = inl (1, 4) /\
  process_second bg [0; 0] 3%Q (jobs 2) = inl [9; 4].
Proof. vm_compute. split; reflexivity. Qed.

(** C6 (evaluation).  Ten frames, one per second, a background image every
    4 seconds, all three images (times 0, 4, 8) kept.  The code gives the
    frames at 0 s and 1 s the image of time 4 and every later frame the
    image of time 8; the closest images are 0, 0, 0, 1, 1, 1, 1, 2, 2, 2.
    Only the frames from second 7 on (among them the one after the last
    image) get the image that the documentation promises. *)
Theorem C6_assignment_is_one_entry_late :
  assign ten_seconds 4 [0; 4; 8]%Q = inl [1; 1; 2; 2; 2; 2; 2; 2; 2; 2] /\
  map (closest_entry [0; 4; 8]%Q) ten_seconds
    = map inl [0; 0; 0; 1; 1; 1; 1; 2; 2; 2] /\
  assign ten_seconds 4 [0; 4; 8]%Q
    <> inl [0; 0; 0; 1; 1; 1; 1; 2; 2; 2].
Proof.
  split; [vm_compute; reflexivity|].
  split; [vm_compute; reflexivity|].
  vm_compute. discriminate.
Qed.

End SparseMedClaims.

(* ================================================================== *)
(** * Pipeline identifiers of the event extractor *)
(* ================================================================== *)

Section PpidClaims.
Import Py Ppid.
Local Open Scope string_scope.

(** The functions modelled from the spec reproduce the tables of
    [test_unique_prefix_ordered] and [test_unique_prefix_unordered]. *)
Example unique_prefix_tests :
  get_unique_prefix ["camera"; "campus"] = ["came"; "camp"] /\
  get_unique_prefix ["cole"; "coleman"; "colemine"] = ["cole"; "colema"; "colemi"] /\
  get_unique_prefix ["an"; "andersrum"; "and"; "anderson"; "ant"]
    = ["an"; "andersr"; "and"; "anderso"; "ant"] /\
  get_unique_prefix ["brightness"; "haralick"] = ["b"; "h"].
Proof. vm_compute. repeat split. Qed.

Lemma fill_extract kw :
  fill_defaults extract_defaults kw =
  [("brightness", get kw "brightness" true); ("haralick", get kw "haralick" true)].
Proof. reflexivity. Qed.

Lemma segments_extract kw :
  segments extract_defaults kw =
  ["b=" ++ show_bool (get kw "brightness" true);
   "h=" ++ show_bool (get kw "haralick" true)].
Proof. reflexivity. Qed.

(** C9.  For every keyword mapping [kw] given to the extractor:
    - decoding the encoded identifier gives the declared keywords with the
      values of [kw] where present and the defaults elsewhere;
    - the same mapping results when the [abbrev=value] segments are given
      in any order;
    - when trailing segments are left out, the keywords they stood for take
      their declared defaults;
    - an identifier whose leading code is not "legacy" is refused with an
      error. *)
Theorem C9_extractor_ppid_roundtrip (kw : kwargs) :
  get_ppkw_from_ppid (get_ppid_from_ppkw kw)
    = inl (fill_defaults extract_defaults kw) /\
  (forall segs,
     Permutation (segments extract_defaults kw) segs ->
     get_ppkw_from_ppid (join ":" [get_ppid_code; join "^" segs])
       = inl (fill_defaults extract_defaults kw)) /\
  (forall n,
     get_ppkw_from_ppid
       (join ":" [get_ppid_code;
                  join "^" (firstn n (segments extract_defaults kw))])
       = inl (fill_defaults extract_defaults
                (firstn n (fill_defaults extract_defaults kw)))) /\
  (forall s,
     hd "" (split_on ":" s) <> get_ppid_code ->
     exists e, get_ppkw_from_ppid s = inr e).
Proof.
  unfold get_ppid_from_ppkw, kwargs_to_ppid.
  rewrite segments_extract, fill_extract.
  generalize (get kw "brightness" true) as b.
  generalize (get kw "haralick" true) as h.
  intros h b. split; [|split; [|split]].
  - destruct b, h; vm_compute; reflexivity.
  - intros segs P. apply Permutation_length_2_inv in P as [->| ->];
      destruct b, h; vm_compute; reflexivity.
  - intros n. destruct n as [|[|n]].
    + destruct b, h; vm_compute; reflexivity.
    + destruct b, h; vm_compute; reflexivity.
    + cbn [firstn]. rewrite !firstn_nil.
      destruct b, h; vm_compute; reflexivity.
  - intros s Hs. unfold get_ppkw_from_ppid.
    destruct (split_on ":" s) as [|code [|rest [|x l]]]; simpl in Hs; eauto.
    apply String.eqb_neq in Hs. rewrite Hs. simpl. eauto.
Qed.

Lemma C9_extractor_ppid_roundtrip_witness :
  get_ppkw_from_ppid "legacy:h=0^b=1"
    = inl [("brightness", true); ("haralick", false)] /\
  exists e, get_ppkw_from_ppid "thresh:b=1^h=1" = inr e.
Proof.
  destruct (C9_extractor_ppid_roundtrip [("haralick", false)])
    as (_ & Hperm & _ & Hcode).
  split.
  - apply (Hperm ["h=0"; "b=1"]). apply perm_swap.
  - apply Hcode. vm_compute. discriminate.
Defined.

(** The identifiers of [test_compute_pipeline_hash] and of the docstring. *)
Example extractor_ppid_examples :
  get_ppid_from_ppkw [] = "legacy:b=1^h=1" /\
  get_ppid_from_ppkw [("haralick", false)] = "legacy:b=1^h=0" /\
  get_ppkw_from_ppid "legacy:b=1^h=0"
    = inl [("brightness", true); ("haralick", false)].
Proof. vm_compute. repeat split. Qed.

End PpidClaims.

(* ================================================================== *)
(** * [HDF5ImageCache]: edge behaviour *)
(* ================================================================== *)

Section CacheEdges.
Import Py Cache.
Implicit Types (c : HDF5ImageCache) (k i : Z).

(** X1.  A cache built with [cache_size <= 0] never holds a chunk: every
    [get_chunk] inserts the chunk, evicts it at once and then fails to look
    it up, so it raises [KeyError] of the chunk index. *)
Theorem cache_without_capacity_raises ds cs n b c k :
  n <= 0 ->
  reachable (init ds cs n b) c ->
  cache c = [] /\
  fst (get_chunk c k) = inr (KeyError (show k)) /\
  cache (snd (get_chunk c k)) = [] /\
  loads (snd (get_chunk c k)) = (loads c ++ [k])%list.
Proof.
  intros Hn R.
  destruct (reachable_inv _ c (init_inv ds cs n b) R) as [I (_ & _ & _ & E4)].
  simpl in E4.
  assert (Hc : cache c = []).
  { pose proof (inv_fifo _ I) as F. rewrite E4 in F.
    replace (Z.to_nat n) with 0%nat in F by lia.
    unfold lastn in F. rewrite Nat.sub_0_r, skipn_all in F.
    unfold od_keys in F. destruct (cache c); [reflexivity|discriminate]. }
  split; [exact Hc|].
  rewrite get_chunk_miss by (rewrite Hc; reflexivity).
  unfold after_miss. rewrite Hc, E4. simpl.
  replace (1 >? n) with true by (symmetry; apply Z.gtb_lt; lia).
  simpl. repeat split.
Qed.

Lemma cache_without_capacity_raises_witness :
  fst (get_chunk (init (dataset 5) 2 0 false) 1) = inr (KeyError "1").
Proof.
  exact (proj1 (proj2 (cache_without_capacity_raises (dataset 5) 2 0 false
                         (init (dataset 5) 2 0 false) 1
                         ltac:(lia) (reach_init _)))).
Defined.

(** X2.  A read beyond the dataset is not free of effects: it raises, but
    before that it has loaded the (short or empty) chunk that the index
    falls into and made it resident, so it counts towards the capacity. *)
Theorem failed_read_loads_a_chunk ds cs n c i :
  1 <= cs -> 1 <= n -> Z.of_nat (length ds) <= i ->
  reachable (init ds cs n false) c ->
  od_contains (i / cs) (cache c) = false ->
  is_exn (fst (getitem c i)) = true /\
  loads (snd (getitem c i)) = (loads c ++ [i / cs])%list /\
  od_contains (i / cs) (cache (snd (getitem c i))) = true /\
  (Z.of_nat (length (materialize c (i / cs))) < cs).
Proof.
  intros Hcs Hn Hi R Habs.
  pose proof (getitem_out_of_range ds cs n c i Hcs Hn Hi R) as E.
  destruct (reachable_inv _ c (init_inv ds cs n false) R)
    as [I (E1 & E2 & E3 & E4)].
  simpl in E1, E2, E3, E4.
  split; [rewrite E; reflexivity|].
  assert (S : snd (getitem c i) = snd (get_chunk c (i / cs))).
  { unfold getitem.
    replace (i <? 0) with false by (symmetry; apply Z.ltb_ge; lia).
    rewrite E2. replace (cs =? 0) with false by (symmetry; apply Z.eqb_neq; lia).
    destruct (get_chunk c (i / cs)). reflexivity. }
  rewrite S.
  pose proof (get_chunk_inv c (i / cs) I) as I'.
  pose proof (get_chunk_value c (i / cs) I ltac:(lia)) as V.
  rewrite get_chunk_miss in * by exact Habs. simpl in *.
  split; [reflexivity|]. split.
  - apply od_contains_true. apply od_getitem_inl in V.
    change (i / cs) with (fst (i / cs, materialize c (i / cs))).
    apply in_map. exact V.
  - unfold materialize. rewrite E1, E2, E3.
    pose proof (Z.mod_pos_bound i cs ltac:(lia)).
    pose proof (Z.div_mod i cs ltac:(lia)).
    assert (0 <= i / cs) by (apply Z.div_pos; lia).
    rewrite length_slice by nia. nia.
Qed.

Lemma failed_read_loads_a_chunk_witness :
  loads (snd (getitem (init (dataset 20) 8 2 false) 24)) = [3].
Proof.
  exact (proj1 (proj2 (failed_read_loads_a_chunk (dataset 20) 8 2
                         (init (dataset 20) 8 2 false) 24
                         ltac:(lia) ltac:(lia) ltac:(simpl; lia)
                         (reach_init _) eq_refl))).
Defined.

(** X3.  With room for at least one chunk, a chunk that was just requested
    is resident: asking for it again returns the same chunk and changes
    nothing, neither the cache nor the log of reads. *)
Theorem get_chunk_twice ds cs n b c k :
  1 <= n ->
  reachable (init ds cs n b) c ->
  get_chunk (snd (get_chunk c k)) k =
  (fst (get_chunk c k), snd (get_chunk c k)).
Proof.
  intros Hn R.
  pose proof (reach_get_chunk _ c k R) as R'.
  destruct (reachable_inv _ c (init_inv ds cs n b) R) as [I (_ & _ & _ & E4)].
  destruct (reachable_inv _ _ (init_inv ds cs n b) R') as [I' P'].
  simpl in E4.
  pose proof (get_chunk_value c k I ltac:(lia)) as V.
  pose proof (get_chunk_params c k) as P.
  assert (Hres : od_contains k (cache (snd (get_chunk c k))) = true).
  { apply od_contains_true.
    destruct (od_contains k (cache c)) eqn:E.
    - rewrite get_chunk_hit by exact E. simpl. apply od_contains_true. exact E.
    - rewrite get_chunk_miss in * by exact E. simpl in *.
      apply od_getitem_inl in V.
      change k with (fst (k, materialize c k)). apply in_map. exact V. }
  rewrite (get_chunk_hit _ _ Hres). f_equal.
  rewrite V.
  apply od_contains_true, od_keys_In in Hres as [v Hv].
  rewrite (od_getitem_In _ _ _ (inv_nodup _ I') Hv). f_equal.
  rewrite (inv_data _ I' _ _ Hv). apply materialize_params. exact P.
Qed.

Lemma get_chunk_twice_witness :
  get_chunk (snd (get_chunk (init (dataset 5) 2 1 false) 1)) 1 =
  (fst (get_chunk (init (dataset 5) 2 1 false) 1),
   snd (get_chunk (init (dataset 5) 2 1 false) 1)).
Proof.
  exact (get_chunk_twice (dataset 5) 2 1 false _ 1 ltac:(lia) (reach_init _)).
Defined.

End CacheEdges.

Section CacheChunks.
Import Py Cache.
Implicit Types (c : HDF5ImageCache) (k i : Z).

Lemma firstn_plus {A : Type} (n m : nat) (l : list A) :
  firstn (n + m) l = (firstn n l ++ firstn m (skipn n l))%list.
Proof.
  revert l. induction n as [|n IH]; intros [|x l]; simpl.
  - reflexivity.
  - reflexivity.
  - rewrite firstn_nil. reflexivity.
  - rewrite IH. reflexivity.
Qed.

(** A slice with bounds that need no clamping below. *)
Lemma slice_nonneg {A : Type} (l : list A) (a b : Z) :
  0 <= a <= b ->
  slice l a b = firstn (Z.to_nat (b - a)) (skipn (Z.to_nat a) l).
Proof.
  intros H. unfold slice, clamp_index.
  replace (a <? 0) with false by (symmetry; apply Z.ltb_ge; lia).
  replace (b <? 0) with false by (symmetry; apply Z.ltb_ge; lia).
  destruct (Z_le_dec a (Z.of_nat (length l))) as [L|L].
  - replace (Z.min a (Z.of_nat (length l))) with a by lia.
    destruct (Z_le_dec b (Z.of_nat (length l))) as [L'|L'].
    + replace (Z.min b (Z.of_nat (length l))) with b by lia. reflexivity.
    + replace (Z.min b (Z.of_nat (length l))) with (Z.of_nat (length l)) by lia.
      rewrite !firstn_all2; [reflexivity| |]; rewrite length_skipn; lia.
  - rewrite !skipn_all2 by lia. rewrite !firstn_nil. reflexivity.
Qed.

Lemma slices_concat {A : Type} (l : list A) (cs : Z) (m : nat) :
  1 <= cs ->
  concat (map (fun k => slice l (cs * k) (cs * (k + 1))) (range (Z.of_nat m)))
  = firstn (Z.to_nat cs * m) l.
Proof.
  intros Hcs. unfold range. rewrite Nat2Z.id.
  induction m as [|m IH].
  - rewrite Nat.mul_0_r. reflexivity.
  - rewrite seq_S, !map_app, concat_app, IH. simpl.
    rewrite app_nil_r, slice_nonneg by nia.
    replace (Z.to_nat cs * S m)%nat with (Z.to_nat cs * m + Z.to_nat cs)%nat
      by lia.
    rewrite firstn_plus. f_equal. f_equal; [|f_equal]; nia.
Qed.

(** X4.  The chunks of a cache are the consecutive pieces of the dataset:
    chunk [k] has [chunk_size] images, or what is left of the dataset from
    [chunk_size * k] on for the last one (and nothing beyond), and the
    chunks 0, 1, ... in order make up the dataset again. *)
Theorem chunks_partition_dataset ds cs n c (m : nat) :
  1 <= cs -> 1 <= n ->
  reachable (init ds cs n false) c ->
  (forall k, 0 <= k ->
     exists ch, fst (get_chunk c k) = inl ch /\
                Z.of_nat (length ch) =
                Z.max 0 (Z.min cs (Z.of_nat (length ds) - cs * k))) /\
  (Z.of_nat (length ds) <= cs * Z.of_nat m ->
   concat (map (fun k => match fst (get_chunk c k) with
                         | inl ch => ch
                         | inr _ => []
                         end)
               (range (Z.of_nat m))) = ds).
Proof.
  intros Hcs Hn R.
  destruct (reachable_inv _ c (init_inv ds cs n false) R)
    as [I (E1 & E2 & E3 & E4)].
  simpl in E1, E2, E3, E4.
  assert (V : forall k, fst (get_chunk c k) = inl (slice ds (cs * k) (cs * (k + 1)))).
  { intros k. rewrite get_chunk_value by (assumption || lia).
    unfold materialize. rewrite E1, E2, E3. reflexivity. }
  split.
  - intros k Hk. eexists. split; [apply V|].
    rewrite length_slice by nia. nia.
  - intros Hm.
    rewrite (map_ext _ (fun k => slice ds (cs * k) (cs * (k + 1))))
      by (intros k; rewrite V; reflexivity).
    rewrite slices_concat by exact Hcs.
    apply firstn_all2. nia.
Qed.

Lemma chunks_partition_dataset_witness :
  concat (map (fun k => match fst (get_chunk (init (dataset 5) 2 1 false) k) with
                        | inl ch => ch
                        | inr _ => []
                        end)
              (range 3)) = dataset 5.
Proof.
  apply (proj2 (chunks_partition_dataset (dataset 5) 2 1
                  (init (dataset 5) 2 1 false) 3
                  ltac:(lia) ltac:(lia) (reach_init _))).
  simpl. lia.
Defined.

(** A slice whose bounds are both negative. *)
Lemma slice_negative {A : Type} (l : list A) (a b : Z) :
  a < 0 -> b < 0 -> 0 <= a + Z.of_nat (length l) ->
  slice l a b =
  firstn (Z.to_nat (b - a)) (skipn (Z.to_nat (a + Z.of_nat (length l))) l).
Proof.
  intros Ha Hb Hl. unfold slice, clamp_index.
  replace (a <? 0) with true by (symmetry; apply Z.ltb_lt; lia).
  replace (b <? 0) with true by (symmetry; apply Z.ltb_lt; lia).
  replace (Z.max (a + Z.of_nat (length l)) 0) with (a + Z.of_nat (length l))
    by lia.
  destruct (Z_le_dec a b) as [L|L].
  - replace (Z.max (b + Z.of_nat (length l)) 0) with (b + Z.of_nat (length l))
      by lia.
    f_equal. lia.
  - replace (Z.to_nat (b - a)) with 0%nat by lia.
    replace (Z.to_nat (Z.max (b + Z.of_nat (length l)) 0
                       - (a + Z.of_nat (length l)))) with 0%nat by lia.
    reflexivity.
Qed.

(** X5.  Indices below [-length] meet no bounds check.  Just below, for
    [-length - chunk_size <= i < -length], the read raises numpy's
    [IndexError] on an empty chunk.  Further below, as long as the chunk
    start computed from [length + i] is not below [-length], the negative
    slice bounds wrap around a second time and the read returns the element
    at [2 * length + i] of the dataset. *)
Theorem index_below_minus_length ds cs n c i :
  1 <= cs -> 1 <= n ->
  reachable (init ds cs n false) c ->
  let len := Z.of_nat (length ds) in
  (- len - cs <= i < - len ->
   fst (getitem c i) = inr (IndexError (np_index_msg ((len + i) mod cs) 0))) /\
  (i < - len - cs -> - len <= cs * ((len + i) / cs) ->
   fst (getitem c i) = inl (nth (Z.to_nat (2 * len + i)) ds [])).
Proof.
  intros Hcs Hn R len.
  destruct (reachable_inv _ c (init_inv ds cs n false) R)
    as [I (E1 & E2 & E3 & E4)].
  simpl in E1, E2, E3, E4.
  assert (G : i < - len ->
              fst (getitem c i) =
              np_getitem (slice ds (cs * ((len + i) / cs))
                                   (cs * ((len + i) / cs + 1)))
                         ((len + i) mod cs)).
  { intros Hi. rewrite getitem_fst by lia.
    replace (i <? 0) with true by (symmetry; apply Z.ltb_lt; lia).
    cbv zeta. rewrite get_chunk_value by (assumption || lia).
    unfold materialize. rewrite E1, E2, E3. reflexivity. }
  pose proof (Z.mod_pos_bound (len + i) cs ltac:(lia)) as Hm.
  pose proof (Z.div_mod (len + i) cs ltac:(lia)) as Hd.
  split.
  - intros Hi. rewrite G by lia.
    assert (Hk : (len + i) / cs = -1) by (symmetry; apply (Z.div_unique _ _ _ (len + i + cs)); lia).
    rewrite Hk.
    assert (S0 : slice ds (cs * -1) (cs * (-1 + 1)) = []).
    { unfold slice, clamp_index.
      replace (cs * -1 <? 0) with true by (symmetry; apply Z.ltb_lt; lia).
      replace (cs * (-1 + 1) <? 0) with false by (symmetry; apply Z.ltb_ge; lia).
      replace (Z.to_nat _) with 0%nat by lia. reflexivity. }
    rewrite S0. unfold np_getitem. simpl length.
    replace ((len + i) mod cs <? 0) with false by (symmetry; apply Z.ltb_ge; lia).
    replace ((len + i) mod cs <? Z.of_nat 0) with false
      by (symmetry; apply Z.ltb_ge; lia).
    rewrite andb_false_r. reflexivity.
  - intros Hi Hlow. rewrite G by lia.
    assert (Hk : (len + i) / cs <= -2).
    { assert ((len + i) / cs < -1); [|lia].
      apply Z.div_lt_upper_bound; lia. }
    rewrite slice_negative by (fold len; nia).
    fold len.
    replace (cs * ((len + i) / cs + 1) - cs * ((len + i) / cs)) with cs by lia.
    unfold np_getitem.
    rewrite length_firstn, length_skipn.
    replace ((len + i) mod cs <? 0) with false by (symmetry; apply Z.ltb_ge; lia).
    replace (0 <=? (len + i) mod cs) with true by (symmetry; apply Z.leb_le; lia).
    replace ((len + i) mod cs <? _) with true
      by (symmetry; apply Z.ltb_lt; unfold len in *; lia).
    simpl andb. cbv iota.
    rewrite nth_error_firstn.
    replace (Z.to_nat ((len + i) mod cs) <? Z.to_nat cs)%nat with true
      by (symmetry; apply Nat.ltb_lt; lia).
    rewrite nth_error_skipn.
    replace (Z.to_nat (cs * ((len + i) / cs) + len) + Z.to_nat ((len + i) mod cs))%nat
      with (Z.to_nat (2 * len + i)) by lia.
    rewrite (nth_error_nth' ds []) by (unfold len in *; lia).
    reflexivity.
Qed.

Lemma index_below_minus_length_witness :
  fst (getitem (init (dataset 20) 8 2 false) (-25))
    = inr (IndexError "index 3 is out of bounds for axis 0 with size 0") /\
  fst (getitem (init (dataset 20) 8 2 false) (-30)) = inl [[10]].
Proof.
  pose proof (index_below_minus_length (dataset 20) 8 2
                (init (dataset 20) 8 2 false) (-25)
                ltac:(lia) ltac:(lia) (reach_init _)) as [H _].
  pose proof (index_below_minus_length (dataset 20) 8 2
                (init (dataset 20) 8 2 false) (-30)
                ltac:(lia) ltac:(lia) (reach_init _)) as [_ H'].
  split.
  - apply H. simpl. lia.
  - apply H'; simpl; lia.
Defined.

End CacheChunks.

(* ================================================================== *)
(** * [ImageCorrCache]: the corrected image *)
(* ================================================================== *)

Section CorrPixels.
Import Py Images.

Lemma zip_with_total {A B C : Type} (f : A -> B -> result C) (g : A -> B -> C)
  (a : list A) (b : list B) :
  Forall2 (fun x y => f x y = inl (g x y)) a b ->
  CorrCache.zip_with f a b = inl (map (fun xy => g (fst xy) (snd xy)) (combine a b)).
Proof.
  induction 1 as [|x y a b H F IH]; simpl.
  - reflexivity.
  - rewrite H, IH. reflexivity.
Qed.

Lemma broadcast_total {A B C : Type} (f : A -> B -> result C) (g : A -> B -> C)
  (a : list A) (b : list B) :
  Forall2 (fun x y => f x y = inl (g x y)) a b ->
  CorrCache.broadcast f a b = inl (map (fun xy => g (fst xy) (snd xy)) (combine a b)).
Proof.
  intros F. unfold CorrCache.broadcast.
  rewrite (Forall2_length F), Nat.eqb_refl.
  apply zip_with_total. exact F.
Qed.

Lemma combine_map_l {A A' B : Type} (f : A -> A') (a : list A) (b : list B) :
  combine (map f a) b = map (fun p => (f (fst p), snd p)) (combine a b).
Proof.
  revert b. induction a as [|x a IH]; intros [|y b]; simpl; try reflexivity.
  rewrite IH. reflexivity.
Qed.

Lemma Forall2_same_length {A B : Type} (P : A -> B -> Prop) (a : list A) (b : list B) :
  length a = length b ->
  (forall x y, In (x, y) (combine a b) -> P x y) ->
  Forall2 P a b.
Proof.
  revert b. induction a as [|x a IH]; intros [|y b] L H; simpl in L;
    try discriminate.
  - constructor.
  - constructor; [apply H; left; reflexivity|].
    apply IH; [lia|]. intros x' y' Hin. apply H. right. exact Hin.
Qed.

Lemma Forall2_firstn {A B : Type} (P : A -> B -> Prop) n (a : list A) (b : list B) :
  Forall2 P a b -> Forall2 P (firstn n a) (firstn n b).
Proof.
  intros F. revert n. induction F; intros [|n]; simpl; constructor; auto.
Qed.

Lemma Forall2_skipn {A B : Type} (P : A -> B -> Prop) n (a : list A) (b : list B) :
  Forall2 P a b -> Forall2 P (skipn n a) (skipn n b).
Proof.
  intros F. revert n. induction F; intros [|n]; simpl; try constructor; auto.
Qed.

Lemma Forall2_slice {A B : Type} (P : A -> B -> Prop) (a : list A) (b : list B) s e :
  Forall2 P a b -> Forall2 P (slice a s e) (slice b s e).
Proof.
  intros F. unfold slice. rewrite (Forall2_length F).
  apply Forall2_firstn, Forall2_skipn, F.
Qed.

Lemma Forall_slice {A : Type} (P : A -> Prop) (a : list A) s e :
  Forall P a -> Forall P (slice a s e).
Proof.
  intros F. apply Forall_forall. intros x Hx. unfold slice in Hx.
  apply in_firstn, in_skipn in Hx. rewrite Forall_forall in F. auto.
Qed.

(** On 8-bit images of one shape, numpy's difference is the pixel-wise
    difference. *)
Lemma np_sub_pixels (raw back : Cache.chunk) :
  Forall2 same_shape raw back ->
  Forall uint8_image raw -> Forall uint8_image back ->
  CorrCache.np_sub (CorrCache.astype_int raw) back =
  inl (map (fun ab => pixel_diff (fst ab) (snd ab)) (combine raw back)).
Proof.
  intros S Ur Ub. unfold CorrCache.np_sub, CorrCache.astype_int.
  rewrite (broadcast_total _
             (fun a b => map (fun rr => map (fun xy => CorrCache.int64_wrap (fst xy - snd xy))
                                            (combine (fst rr) (snd rr)))
                             (combine a b))).
  - apply f_equal. rewrite combine_map_l, map_map.
    apply map_ext_in. intros [a b] Hab. cbn [fst snd].
    pose proof (in_combine_l _ _ _ _ Hab) as Ha.
    pose proof (in_combine_r _ _ _ _ Hab) as Hb.
    rewrite Forall_forall in Ur, Ub. specialize (Ur a Ha). specialize (Ub b Hb).
    unfold pixel_diff. rewrite combine_map_l, map_map.
    apply map_ext_in. intros [r r'] Hr. cbn [fst snd].
    pose proof (in_combine_l _ _ _ _ Hr) as Hr1.
    pose proof (in_combine_r _ _ _ _ Hr) as Hr2.
    unfold uint8_image in Ur, Ub. rewrite Forall_forall in Ur, Ub.
    specialize (Ur r Hr1). specialize (Ub r' Hr2).
    rewrite combine_map_l, map_map.
    apply map_ext_in. intros [x y] Hxy. cbn [fst snd].
    rewrite Forall_forall in Ur, Ub.
    apply int64_sub_uint8; [apply Ur, (in_combine_l _ _ _ _ Hxy)
                           |apply Ub, (in_combine_r _ _ _ _ Hxy)].
  - apply Forall2_same_length.
    + rewrite !length_map. apply (Forall2_length S).
    + intros a b Hab. rewrite combine_map_l in Hab.
      apply in_map_iff in Hab as ([a0 b0] & E & Hab). simpl in E.
      inversion E; subst a b. clear E.
      assert (Sab : same_shape a0 b0).
      { clear - S Hab. induction S as [|x y l l' H S IH]; [destruct Hab|].
        destruct Hab as [E|Hab]; [inversion E; subst; exact H|auto]. }
      apply (broadcast_total _
               (fun r r' => map (fun xy => CorrCache.int64_wrap (fst xy - snd xy))
                                (combine r r'))).
      apply Forall2_same_length.
      * rewrite length_map. apply (Forall2_length Sab).
      * intros r r' Hr. rewrite combine_map_l in Hr.
        apply in_map_iff in Hr as ([r0 r0'] & E & Hr). simpl in E.
        inversion E; subst r r'. clear E.
        assert (Lr : length r0 = length r0').
        { clear - Sab Hr. induction Sab as [|x y l l' H S IH]; [destruct Hr|].
          destruct Hr as [E|Hr]; [inversion E; subst; exact H|auto]. }
        apply (broadcast_total _ (fun x y => CorrCache.int64_wrap (x - y))).
        apply Forall2_same_length; [rewrite length_map; exact Lr|].
        intros x y _. reflexivity.
Qed.

End CorrPixels.

Section CorrRead.
Import Py Images.

Lemma nth_error_combine {A B : Type} (a : list A) (b : list B) j x y :
  nth_error a j = Some x -> nth_error b j = Some y ->
  nth_error (combine a b) j = Some (x, y).
Proof.
  revert b j. induction a as [|x0 a IH]; intros [|y0 b] [|j] Ha Hb;
    simpl in *; try discriminate.
  - congruence.
  - apply IH; assumption.
Qed.

Lemma np_getitem_combine {A B : Type} (a : list A) (b : list B) j x y :
  length a = length b ->
  np_getitem a j = inl x -> np_getitem b j = inl y ->
  np_getitem (combine a b) j = inl (x, y).
Proof.
  unfold np_getitem. intros L. rewrite length_combine, <- L, Nat.min_id.
  destruct ((0 <=? _) && _); [|discriminate].
  destruct (nth_error a _) as [x'|] eqn:Ea; [|discriminate].
  destruct (nth_error b _) as [y'|] eqn:Eb; [|discriminate].
  intros Hx Hy. inversion Hx; inversion Hy; subst.
  rewrite (nth_error_combine _ _ _ _ _ Ea Eb). reflexivity.
Qed.

(** X6.  For a raw and a background dataset of 8-bit images of the same
    shapes, cached with the same chunk size, the corrected image at any
    valid index is the pixel-wise difference of the raw and the background
    image at that index, whatever was read before through any of the three
    caches. *)
Theorem corrected_read_is_pixel_difference ds ds' cs n n' im bg cc i :
  1 <= cs -> 1 <= n -> 1 <= n' ->
  Cache.reachable (Cache.init ds cs n false) im ->
  Cache.reachable (Cache.init ds' cs n' false) bg ->
  CorrCache.reachable (CorrCache.init im bg) cc ->
  Forall2 same_shape ds ds' ->
  Forall uint8_image ds -> Forall uint8_image ds' ->
  0 <= i < Z.of_nat (length ds) ->
  fst (CorrCache.getitem cc i) =
  inl (pixel_diff (nth (Z.to_nat i) ds []) (nth (Z.to_nat i) ds' [])).
Proof.
  intros Hcs Hn Hn' Rim Rbg R S Ur Ub Hi.
  destruct (reachable_inv _ im (init_inv ds cs n false) Rim)
    as [Iim (A1 & A2 & A3 & A4)].
  destruct (reachable_inv _ bg (init_inv ds' cs n' false) Rbg)
    as [Ibg (B1 & B2 & B3 & B4)].
  simpl in A1, A2, A3, A4, B1, B2, B3, B4.
  pose proof (corr_init_inv im bg Iim Ibg) as I0.
  pose proof (corr_reachable_inv _ cc I0 R) as I.
  destruct (corr_reachable_params _ cc R)
    as [(P1 & P2 & P3 & P4) (Q1 & Q2 & Q3 & Q4)].
  simpl in P1, P2, P3, P4, Q1, Q2, Q3, Q4.
  rewrite corr_getitem_fst by (rewrite (CorrCache.inv_chunk _ I); lia).
  rewrite (CorrCache.inv_chunk _ I), (CorrCache.inv_h5ds _ I), P1, P2, A1, A2.
  replace (i <? 0) with false by (symmetry; apply Z.ltb_ge; lia).
  cbv zeta.
  rewrite corr_get_chunk_value by (assumption || lia).
  unfold CorrCache.corrected.
  rewrite (get_chunk_value _ _ (CorrCache.inv_image _ I)) by lia.
  rewrite (get_chunk_value _ _ (CorrCache.inv_image_bg _ I)) by lia.
  cbn [bind]. unfold Cache.materialize.
  rewrite P1, P2, P3, Q1, Q2, Q3, A1, A2, A3, B1, B2, B3.
  set (k := i / cs).
  rewrite np_sub_pixels
    by (apply Forall2_slice || apply Forall_slice; assumption).
  cbn [bind].
  pose proof (Forall2_length S) as L.
  pose proof (np_getitem_slice ds cs i Hcs ltac:(lia)) as G1.
  pose proof (np_getitem_slice ds' cs i Hcs ltac:(lia)) as G2.
  rewrite (nth_error_nth' ds []) in G1 by lia.
  rewrite (nth_error_nth' ds' []) in G2 by lia.
  fold k in G1, G2.
  rewrite np_getitem_map.
  rewrite (np_getitem_combine _ _ _ _ _
             (Forall2_length (Forall2_slice _ _ _ _ _ S)) G1 G2).
  reflexivity.
Qed.

Lemma corrected_read_is_pixel_difference_witness :
  fst (CorrCache.getitem
         (CorrCache.init (Cache.init [[[10; 200]]; [[20; 0]]; [[30; 7]]] 2 1 false)
                         (Cache.init [[[12; 100]]; [[12; 100]]; [[12; 100]]] 2 1 false))
         2) = inl [[18; -93]].
Proof.
  exact (corrected_read_is_pixel_difference
           [[[10; 200]]; [[20; 0]]; [[30; 7]]]
           [[[12; 100]]; [[12; 100]]; [[12; 100]]] 2 1 1 _ _ _ 2
           ltac:(lia) ltac:(lia) ltac:(lia)
           (Cache.reach_init _) (Cache.reach_init _) (CorrCache.reach_init _)
           ltac:(repeat constructor) ltac:(repeat constructor; lia)
           ltac:(repeat constructor; lia) ltac:(simpl; lia)).
Defined.

End CorrRead.

(* ================================================================== *)
(** * The extraction worker: published results and shutdown *)
(* ================================================================== *)

Section WorkerTurns.
Import Py Extractor.
Context {feature : Type}.
Variable process_label : label -> Z -> result (option (events feature)).
Implicit Types (w : worker feature).

(** What the processing of the work item [(chunk_index, label_index)]
    yields for the worker [w]. *)
Let outcome w (item : Z * Z) : result (option (events feature)) :=
  bind (np_getitem (label_array w) (snd item))
       (fun l => process_label l (fst item * chunk_size w + snd item)).

Lemma nth_set_nth_other {A : Type} (a : list A) (n j : nat) (x d : A) :
  j <> n -> nth j (set_nth a n x) d = nth j a d.
Proof.
  revert n j. induction a as [|y a IH]; intros [|n] [|j] H; simpl;
    try reflexivity; try congruence.
  apply IH. congruence.
Qed.

Lemma successful_item_is_published_aux w chunk_index label_index q ev :
  raw_queue w = (chunk_index, label_index) :: q ->
  outcome w (chunk_index, label_index) = inl ev ->
  let index := chunk_index * chunk_size w + label_index in
  0 <= index < Z.of_nat (length (feat_nevents w)) ->
  0 <= worker_index w < Z.of_nat (length (worker_monitor w)) ->
  fst (turn process_label w) = Running /\
  raw_queue (snd (turn process_label w)) = q /\
  event_queue (snd (turn process_label w)) = (event_queue w ++ [(index, ev)])%list /\
  nth (Z.to_nat index) (feat_nevents (snd (turn process_label w))) 0
    = count_events ev /\
  (forall j, j <> Z.to_nat index ->
     nth j (feat_nevents (snd (turn process_label w))) 0
     = nth j (feat_nevents w) 0) /\
  length (feat_nevents (snd (turn process_label w))) = length (feat_nevents w) /\
  log (snd (turn process_label w)) = log w /\
  np_sum (worker_monitor (snd (turn process_label w)))
    = np_sum (worker_monitor w) + 1.
Proof.
  unfold outcome. cbn [fst snd]. intros Hq Hr. cbv zeta. intros Hi Hw.
  unfold turn. rewrite Hq. cbn [label_array take chunk_size feat_nevents].
  rewrite Hr.
  set (index := chunk_index * chunk_size w + label_index) in *.
  rewrite py_setitem_inrange by exact Hi.
  destruct (count_item_counts
              (publish (take w q)
                       (set_nth (feat_nevents w) (Z.to_nat index) (count_events ev))
                       (index, ev)) Hw) as (n & G & C).
  rewrite C. simpl in G |- *.
  destruct (py_getitem_inrange _ _ Hw) as (n' & N & G').
  assert (n' = n) by congruence. subst n'.
  repeat split.
  - apply nth_error_nth. apply nth_error_set_nth. lia.
  - intros j Hj. apply nth_set_nth_other. exact Hj.
  - apply length_set_nth.
  - rewrite (np_sum_set_nth _ _ n _ N). lia.
Qed.


(** X7.  A work item whose processing succeeds is published: the number of
    events of the frame is written to [feat_nevents] at the frame's index
    (and nowhere else), the pair of index and events is appended to the
    event queue, nothing is logged, and the worker's monitor entry grows
    by one. *)
Theorem successful_item_is_published w chunk_index label_index q ev :
  raw_queue w = (chunk_index, label_index) :: q ->
  outcome w (chunk_index, label_index) = inl ev ->
  let index := chunk_index * chunk_size w + label_index in
  0 <= index < Z.of_nat (length (feat_nevents w)) ->
  0 <= worker_index w < Z.of_nat (length (worker_monitor w)) ->
  fst (turn process_label w) = Running /\
  raw_queue (snd (turn process_label w)) = q /\
  event_queue (snd (turn process_label w)) = (event_queue w ++ [(index, ev)])%list /\
  nth (Z.to_nat index) (feat_nevents (snd (turn process_label w))) 0
    = count_events ev /\
  (forall j, j <> Z.to_nat index ->
     nth j (feat_nevents (snd (turn process_label w))) 0
     = nth j (feat_nevents w) 0) /\
  length (feat_nevents (snd (turn process_label w))) = length (feat_nevents w) /\
  log (snd (turn process_label w)) = log w /\
  np_sum (worker_monitor (snd (turn process_label w)))
    = np_sum (worker_monitor w) + 1.
Proof. exact (successful_item_is_published_aux w chunk_index label_index q ev). Qed.

(** X8.  The write to [feat_nevents] is not protected: when the frame index
    of a successfully processed item lies outside the array, the
    [IndexError] leaves the loop and the worker ends; nothing is put on the
    event queue and the item is not counted. *)
Theorem index_outside_nevents_ends_worker w chunk_index label_index q ev :
  raw_queue w = (chunk_index, label_index) :: q ->
  outcome w (chunk_index, label_index) = inl ev ->
  let index := chunk_index * chunk_size w + label_index in
  Z.of_nat (length (feat_nevents w)) <= index ->
  exists msg,
    fst (turn process_label w) = Crashed (IndexError msg) /\
    event_queue (snd (turn process_label w)) = event_queue w /\
    worker_monitor (snd (turn process_label w)) = worker_monitor w /\
    forall fuel, fst (loop process_label (S fuel) w)
                 = Crashed (IndexError msg).
Proof.
  unfold outcome. cbn [fst snd]. intros Hq Hr. cbv zeta. intros Hi.
  assert (T : turn process_label w =
              (Crashed (IndexError "index out of range"), take w q)).
  { unfold turn. rewrite Hq. cbn [label_array take chunk_size feat_nevents].
    rewrite Hr.
    set (index := chunk_index * chunk_size w + label_index) in *.
    unfold py_setitem.
    replace (index <? 0) with false by (symmetry; apply Z.ltb_ge; lia).
    replace (index <? Z.of_nat (length (feat_nevents w))) with false
      by (symmetry; apply Z.ltb_ge; lia).
    rewrite andb_false_r. reflexivity. }
  exists "index out of range"%string. rewrite T. repeat split.
  intros fuel. simpl. rewrite T. reflexivity.
Qed.

End WorkerTurns.

Section WorkerLoop.
Import Py Extractor.
Context {feature : Type}.
Variable process_label : label -> Z -> result (option (events feature)).
Implicit Types (w : worker feature).

Let outcome w (item : Z * Z) : result (option (events feature)) :=
  bind (np_getitem (label_array w) (snd item))
       (fun l => process_label l (fst item * chunk_size w + snd item)).

Let in_range w (item : Z * Z) : Prop :=
  0 <= fst item * chunk_size w + snd item < Z.of_nat (length (feat_nevents w)).

(** One turn on a non-empty queue, whether the item succeeds or not. *)
Lemma turn_step w item q :
  raw_queue w = item :: q ->
  in_range w item ->
  0 <= worker_index w < Z.of_nat (length (worker_monitor w)) ->
  exists w1,
    turn process_label w = (Running, w1) /\
    raw_queue w1 = q /\
    chunk_size w1 = chunk_size w /\ worker_index w1 = worker_index w /\
    label_array w1 = label_array w /\
    finalize_extraction w1 = finalize_extraction w /\
    length (feat_nevents w1) = length (feat_nevents w) /\
    length (worker_monitor w1) = length (worker_monitor w) /\
    np_sum (worker_monitor w1) = np_sum (worker_monitor w) + 1 /\
    length (event_queue w1) =
      (length (event_queue w) + if is_exn (outcome w item) then 0 else 1)%nat.
Proof.
  unfold outcome, in_range. destruct item as [ci li]. cbn [fst snd].
  intros Hq Hi Hw. unfold turn. rewrite Hq.
  cbn [label_array take chunk_size feat_nevents].
  destruct (bind (np_getitem (label_array w) li) _) as [ev|e].
  - rewrite py_setitem_inrange by exact Hi.
    destruct (count_item_counts
                (publish (take w q)
                   (set_nth (feat_nevents w) (Z.to_nat (ci * chunk_size w + li))
                            (count_events ev))
                   (ci * chunk_size w + li, ev)) Hw) as (n & G & C).
    rewrite C. simpl in G. eexists. split; [reflexivity|]. simpl.
    destruct (py_getitem_inrange _ _ Hw) as (n' & N & G').
    assert (n' = n) by congruence. subst n'.
    repeat split.
    + apply length_set_nth.
    + apply length_set_nth.
    + rewrite (np_sum_set_nth _ _ n _ N). lia.
    + rewrite length_app. reflexivity.
  - destruct (count_item_counts (logged (take w q) (LogError e)) Hw)
      as (n & G & C).
    rewrite C. simpl in G. eexists. split; [reflexivity|]. simpl.
    destruct (py_getitem_inrange _ _ Hw) as (n' & N & G').
    assert (n' = n) by congruence. subst n'.
    repeat split.
    + apply length_set_nth.
    + rewrite (np_sum_set_nth _ _ n _ N). lia.
    + lia.
Qed.

(** X9.  The worker takes the queued items in order and counts every one
    of them, failed or not: after as many turns as there are items the
    queue is empty, the sum of the worker monitor has grown by the number
    of items, and the event queue has one more entry per item that did not
    raise.  Only then does the finalize flag take effect: with the flag set
    the next turn ends the worker, with the flag clear the worker keeps
    polling and changes nothing. *)
Theorem worker_drains_queue w :
  Forall (in_range w) (raw_queue w) ->
  0 <= worker_index w < Z.of_nat (length (worker_monitor w)) ->
  exists w',
    loop process_label (length (raw_queue w)) w = (Running, w') /\
    raw_queue w' = [] /\
    np_sum (worker_monitor w') =
      np_sum (worker_monitor w) + Z.of_nat (length (raw_queue w)) /\
    length (event_queue w') =
      (length (event_queue w)
       + length (filter (fun item => negb (is_exn (outcome w item)))
                        (raw_queue w)))%nat /\
    (finalize_extraction w = true ->
     loop process_label (S (length (raw_queue w))) w =
     (Stopped, logged w' (LogDebug "Finalizing worker"))) /\
    (finalize_extraction w = false ->
     forall extra,
       loop process_label (length (raw_queue w) + extra) w = (Running, w')).
Proof.
  remember (raw_queue w) as queue eqn:Hq. revert w Hq.
  induction queue as [|item q IH]; intros w Hq Hr Hw.
  - exists w. simpl. split; [reflexivity|]. split; [auto|].
    split; [lia|]. split; [lia|]. split.
    + intros Hf. unfold turn. rewrite <- Hq, Hf. reflexivity.
    + intros Hf extra. induction extra as [|extra IHe]; [reflexivity|].
      simpl. unfold turn at 1. rewrite <- Hq, Hf. exact IHe.
  - inversion Hr as [|? ? Hi Hr']; subst.
    destruct (turn_step w item q (eq_sym Hq) Hi Hw)
      as (w1 & T & Q1 & C1 & W1 & L1 & F1 & N1 & M1 & S1 & E1).
    assert (Hr1 : Forall (in_range w1) q).
    { eapply Forall_impl; [|exact Hr']. unfold in_range. intros it H.
      rewrite C1, N1. exact H. }
    destruct (IH w1 (eq_sym Q1) Hr1 ltac:(rewrite W1, M1; exact Hw))
      as (w' & Lp & Q' & S' & E' & Fin & NoFin).
    exists w'. cbn [length loop]. rewrite T.
    split; [exact Lp|]. split; [exact Q'|].
    split; [rewrite S', S1; lia|].
    split.
    + rewrite E', E1. cbn [filter].
      replace (filter (fun it => negb (is_exn (outcome w1 it))) q)
        with (filter (fun it => negb (is_exn (outcome w it))) q)
        by (apply filter_ext; intros it; unfold outcome; rewrite L1, C1; reflexivity).
      destruct (is_exn (outcome w item)); simpl; lia.
    + split.
      * intros Hf. change (loop process_label (S (length q)) w1 =
                           (Stopped, logged w' (LogDebug "Finalizing worker"))).
        apply Fin. rewrite F1. exact Hf.
      * intros Hf extra. cbn [Nat.add loop]. rewrite T.
        apply NoFin. rewrite F1. exact Hf.
Qed.

End WorkerLoop.

Section WorkerWitnesses.
Import Py Extractor.

Lemma successful_item_is_published_witness :
  event_queue
    (snd (turn (fun (_ : label) (_ : Z) => inl (Some [("area"%string, [3; 4])]))
               (mk 2 0 [[[0; 1]]; [[0; 0]]] [(1, 0)] [] [-1; -1; -1] [5] false [])))
  = [(2, Some [("area"%string, [3; 4])])].
Proof.
  exact (proj1 (proj2 (proj2
           (successful_item_is_published
              (fun (_ : label) (_ : Z) => inl (Some [("area"%string, [3; 4])]))
              (mk 2 0 [[[0; 1]]; [[0; 0]]] [(1, 0)] [] [-1; -1; -1] [5] false [])
              1 0 [] (Some [("area"%string, [3; 4])])
              eq_refl eq_refl ltac:(simpl; lia) ltac:(simpl; lia))))).
Defined.

Lemma index_outside_nevents_ends_worker_witness :
  exists msg,
    fst (turn (fun (_ : label) (_ : Z) => inl (@None (events Z)))
              (mk 2 0 [[[0; 1]]; [[0; 0]]] [(1, 1)] [] [-1; -1; -1] [5] false []))
    = Crashed (IndexError msg).
Proof.
  destruct (index_outside_nevents_ends_worker
              (fun (_ : label) (_ : Z) => inl (@None (events Z)))
              (mk 2 0 [[[0; 1]]; [[0; 0]]] [(1, 1)] [] [-1; -1; -1] [5] false [])
              1 1 [] None eq_refl eq_refl ltac:(simpl; lia))
    as (msg & T & _).
  exists msg. exact T.
Defined.

Lemma worker_drains_queue_witness :
  exists w',
    loop failing_extraction 1 failing_worker = (Running, w') /\
    raw_queue w' = [].
Proof.
  destruct (worker_drains_queue failing_extraction failing_worker
              ltac:(repeat constructor; simpl; lia) ltac:(simpl; lia))
    as (w' & L & Q & _).
  exists w'. split; [exact L|exact Q].
Defined.

End WorkerWitnesses.

(* ================================================================== *)
(** * Masks of a label image and duplicate frames *)
(* ================================================================== *)

Section MaskFacts.
Import Py Masks.
Variable gate_mask : mask -> Z -> bool.

Lemma in_range2 a b j : In j (range2 a b) <-> a <= j < b.
Proof.
  unfold range2. rewrite in_map_iff. split.
  - intros (k & <- & Hk). apply in_seq in Hk. lia.
  - intros H. exists (Z.to_nat (j - a)). split; [lia|].
    apply in_seq. lia.
Qed.

Lemma length_flat_map_le {A B : Type} (f : A -> list B) (l : list A) :
  (forall x, length (f x) <= 1)%nat ->
  (length (flat_map f l) <= length l)%nat.
Proof.
  intros H. induction l as [|x l IH]; simpl; [lia|].
  rewrite length_app. specialize (H x). lia.
Qed.

(** X10.  The masks of a label image are exactly the masks [label == jj]
    of the values [jj] from 1 to the largest label that occur in at least
    one pixel and pass the mask gate; a value without pixels yields no
    mask, so there are never more masks than the largest label, and an
    image without positive labels yields none. *)
Theorem masks_are_gated_nonempty_labels (l : label) (masks : list mask) :
  get_masks_from_label gate_mask l = inl masks ->
  exists lmax,
    np_max l = inl lmax /\
    (forall m, In m masks <->
       exists jj, 1 <= jj <= lmax /\ m = label_eq l jj /\
                  0 < mask_sum m /\ gate_mask m (mask_sum m) = true) /\
    Z.of_nat (length masks) <= Z.max 0 lmax /\
    (lmax <= 0 -> masks = []).
Proof.
  unfold get_masks_from_label. destruct (np_max l) as [lmax|e]; [|discriminate].
  cbn [bind]. intros H. injection H as <-. exists lmax.
  split; [reflexivity|]. split; [|split].
  - intros m. rewrite in_flat_map. split.
    + intros (jj & Hj & Hm). apply in_range2 in Hj. cbv zeta in Hm.
      destruct (Z.eqb_spec (mask_sum (label_eq l jj)) 0) as [E|E];
        [destruct Hm|].
      simpl in Hm.
      destruct (gate_mask (label_eq l jj) (mask_sum (label_eq l jj))) eqn:G;
        [|destruct Hm].
      destruct Hm as [<-|[]]. exists jj.
      repeat split; try lia; try assumption.
      unfold mask_sum in *. lia.
    + intros (jj & Hj & -> & Hs & G). exists jj.
      split; [apply in_range2; lia|]. cbv zeta.
      replace (mask_sum (label_eq l jj) =? 0) with false
        by (symmetry; apply Z.eqb_neq; lia).
      simpl. rewrite G. left. reflexivity.
  - pose proof (length_flat_map_le
                  (fun jj => if negb (mask_sum (label_eq l jj) =? 0)
                                && gate_mask (label_eq l jj) (mask_sum (label_eq l jj))
                             then [label_eq l jj] else [])
                  (range2 1 (lmax + 1))) as L.
    cbv zeta.
    assert (Hlen : length (range2 1 (lmax + 1)) = Z.to_nat lmax)
      by (unfold range2; rewrite length_map, length_seq; f_equal; lia).
    rewrite Hlen in L.
    assert (H : forall x : Z,
              Nat.le (length (if negb (mask_sum (label_eq l x) =? 0)
                                 && gate_mask (label_eq l x) (mask_sum (label_eq l x))
                              then [label_eq l x] else [])) 1)
      by (intros x; destruct (_ && _); simpl; unfold Nat.le; lia).
    specialize (L H). lia.
  - intros Hl. unfold range2.
    replace (Z.to_nat (lmax + 1 - 1)) with 0%nat by lia. reflexivity.
Qed.

End MaskFacts.

Section MaskWitnesses.
Import Py Masks.

Lemma masks_are_gated_nonempty_labels_witness :
  exists lmax,
    np_max [[0; 2; 2]; [0; 0; 0]] = inl lmax /\
    Z.of_nat (length [[[false; true; true]; [false; false; false]]])
    <= Z.max 0 lmax.
Proof.
  destruct (masks_are_gated_nonempty_labels (fun _ _ => true)
              [[0; 2; 2]; [0; 0; 0]]
              [[[false; true; true]; [false; false; false]]] eq_refl)
    as (lmax & H1 & _ & H3 & _).
  exists lmax. split; assumption.
Defined.

End MaskWitnesses.

Section DuplicateFrames.
Import Py Masks.
Variable gate_mask : mask -> Z -> bool.
Context {events : Type}.
Variable get_events_from_masks : list mask -> Z -> result events.

Lemma images_equal_iff a b : images_equal a b = true <-> a = b.
Proof.
  unfold images_equal. destruct (list_eq_dec _ a b); split; congruence.
Qed.

(** A read at any index from [-length] up to [length - 1]. *)
Lemma getitem_valid ds cs n c i :
  1 <= cs -> 1 <= n ->
  Cache.reachable (Cache.init ds cs n false) c ->
  - Z.of_nat (length ds) <= i < Z.of_nat (length ds) ->
  fst (Cache.getitem c i) =
  inl (nth (Z.to_nat (if i <? 0 then Z.of_nat (length ds) + i else i)) ds []).
Proof.
  intros Hcs Hn R Hi.
  assert (P : forall j, 0 <= j < Z.of_nat (length ds) ->
                        fst (Cache.getitem c j) = inl (nth (Z.to_nat j) ds [])).
  { intros j Hj. rewrite (getitem_plain ds cs n c j) by (assumption || lia).
    rewrite (nth_error_nth' ds []) by lia. reflexivity. }
  destruct (Z.ltb_spec i 0) as [L|L]; [|apply P; lia].
  destruct (reachable_inv _ c (init_inv ds cs n false) R) as [_ (E1 & _)].
  simpl in E1.
  assert (G : Cache.getitem c i = Cache.getitem c (Z.of_nat (length ds) + i)).
  { unfold Cache.getitem. rewrite E1.
    replace (i <? 0) with true by (symmetry; apply Z.ltb_lt; lia).
    replace (Z.of_nat (length ds) + i <? 0) with false
      by (symmetry; apply Z.ltb_ge; lia).
    reflexivity. }
  rewrite G. apply P. lia.
Qed.

(** [process_label] on a valid frame index, by the comparison of the two
    images. *)
Lemma process_label_valid ds cs n c (l : label) index :
  1 <= cs -> 1 <= n ->
  Cache.reachable (Cache.init ds cs n false) c ->
  0 <= index < Z.of_nat (length ds) ->
  process_label gate_mask get_events_from_masks c l index =
  if (0 <? index)
     && images_equal (nth (Z.to_nat (index - 1)) ds []) (nth (Z.to_nat index) ds [])
  then inl None
  else extract gate_mask get_events_from_masks l index.
Proof.
  intros Hcs Hn R Hi. unfold process_label.
  rewrite (getitem_valid ds cs n c (index - 1)) by (assumption || lia).
  rewrite (getitem_valid ds cs n _ index Hcs Hn (Cache.reach_getitem _ c _ R))
    by lia.
  cbn [bind].
  replace (index <? 0) with false by (symmetry; apply Z.ltb_ge; lia).
  destruct (Z.eqb_spec index 0) as [E|E].
  - subst index. rewrite andb_false_r. reflexivity.
  - replace (index - 1 <? 0) with false by (symmetry; apply Z.ltb_ge; lia).
    replace (0 <? index) with true by (symmetry; apply Z.ltb_lt; lia).
    rewrite andb_true_r. reflexivity.
Qed.

(** X11.  A frame other than the first whose image equals the image before
    it is skipped: [process_label] returns [None] without looking at the
    label.  A frame whose image differs is extracted.  The first frame is
    always extracted, although it is compared (with the last image of the
    dataset) like the others. *)
Theorem duplicate_frames_are_skipped ds cs n c (l : label) index :
  1 <= cs -> 1 <= n ->
  Cache.reachable (Cache.init ds cs n false) c ->
  0 <= index < Z.of_nat (length ds) ->
  process_label gate_mask get_events_from_masks c l index =
  if (0 <? index)
     && images_equal (nth (Z.to_nat (index - 1)) ds []) (nth (Z.to_nat index) ds [])
  then inl None
  else extract gate_mask get_events_from_masks l index.
Proof. apply process_label_valid. Qed.

(** A read of the image fails beyond the dataset, and so does the whole
    call: the exception reaches the worker's [except] clause. *)
Lemma process_label_beyond_dataset ds cs n c (l : label) index :
  1 <= cs -> 1 <= n ->
  Cache.reachable (Cache.init ds cs n false) c ->
  Z.of_nat (length ds) <= index ->
  is_exn (process_label gate_mask get_events_from_masks c l index) = true.
Proof.
  intros Hcs Hn R Hi. unfold process_label.
  destruct (fst (Cache.getitem c (index - 1))) as [previous|e];
    [|reflexivity].
  cbn [bind].
  rewrite (getitem_out_of_range ds cs n _ index Hcs Hn Hi
             (Cache.reach_getitem _ c _ R)).
  reflexivity.
Qed.

End DuplicateFrames.

Section DuplicateFramesInWorker.
Import Py Masks.
Variable gate_mask : mask -> Z -> bool.
Context {feature : Type}.
Variable get_events_from_masks :
  list mask -> Z -> result (Extractor.events feature).

(** X12.  The worker reports a duplicate frame with zero events: for a
    queued frame (not the first of the dataset) whose image equals the one
    before it, the turn writes 0 to [feat_nevents] at the frame's index,
    puts the pair of the index and [None] on the event queue and counts the
    item. *)
Theorem duplicate_frame_reports_no_events ds cs n c
    (w : Extractor.worker feature) chunk_index label_index q lbl :
  1 <= cs -> 1 <= n ->
  Cache.reachable (Cache.init ds cs n false) c ->
  Extractor.raw_queue w = (chunk_index, label_index) :: q ->
  np_getitem (Extractor.label_array w) label_index = inl lbl ->
  let index := chunk_index * Extractor.chunk_size w + label_index in
  1 <= index < Z.of_nat (length ds) ->
  nth (Z.to_nat (index - 1)) ds [] = nth (Z.to_nat index) ds [] ->
  index < Z.of_nat (length (Extractor.feat_nevents w)) ->
  0 <= Extractor.worker_index w
    < Z.of_nat (length (Extractor.worker_monitor w)) ->
  let after :=
    snd (Extractor.turn (process_label gate_mask get_events_from_masks c) w) in
  Extractor.event_queue after = (Extractor.event_queue w ++ [(index, None)])%list /\
  nth (Z.to_nat index) (Extractor.feat_nevents after) 0 = 0 /\
  np_sum (Extractor.worker_monitor after)
    = np_sum (Extractor.worker_monitor w) + 1.
Proof.
  intros Hcs Hn R Hq Hl. cbv zeta. intros Hi Heq Hf Hw.
  assert (Hr : bind (np_getitem (Extractor.label_array w) label_index)
                 (fun l => process_label gate_mask get_events_from_masks c l
                             (chunk_index * Extractor.chunk_size w + label_index))
               = inl None).
  { rewrite Hl. cbn [bind].
    rewrite (process_label_valid gate_mask get_events_from_masks
               ds cs n c lbl _ Hcs Hn R) by lia.
    replace (0 <? _) with true by (symmetry; apply Z.ltb_lt; lia).
    rewrite Heq. rewrite (proj2 (images_equal_iff _ _) eq_refl). reflexivity. }
  destruct (successful_item_is_published_aux
              (process_label gate_mask get_events_from_masks c)
              w chunk_index label_index q None Hq Hr ltac:(lia) Hw)
    as (_ & _ & E & F & _ & _ & _ & M).
  repeat split; assumption.
Qed.

End DuplicateFramesInWorker.

Section DuplicateWitnesses.
Import Py Masks.

Lemma duplicate_frames_are_skipped_witness :
  process_label (fun _ _ => true) (fun _ _ => inl tt)
                (Cache.init [[[1]]; [[1]]; [[2]]] 2 1 false) [[0; 1]] 1
  = inl None.
Proof.
  exact (duplicate_frames_are_skipped (fun _ _ => true) (fun _ _ => inl tt)
           [[[1]]; [[1]]; [[2]]] 2 1 _ [[0; 1]] 1
           ltac:(lia) ltac:(lia) (Cache.reach_init _) ltac:(simpl; lia)).
Defined.

Lemma duplicate_frame_reports_no_events_witness :
  let w := Extractor.mk 2 0 [[[0; 1]]; [[0; 1]]] [(0, 1)] [] [-1; -1; -1] [5]
             false [] in
  nth 1 (Extractor.feat_nevents
           (snd (Extractor.turn
                   (process_label (fun _ _ => true)
                      (fun _ _ => inl ([] : Extractor.events Z))
                      (Cache.init [[[1]]; [[1]]; [[2]]] 2 1 false)) w))) 0 = 0.
Proof.
  exact (proj1 (proj2
           (duplicate_frame_reports_no_events (fun _ _ => true)
              (fun _ _ => inl ([] : Extractor.events Z))
              [[[1]]; [[1]]; [[2]]] 2 1 _
              (Extractor.mk 2 0 [[[0; 1]]; [[0; 1]]] [(0, 1)] [] [-1; -1; -1] [5]
                 false [])
              0 1 [] [[0; 1]]
              ltac:(lia) ltac:(lia) (Cache.reach_init _) eq_refl eq_refl
              ltac:(simpl; lia) eq_refl ltac:(simpl; lia) ltac:(simpl; lia)))).
Defined.

End DuplicateWitnesses.

(* ================================================================== *)
(** * The coordinator: slot scan, termination and the barrier *)
(* ================================================================== *)

Section ScanFacts.
Import Py Manager Traces.
Implicit Types (st : manager) (w : world).

Lemma py_getitem_nth_error {A : Type} (a : list A) (j : nat) :
  (j < length a)%nat ->
  py_getitem a (Z.of_nat j) =
  match nth_error a j with
  | Some x => inl x
  | None => inr (IndexError "index out of range")
  end.
Proof.
  intros H. unfold py_getitem.
  replace (Z.of_nat j <? 0) with false by (symmetry; apply Z.ltb_ge; lia).
  replace (0 <=? Z.of_nat j) with true by (symmetry; apply Z.leb_le; lia).
  replace (Z.of_nat j <? Z.of_nat (length a)) with true
    by (symmetry; apply Z.ltb_lt; lia).
  simpl. rewrite Nat2Z.id. reflexivity.
Qed.

Lemma emit_emit st a b : emit (emit st a) b = emit st (a ++ b).
Proof. unfold emit. simpl. rewrite app_assoc. reflexivity. Qed.

Lemma emit_nil st : emit st [] = st.
Proof. destruct st. unfold emit. simpl. rewrite app_nil_r. reflexivity. Qed.

Lemma scan_static_from st w (j : nat) :
  num_slots st = Z.of_nat (length (slot_states w)) ->
  first_ready (slot_states w) j ->
  forall (d : nat) (cur : nat) (m : nat),
    (cur + d = j)%nat -> (d < m)%nat ->
    scan st (Z.of_nat cur) (Z.of_nat cur) (repeat w m) =
    Done (Z.of_nat j) st (repeat w (m - d - 1)).
Proof.
  intros Hn [He Hlow].
  assert (Hj : (j < length (slot_states w))%nat)
    by (apply nth_error_Some; congruence).
  induction d as [|d IH]; intros cur m Hc Hm.
  - destruct m as [|m]; [lia|]. simpl.
    assert (cur = j) by lia. subst cur.
    rewrite py_getitem_nth_error by exact Hj. rewrite He. simpl.
    replace (m - 0)%nat with m by lia. reflexivity.
  - destruct m as [|m]; [lia|]. simpl.
    rewrite py_getitem_nth_error by lia.
    destruct (nth_error (slot_states w) cur) as [tag|] eqn:E.
    2:{ apply nth_error_None in E. lia. }
    destruct (Ascii.eqb_spec tag "e") as [->|Hne].
    { exfalso. apply (Hlow cur); [lia|exact E]. }
    rewrite Hn.
    replace (Z.of_nat (length (slot_states w)) =? 0) with false
      by (symmetry; apply Z.eqb_neq; lia).
    replace (Z.of_nat cur + 1 >=? Z.of_nat (length (slot_states w))) with false
      by (symmetry; rewrite Z.geb_leb; apply Z.leb_gt; lia).
    rewrite Z.mod_small by lia.
    replace (Z.of_nat cur + 1) with (Z.of_nat (S cur)) by lia.
    rewrite (IH (S cur) m) by lia. reflexivity.
Qed.

(** X13.  Every scan starts at slot 0: while the slot states do not change,
    the coordinator claims the lowest-numbered slot in state "e", after
    reading the states of the slots before it once each and without
    sleeping -- whichever slot it claimed last. *)
Theorem scan_claims_lowest_ready_slot st w (j m : nat) :
  num_slots st = Z.of_nat (length (slot_states w)) ->
  first_ready (slot_states w) j ->
  (j < m)%nat ->
  scan st 0 0 (repeat w m) = Done (Z.of_nat j) st (repeat w (m - j - 1)).
Proof.
  intros Hn Hf Hm.
  exact (scan_static_from st w j Hn Hf j 0%nat m eq_refl Hm).
Qed.

Lemma scan_idle_from w (n : nat) :
  length (slot_states w) = n -> (0 < n)%nat ->
  (forall i, nth_error (slot_states w) i <> Some "e"%char) ->
  forall (m : nat) st (cur : nat),
    num_slots st = Z.of_nat n -> (cur < n)%nat ->
    scan st (Z.of_nat cur) (Z.of_nat cur) (repeat w m) =
    Blocked (emit st (repeat (Sleep 100) ((cur + m) / n))).
Proof.
  intros Hlen Hpos Hno.
  induction m as [|m IH]; intros st cur Hn Hc.
  - simpl. rewrite Nat.add_0_r, Nat.div_small by lia. simpl.
    rewrite emit_nil. reflexivity.
  - simpl. rewrite py_getitem_nth_error by lia.
    destruct (nth_error (slot_states w) cur) as [tag|] eqn:E.
    2:{ apply nth_error_None in E. lia. }
    destruct (Ascii.eqb_spec tag "e") as [->|Hne].
    { exfalso. apply (Hno cur). exact E. }
    rewrite Hn.
    replace (Z.of_nat n =? 0) with false by (symmetry; apply Z.eqb_neq; lia).
    destruct (Nat.eq_dec (S cur) n) as [Hw|Hw].
    + replace (Z.of_nat cur + 1 >=? Z.of_nat n) with true
        by (symmetry; rewrite Z.geb_leb; apply Z.leb_le; lia).
      replace ((Z.of_nat cur + 1) mod Z.of_nat n) with 0
        by (replace (Z.of_nat cur + 1) with (Z.of_nat n) by lia;
            rewrite Z.mod_same by lia; reflexivity).
      change (scan (emit st [Sleep 100]) 0 0 (repeat w m))
        with (scan (emit st [Sleep 100]) (Z.of_nat 0) (Z.of_nat 0) (repeat w m)).
      rewrite (IH (emit st [Sleep 100]) 0%nat) by (simpl; lia).
      rewrite emit_emit. do 2 f_equal.
      replace (cur + S m)%nat with (m + 1 * n)%nat by lia.
      rewrite Nat.div_add by lia. simpl.
      replace (m / n + 1)%nat with (S (m / n)) by lia. reflexivity.
    + replace (Z.of_nat cur + 1 >=? Z.of_nat n) with false
        by (symmetry; rewrite Z.geb_leb; apply Z.leb_gt; lia).
      rewrite Z.mod_small by lia.
      replace (Z.of_nat cur + 1) with (Z.of_nat (S cur)) by lia.
      rewrite (IH st (S cur)) by lia.
      replace (S cur + m)%nat with (cur + S m)%nat by lia. reflexivity.
Qed.

(** X14.  While no slot is in state "e" the scan neither returns nor
    raises: it reads the slots round and round and sleeps 0.1 s after each
    full pass, so after [m] reads it has slept [m / num_slots] times. *)
Theorem scan_sleeps_once_per_idle_pass st w (m : nat) :
  num_slots st = Z.of_nat (length (slot_states w)) ->
  (0 < length (slot_states w))%nat ->
  (forall i, nth_error (slot_states w) i <> Some "e"%char) ->
  scan st 0 0 (repeat w m) =
  Blocked (emit st (repeat (Sleep 100) (m / length (slot_states w)))).
Proof.
  intros Hn Hpos Hno.
  exact (scan_idle_from w (length (slot_states w)) eq_refl Hpos Hno
           m st 0%nat Hn Hpos).
Qed.

End ScanFacts.

Section RunFacts.
Import Py Manager Traces.
Implicit Types (st : manager) (o : list world).

Lemma count_app kind a b : count kind (a ++ b) = count kind a + count kind b.
Proof. unfold count. rewrite filter_app, length_app. lia. Qed.

Lemma count_none kind evs :
  Forall (fun e => kind e = false) evs -> count kind evs = 0.
Proof.
  unfold count. induction 1 as [|e evs H F IH]; simpl; [reflexivity|].
  rewrite H. exact IH.
Qed.

Lemma count_puts chunk cs :
  count is_put (map (fun ii => Put (chunk, ii)) (range cs)) = Z.max 0 cs.
Proof.
  unfold count, range. rewrite map_map.
  rewrite forallb_filter_id.
  - rewrite length_map, length_seq. lia.
  - apply forallb_forall. intros e He. apply in_map_iff in He as (k & <- & _).
    reflexivity.
Qed.

(** What one completed turn of the loop adds to the state. *)
Lemma iteration_done st o b st' o' :
  iteration st o = Done b st' o' ->
  exists evs cur cs,
    trace st' = (trace st ++ evs ++ [SetState cur "w"])%list /\
    count is_state_write evs = 0 /\
    count is_finalize evs = 0 /\
    count is_put evs = Z.max 0 cs /\
    data st' = data st /\ num_slots st' = num_slots st /\
    chunks_processed st' = chunks_processed st + 1 /\
    frames_processed st' = frames_processed st + cs /\
    b = (chunks_processed st' =? num_chunks (data st')).
Proof.
  unfold iteration. intros H.
  destruct o as [|w0 o1]; [discriminate|]. simpl in H.
  set (st1 := if writer_dq w0 >? 100
              then emit st [Sleep (writer_dq w0 * 10)] else st) in *.
  assert (T1 : exists pre, trace st1 = (trace st ++ pre)%list /\
                           Forall (fun e => exists ms, e = Sleep ms) pre /\
                           same_locals st st1).
  { unfold st1. destruct (writer_dq w0 >? 100).
    - exists [Sleep (writer_dq w0 * 10)]. repeat split.
      constructor; [eauto|constructor].
    - exists []. rewrite app_nil_r. repeat split. constructor. }
  assert (H' : match scan st1 0 0 o1 with
               | Done cur_slot st0 o2 =>
                   match process st0 cur_slot o2 with
                   | Done _ st2 o3 =>
                       Done (chunks_processed st2 =? num_chunks (data st2)) st2 o3
                   | Raised e st2 => Raised e st2
                   | Blocked st2 => Blocked st2
                   end
               | Raised e st0 => Raised e st0
               | Blocked st0 => Blocked st0
               end = Done b st' o').
  { unfold st1. destruct (writer_dq w0 >? 100); exact H. }
  clear H. destruct T1 as (pre & Tpre & Fpre & L1).
  destruct (scan st1 0 0 o1) as [cur st2 o2|e st2|st2] eqn:S;
    [|discriminate|discriminate].
  apply scan_done in S as (sleeps & w_e & T2 & F2 & L2 & _).
  destruct (process st2 cur o2) as [u st3 o3|e st3|st3] eqn:P;
    [|discriminate|discriminate].
  injection H' as Hb <- <-. destruct u.
  apply process_done in P
    as (w & chunk & nl & la & cs & waits & _ & _ & _ & _ & _ & Fw & _
        & T3 & _ & D3 & N3 & Hf & Hn).
  pose proof (same_locals_trans _ _ _ L1 L2) as (D1 & D2 & _ & D4 & D5).
  exists ((pre ++ sleeps) ++ [SetLabels la]
          ++ map (fun ii => Put (chunk, ii)) (range cs)
          ++ waits ++ [Poll (frames_processed st2 + cs)])%list, cur, cs.
  assert (Cpre : forall kind, (forall ms, kind (Sleep ms) = false) ->
                              count kind pre = 0).
  { intros kind Hk. apply count_none.
    eapply Forall_impl; [|exact Fpre]. intros e [ms ->]. apply Hk. }
  assert (Csl : forall kind, (forall ms, kind (Sleep ms) = false) ->
                             count kind sleeps = 0).
  { intros kind Hk. apply count_none.
    eapply Forall_impl; [|exact F2]. intros e <-. apply Hk. }
  assert (Cw : forall kind, (forall ms, kind (Sleep ms) = false) ->
                            (forall s, kind (Poll s) = false) ->
                            count kind waits = 0).
  { intros kind Hk Hp. apply count_none.
    eapply Forall_impl; [|exact Fw]. intros e [->|(s & -> & _)]; auto. }
  split.
  { rewrite T3, T2, Tpre. repeat rewrite <- app_assoc. simpl.
    repeat rewrite <- app_assoc. reflexivity. }
  split.
  { rewrite !count_app, Cpre, Csl, Cw by reflexivity.
    rewrite (count_none is_state_write (map _ _)).
    - reflexivity.
    - apply Forall_forall. intros e He.
      apply in_map_iff in He as (k & <- & _). reflexivity. }
  split.
  { rewrite !count_app, Cpre, Csl, Cw by reflexivity.
    rewrite (count_none is_finalize (map _ _)).
    - reflexivity.
    - apply Forall_forall. intros e He.
      apply in_map_iff in He as (k & <- & _). reflexivity. }
  split.
  { rewrite !count_app, Cpre, Csl, Cw, count_puts by reflexivity.
    unfold count. simpl. lia. }
  split; [congruence|]. split; [congruence|].
  split; [lia|]. split; [lia|]. symmetry. exact Hb.
Qed.

(** What a completed [run] has done, from the state it started in. *)
Lemma run_done fuel st o st' o' :
  run fuel st o = Done tt st' o' ->
  exists evs,
    trace st' = (trace st ++ evs ++ [Finalize])%list /\
    count is_finalize evs = 0 /\
    chunks_processed st' = num_chunks (data st) /\
    count is_state_write evs = num_chunks (data st) - chunks_processed st /\
    data st' = data st /\
    chunks_processed st < chunks_processed st'.
Proof.
  revert st o. induction fuel as [|fuel IH]; intros st o H; simpl in H;
    [discriminate|].
  destruct (iteration st o) as [b st1 o1|e st1|st1] eqn:It;
    [|discriminate|discriminate].
  apply iteration_done in It
    as (evs & cur & cs & T & Cs & Cf & Cp & D & N & Ch & Fr & Hb).
  destruct b.
  - injection H as <- <-. simpl.
    exists (evs ++ [SetState cur "w"])%list.
    symmetry in Hb. apply Z.eqb_eq in Hb.
    split; [rewrite T, <- !app_assoc; reflexivity|].
    split; [rewrite count_app, Cf; reflexivity|].
    split; [congruence|].
    split.
    { rewrite count_app, Cs.
      change (count is_state_write [SetState cur "w"]) with 1.
      rewrite <- D, <- Hb. lia. }
    split; [exact D|lia].
  - apply IH in H as (evs' & T' & Cf' & Ch' & Cs' & D' & Lt').
    exists (evs ++ [SetState cur "w"] ++ evs')%list.
    split; [rewrite T', T, <- !app_assoc; reflexivity|].
    split; [rewrite !count_app, Cf, Cf'; reflexivity|].
    split; [congruence|].
    split.
    { rewrite !count_app, Cs, Cs'.
      change (count is_state_write [SetState cur "w"]) with 1.
      rewrite D, Ch. lia. }
    split; [congruence|lia].
Qed.

(** X15.  When [run] returns, the coordinator has processed exactly as many
    chunks as the data has: it wrote one state tag per processed chunk,
    and it set the finalize flag once, as the last thing it did, after the
    barrier of the last chunk. *)
Theorem run_finalizes_after_all_chunks fuel st o st' o' :
  run fuel st o = Done tt st' o' ->
  exists evs,
    trace st' = (trace st ++ evs ++ [Finalize])%list /\
    count is_finalize evs = 0 /\
    chunks_processed st' = num_chunks (data st) /\
    count is_state_write evs = num_chunks (data st) - chunks_processed st /\
    data st' = data st.
Proof.
  intros H. apply run_done in H as (evs & T & Cf & Ch & Cs & D & _).
  exists evs. repeat split; assumption.
Qed.

(** X16.  The loop ends on equality, tested after the counter is
    incremented.  Started with a count that is not below the number of
    chunks -- a dataset without any chunk is the case at start-up -- [run]
    never reaches the shutdown: whatever the other processes do and however
    many turns the loop takes, it does not return. *)
Theorem run_without_chunks_never_returns fuel st o :
  num_chunks (data st) <= chunks_processed st ->
  forall u st' o', run fuel st o <> Done u st' o'.
Proof.
  intros Hle [] st' o' H.
  apply run_done in H as (_ & _ & _ & Ch & _ & _ & Lt). lia.
Qed.

End RunFacts.

Section CoordinatorWitnesses.
Import Py Manager Traces.

Lemma scan_claims_lowest_ready_slot_witness :
  scan scenario_start 0 0 (repeat (scenario_world [0; 0]) 3) =
  Done 1 scenario_start [scenario_world [0; 0]].
Proof.
  apply (scan_claims_lowest_ready_slot
           scenario_start (scenario_world [0; 0]) 1 3).
  - reflexivity.
  - split; [reflexivity|].
    intros i Hi. destruct i; [discriminate|lia].
  - lia.
Defined.

Lemma scan_sleeps_once_per_idle_pass_witness :
  scan scenario_start 0 0 (repeat idle_world 5) =
  Blocked (emit scenario_start [Sleep 100; Sleep 100]).
Proof.
  apply (scan_sleeps_once_per_idle_pass scenario_start idle_world 5).
  - reflexivity.
  - simpl. lia.
  - intros i. destruct i as [|[|i]]; simpl; try discriminate.
    destruct i; discriminate.
Defined.

Lemma run_finalizes_after_all_chunks_witness :
  exists evs,
    trace (final (run 2 scenario_start full_scenario)) =
    (evs ++ [Finalize])%list /\
    count is_finalize evs = 0 /\ count is_state_write evs = 2.
Proof.
  destruct (run_finalizes_after_all_chunks
              2 scenario_start full_scenario
              (final (run 2 scenario_start full_scenario)) [] eq_refl)
    as (evs & T & Cf & _ & Cs & _).
  exists evs. split; [exact T|]. split; [exact Cf|exact Cs].
Defined.

Lemma run_without_chunks_never_returns_witness :
  match run 3 empty_start full_scenario with
  | Done _ _ _ => False
  | _ => True
  end.
Proof.
  destruct (run 3 empty_start full_scenario) as [u st' o'|e st'|st'] eqn:E;
    [|exact I|exact I].
  apply (run_without_chunks_never_returns 3 empty_start full_scenario
           ltac:(vm_compute; discriminate) u st' o' E).
Defined.

End CoordinatorWitnesses.

(* ================================================================== *)
(** * The background series: kernel size, assignment and writing *)
(* ================================================================== *)

From Stdlib Require Import Lqa.

Section SeriesFacts.
Import Py SparseMed Series.

Lemma length_fill l : forall pos a b v, length (fill l pos a b v) = length l.
Proof.
  induction l as [|x l IH]; intros pos a b v; simpl; [reflexivity|].
  rewrite IH. reflexivity.
Qed.

Lemma nth_fill l : forall pos a b v p,
  (p < length l)%nat ->
  nth p (fill l pos a b v) 0 =
  if (a <=? pos + p)%nat && (pos + p <? b)%nat then v else nth p l 0.
Proof.
  induction l as [|x l IH]; intros pos a b v p Hp; simpl in Hp; [lia|].
  destruct p as [|p]; simpl.
  - rewrite Nat.add_0_r. reflexivity.
  - rewrite IH by lia. replace (S pos + p)%nat with (pos + S p)%nat by lia.
    reflexivity.
Qed.

Lemma argmin_from_keeps best_i best i l :
  Forall (fun y => (best <= y)%Q) l -> argmin_from best_i best i l = best_i.
Proof.
  revert i. induction l as [|y l IH]; intros i F; simpl; [reflexivity|].
  inversion F as [|? ? Hy F']; subst.
  replace (Qltb y best) with false.
  - apply IH. exact F'.
  - symmetry. unfold Qltb. apply negb_false_iff. apply Qle_bool_iff. exact Hy.
Qed.

Lemma argmin_total (l : list Q) :
  l <> [] -> exists r : nat, argmin l = inl (Z.of_nat r) /\ (r < length l)%nat.
Proof.
  intros H. destruct (argmin_spec l H) as (r & E & Hr & _).
  exists r. split; assumption.
Qed.

(** What the window of [process_second] is, by the size of the kernel. *)
Lemma window_cases bg second :
  time bg <> [] -> length (time bg) = length (input_data bg) ->
  exists r : nat,
    (r < length (time bg))%nat /\
    window bg second =
    if kernel_size bg >? event_count bg then inr (AssertionError "")
    else let a := if Z.of_nat r + kernel_size bg >=? event_count bg
                  then event_count bg - kernel_size bg else Z.of_nat r in
         inl (a, a + kernel_size bg).
Proof.
  intros Hne Hlen.
  destruct (argmin_total (map (fun t => Qabs (second - t)) (time bg)))
    as (r & E & Hr).
  { destruct (time bg); [congruence|discriminate]. }
  rewrite length_map in Hr. exists r. split; [exact Hr|].
  unfold window. rewrite E. cbn [bind]. unfold event_count.
  destruct (Z.gtb_spec (kernel_size bg) (Z.of_nat (length (input_data bg))))
    as [G|G].
  - replace (Z.of_nat r + kernel_size bg >=? Z.of_nat (length (input_data bg)))
      with true by (symmetry; rewrite Z.geb_leb; apply Z.leb_le; lia).
    replace (Z.of_nat (length (input_data bg))
             - Z.max 0 (Z.of_nat (length (input_data bg)) - kernel_size bg)
             =? kernel_size bg) with false
      by (symmetry; apply Z.eqb_neq; lia).
    reflexivity.
  - cbv zeta.
    destruct (Z.of_nat r + kernel_size bg >=? Z.of_nat (length (input_data bg))).
    + replace (Z.of_nat (length (input_data bg))
               - Z.max 0 (Z.of_nat (length (input_data bg)) - kernel_size bg)
               =? kernel_size bg) with true
        by (symmetry; apply Z.eqb_eq; lia).
      f_equal. f_equal; lia.
    + replace (Z.of_nat r + kernel_size bg - Z.of_nat r =? kernel_size bg)
        with true by (symmetry; apply Z.eqb_eq; lia).
      reflexivity.
Qed.

(** X17.  The assertion of [process_second] fails exactly when the kernel
    is larger than the number of frames, and then for every time stamp;
    with the kernel size that [__init__] stores -- cut down to the number
    of frames -- it never fails, whatever kernel size was asked for, and
    the window has exactly the stored number of frames. *)
Theorem kernel_clamp_guards_assertion bg second :
  time bg <> [] -> length (time bg) = length (input_data bg) ->
  (window bg second = inr (AssertionError "")
   <-> event_count bg < kernel_size bg) /\
  (forall out order, event_count bg < kernel_size bg ->
     process_second bg out second order = inr (AssertionError "")) /\
  (forall requested,
     let stored := clamp_kernel_size requested (input_data bg) in
     exists a,
       window (mk (input_data bg) (image_shape bg) stored (split_time bg)
                  (time bg) (step_times bg)) second
       = inl (a, a + stored)).
Proof.
  intros Hne Hlen.
  destruct (window_cases bg second Hne Hlen) as (r & Hr & W).
  assert (Big : event_count bg < kernel_size bg ->
                window bg second = inr (AssertionError "")).
  { intros G. rewrite W.
    replace (kernel_size bg >? event_count bg) with true
      by (symmetry; apply Z.gtb_lt; lia).
    reflexivity. }
  split; [split|split].
  - intros H. rewrite W in H.
    destruct (Z.gtb_spec (kernel_size bg) (event_count bg)) as [G|G];
      [lia|discriminate].
  - exact Big.
  - intros out order G. unfold process_second. rewrite (Big G). reflexivity.
  - intros requested stored.
    destruct (window_cases
                (mk (input_data bg) (image_shape bg) stored (split_time bg)
                    (time bg) (step_times bg)) second Hne Hlen)
      as (r' & _ & W').
    rewrite W'. cbn [kernel_size]. unfold event_count. cbn [input_data].
    replace (stored >? Z.of_nat (length (input_data bg))) with false.
    + eexists. reflexivity.
    + symmetry. rewrite Z.gtb_ltb. apply Z.ltb_ge.
      unfold stored, clamp_kernel_size.
      destruct (Z.gtb_spec requested (Z.of_nat (length (input_data bg)))); lia.
Qed.

(** The loop of the assignment: what it returns and what it leaves in the
    index array.  [lo] bounds the entries written from below. *)
Lemma assign_loop_spec time split (lo : Z) :
  time <> [] ->
  forall steps ii (idx0 : nat) idx1 bg_idx,
    lo <= ii ->
    (forall p, (p < idx0)%nat -> (p < length bg_idx)%nat ->
               lo <= nth p bg_idx 0) ->
    exists out idx1' (k : nat),
      assign_loop time split steps ii idx0 idx1 bg_idx
      = inl (out, idx1', ii + Z.of_nat (length steps) - 1) /\
      length out = length bg_idx /\
      (forall p, (p < length out)%nat ->
         nth p out 0 = nth p bg_idx 0 \/
         ii <= nth p out 0 < ii + Z.of_nat (length steps)) /\
      (steps = [] -> idx1' = idx1 /\ k = idx0) /\
      (steps <> [] -> idx1' = Some k /\ (k < length time)%nat) /\
      (forall p, (p < k)%nat -> (p < length out)%nat -> lo <= nth p out 0).
Proof.
  intros Hne. induction steps as [|t1 steps IH];
    intros ii idx0 idx1 bg_idx Hlo Hfilled.
  - exists bg_idx, idx1, idx0. simpl.
    split; [do 3 f_equal; lia|]. split; [reflexivity|].
    split; [intros p _; left; reflexivity|].
    split; [intros _; split; reflexivity|].
    split; [congruence|]. exact Hfilled.
  - destruct (argmin_total (map (fun t => Qabs (t - t1 + split / 2)) time))
      as (r & E & Hr).
    { destruct time; [congruence|discriminate]. }
    rewrite length_map in Hr.
    cbn [assign_loop]. rewrite E. cbn [bind]. rewrite Nat2Z.id.
    destruct (IH (ii + 1) r (Some r) (fill bg_idx 0 idx0 r ii))
      as (out & idx1' & k & L & Len & Val & Nil & Cons & Fil).
    { lia. }
    { intros p Hp Hp'. rewrite length_fill in Hp'.
      rewrite nth_fill by exact Hp'. simpl.
      destruct ((idx0 <=? p)%nat && (p <? r)%nat) eqn:C; [lia|].
      apply Hfilled; [|exact Hp'].
      apply andb_false_iff in C as [C|C].
      - apply Nat.leb_gt in C. exact C.
      - apply Nat.ltb_ge in C. lia. }
    rewrite length_fill in Len.
    exists out, idx1'.
    assert (K : exists k', idx1' = Some k' /\ (k' < length time)%nat /\
                (forall p, (p < k')%nat -> (p < length out)%nat ->
                           lo <= nth p out 0)).
    { destruct steps as [|t2 steps'].
      - destruct (Nil eq_refl) as [-> ->]. exists r. repeat split; assumption.
      - destruct (Cons ltac:(discriminate)) as [-> Hk]. exists k.
        repeat split; assumption. }
    destruct K as (k' & -> & Hk' & Fil').
    exists k'.
    split.
    { rewrite L. do 3 f_equal. cbn [length]. lia. }
    split; [exact Len|].
    split.
    { intros p Hp. cbn [length].
      destruct (Val p Hp) as [V|V].
      - rewrite V. rewrite nth_fill by lia. simpl.
        destruct ((idx0 <=? p)%nat && (p <? r)%nat); [right; lia|left; reflexivity].
      - right. lia. }
    split; [discriminate|].
    split; [intros _; split; [reflexivity|exact Hk']|].
    exact Fil'.
Qed.

Lemma nth_repeat_zero (n p : nat) : nth p (repeat 0 n) 0 = 0.
Proof.
  revert p. induction n as [|n IH]; intros [|p]; simpl; try reflexivity.
  apply IH.
Qed.

(** The assignment on a non-empty series, from the result of its loop. *)
Lemma assign_spec time split steps :
  time <> [] -> steps <> [] ->
  exists out (k : nat),
    assign time split steps
    = inl (fill out 0 k (length out) (Z.of_nat (length steps) - 1)) /\
    length out = length time /\ (k < length time)%nat /\
    (forall p, (p < length out)%nat ->
       0 <= nth p out 0 < Z.of_nat (length steps)).
Proof.
  intros Hne Hs.
  destruct (assign_loop_spec time split 0 Hne steps 0 0%nat None
              (repeat 0 (length time)) (Z.le_refl 0))
    as (out & idx1' & k & L & Len & Val & _ & Cons & _).
  { intros p Hp. lia. }
  destruct (Cons Hs) as [-> Hk].
  rewrite repeat_length in Len.
  exists out, k. unfold assign. rewrite L. cbn [bind].
  split; [reflexivity|]. split; [exact Len|]. split; [exact Hk|].
  intros p Hp. destruct (Val p Hp) as [V|V].
  - rewrite V, nth_repeat_zero. destruct steps; [congruence|]. simpl. lia.
  - lia.
Qed.

(** X18.  For a non-empty series the assignment gives every frame an index
    into the series -- one entry per frame, each between 0 and the number
    of images less one -- and the last frame always gets the last image. *)
Theorem assignment_indexes_the_series time split steps :
  time <> [] -> steps <> [] ->
  exists bg_idx,
    assign time split steps = inl bg_idx /\
    length bg_idx = length time /\
    Forall (fun v => 0 <= v < Z.of_nat (length steps)) bg_idx /\
    nth (length time - 1) bg_idx 0 = Z.of_nat (length steps) - 1.
Proof.
  intros Hne Hs.
  destruct (assign_spec time split steps Hne Hs)
    as (out & k & E & Len & Hk & Val).
  exists (fill out 0 k (length out) (Z.of_nat (length steps) - 1)).
  assert (Hn : (0 < length steps)%nat)
    by (destruct steps; [congruence|simpl; lia]).
  split; [exact E|]. split; [rewrite length_fill; exact Len|]. split.
  - apply Forall_forall. intros v Hv.
    apply (In_nth _ _ 0) in Hv as (p & Hp & <-).
    rewrite length_fill in Hp. rewrite nth_fill by exact Hp. simpl.
    destruct ((k <=? p)%nat && (p <? length out)%nat); [lia|].
    apply Val. exact Hp.
  - rewrite nth_fill by lia. simpl.
    replace ((k <=? length time - 1)%nat) with true
      by (symmetry; apply Nat.leb_le; lia).
    replace ((length time - 1 <? length out)%nat) with true
      by (symmetry; apply Nat.ltb_lt; lia).
    reflexivity.
Qed.

Lemma argmin_first_frame t0 time' split s0 :
  Forall (fun t => (t0 <= t)%Q) time' ->
  (s0 - split / 2 <= t0)%Q ->
  argmin (map (fun t => Qabs (t - s0 + split / 2)) (t0 :: time')) = inl 0.
Proof.
  intros F H. cbn [map argmin].
  rewrite argmin_from_keeps; [reflexivity|].
  apply Forall_forall. intros y Hy.
  apply in_map_iff in Hy as (t & <- & Ht).
  rewrite Forall_forall in F. specialize (F t Ht).
  rewrite !Qabs_pos by lra. lra.
Qed.

(** The assignment when the first frame is the earliest and the series
    starts at most half a split after it. *)
Lemma assign_skips_first_image t0 time' split s0 rest :
  Forall (fun t => (t0 <= t)%Q) time' ->
  (s0 - split / 2 <= t0)%Q ->
  rest <> [] ->
  exists bg_idx,
    assign (t0 :: time') split (s0 :: rest) = inl bg_idx /\
    length bg_idx = S (length time') /\
    Forall (fun v => 1 <= v <= Z.of_nat (length rest)) bg_idx.
Proof.
  intros F H Hrest.
  pose proof (argmin_first_frame t0 time' split s0 F H) as A.
  set (time := t0 :: time') in *.
  assert (Hne : time <> []) by discriminate.
  destruct (assign_loop_spec time split 1 Hne rest (0 + 1) 0%nat (Some 0%nat)
              (fill (repeat 0 (length time)) 0 0 0 0) ltac:(lia))
    as (out & idx1' & k & L & Len & Val & _ & Cons & Fil).
  { intros p Hp. lia. }
  destruct (Cons Hrest) as [-> Hk].
  rewrite length_fill, repeat_length in Len.
  exists (fill out 0 k (length out) (Z.of_nat (length rest))).
  split.
  { unfold assign. cbn [assign_loop]. rewrite A. cbn [bind].
    change (Z.to_nat 0) with 0%nat. rewrite L. cbn [bind].
    do 2 f_equal. lia. }
  split; [rewrite length_fill; exact Len|].
  assert (Hn : (0 < length rest)%nat)
    by (destruct rest; [congruence|simpl; lia]).
  apply Forall_forall. intros v Hv.
  apply (In_nth _ _ 0) in Hv as (p & Hp & <-).
  rewrite length_fill in Hp. rewrite nth_fill by exact Hp. simpl.
  destruct (Nat.leb_spec k p) as [C|C]; simpl.
  - replace ((p <? length out)%nat) with true
      by (symmetry; apply Nat.ltb_lt; exact Hp).
    lia.
  - pose proof (Fil p C Hp) as Lo.
    destruct (Val p Hp) as [V|V]; [|lia].
    rewrite V in Lo. rewrite nth_fill in Lo
      by (rewrite repeat_length; lia).
    rewrite nth_repeat_zero in Lo.
    destruct ((0 <=? 0 + p)%nat && (0 + p <? 0)%nat) in Lo; lia.
Qed.

(** X19.  Let the first frame be the earliest one and let the first time
    stamp of the series lie at most half a [split_time] after it -- in the
    object both are 0.  With two or more images in the series, no frame is
    assigned image 0: every frame gets one of the later images. *)
Theorem first_image_is_never_assigned t0 time' split s0 rest :
  Forall (fun t => (t0 <= t)%Q) time' ->
  (s0 - split / 2 <= t0)%Q ->
  rest <> [] ->
  exists bg_idx,
    assign (t0 :: time') split (s0 :: rest) = inl bg_idx /\
    length bg_idx = S (length time') /\
    Forall (fun v => 1 <= v <= Z.of_nat (length rest)) bg_idx.
Proof. apply assign_skips_first_image. Qed.



Lemma np_take_in_range {A : Type} (a : list A) (idx : list Z) :
  Forall (fun v => 0 <= v < Z.of_nat (length a)) idx ->
  exists values,
    np_take a idx = inl values /\
    Forall2 (fun i x => nth_error a (Z.to_nat i) = Some x) idx values.
Proof.
  induction 1 as [|i idx Hi F (values & E & V)].
  - exists []. split; [reflexivity|constructor].
  - destruct (nth_error a (Z.to_nat i)) as [x|] eqn:N.
    2:{ apply nth_error_None in N. lia. }
    exists (x :: values). split.
    + cbn [np_take]. unfold np_getitem.
      replace (i <? 0) with false by (symmetry; apply Z.ltb_ge; lia).
      replace ((0 <=? i) && (i <? Z.of_nat (length a))) with true
        by (symmetry; apply andb_true_iff; split;
            [apply Z.leb_le|apply Z.ltb_lt]; lia).
      rewrite N. cbn [bind]. rewrite E. reflexivity.
    + constructor; assumption.
Qed.

(** The write loop from position [pos] on, for indices into the series. *)
Lemma write_loop_spec {A : Type} (bg_images : list A) (bg_idx : list Z) :
  Forall (fun v => 0 <= v < Z.of_nat (length bg_images)) bg_idx ->
  forall fuel pos,
    0 <= pos -> (Z.to_nat (Z.of_nat (length bg_idx) - pos) <= fuel)%nat ->
    exists ws,
      write_loop fuel bg_images bg_idx (Z.of_nat (length bg_idx)) pos
      = (ws, None) /\
      Forall2 (fun i x => nth_error bg_images (Z.to_nat i) = Some x)
              (skipn (Z.to_nat pos) bg_idx) (concat (map w_values ws)) /\
      Z.of_nat (length ws)
      = Z.max 0 ((Z.of_nat (length bg_idx) - pos + 999) / 1000) /\
      (forall (k : nat) w, nth_error ws k = Some w ->
         w_start w = pos + 1000 * Z.of_nat k /\
         w_stop w = Z.min (w_start w + 1000) (Z.of_nat (length bg_idx)) /\
         Z.of_nat (length (w_values w)) = w_stop w - w_start w).
Proof.
  intros F. set (ec := Z.of_nat (length bg_idx)).
  induction fuel as [|fuel IH]; intros pos Hpos Hfuel.
  - exists []. simpl.
    split; [reflexivity|]. split.
    { rewrite skipn_all2 by lia. constructor. }
    split.
    { assert ((ec - pos + 999) / 1000 <= 0); [|lia].
      assert (ec - pos + 999 < 1000 * 1) by lia.
      pose proof (Z.div_lt_upper_bound (ec - pos + 999) 1000 1 ltac:(lia) H).
      lia. }
    intros [|k] w; discriminate.
  - cbn [write_loop]. destruct (Z.ltb_spec pos ec) as [Lt|Ge].
    + set (stop := Z.min (pos + 1000) ec).
      assert (Es : slice bg_idx pos stop
                   = firstn (Z.to_nat (stop - pos)) (skipn (Z.to_nat pos) bg_idx)).
      { replace stop with (pos + (stop - pos)) at 1 by lia.
        apply slice_window; unfold stop; fold ec; lia. }
      destruct (np_take_in_range bg_images (slice bg_idx pos stop))
        as (values & E & V).
      { rewrite Es. apply Forall_forall. intros v Hv.
        apply in_firstn, in_skipn in Hv.
        rewrite Forall_forall in F. apply F. exact Hv. }
      rewrite E.
      destruct (IH (pos + 1000) ltac:(lia) ltac:(lia))
        as (ws & L & C & N & W).
      rewrite L. exists (mk_write pos stop values :: ws).
      split; [reflexivity|].
      assert (Lv : length values = Z.to_nat (stop - pos)).
      { rewrite <- (Forall2_length V), Es, length_firstn, length_skipn.
        unfold stop. fold ec. lia. }
      split.
      { cbn [map concat w_values].
        rewrite <- (firstn_skipn (Z.to_nat (stop - pos))
                      (skipn (Z.to_nat pos) bg_idx)).
        apply Forall2_app.
        - rewrite <- Es. exact V.
        - rewrite skipn_skipn.
          destruct (Z_le_dec (pos + 1000) ec) as [In|Out].
          + replace (Z.to_nat (stop - pos) + Z.to_nat pos)%nat
              with (Z.to_nat (pos + 1000)) by (unfold stop; lia).
            exact C.
          + rewrite skipn_all2 by (unfold stop; fold ec; lia).
            rewrite skipn_all2 in C by (fold ec; lia).
            exact C. }
      split.
      { cbn [length]. rewrite Nat2Z.inj_succ, N.
        replace (ec - pos + 999) with (ec - (pos + 1000) + 999 + 1 * 1000)
          by lia.
        rewrite Z.div_add by lia.
        assert (0 <= (ec - (pos + 1000) + 999) / 1000).
        { apply Z.div_pos; lia. }
        assert (-1 <= (ec - (pos + 1000) + 999) / 1000); [|lia].
        apply Z.div_le_lower_bound; lia. }
      intros [|k] w Hw.
      * injection Hw as <-. cbn [w_start w_stop w_values].
        unfold stop. fold ec. lia.
      * destruct (W k w Hw) as (W1 & W2 & W3).
        split; [lia|]. split; assumption.
    + exists []. split; [reflexivity|]. split.
      { rewrite skipn_all2 by (fold ec; lia). constructor. }
      split.
      { assert ((ec - pos + 999) / 1000 <= 0); [|simpl; lia].
        assert (ec - pos + 999 < 1000 * 1) by lia.
        pose proof (Z.div_lt_upper_bound (ec - pos + 999) 1000 1 ltac:(lia) H).
        lia. }
      intros [|k] w; discriminate.
Qed.

(** X20.  Given an index into the series for every frame, the write loop
    stores for every frame the image its index names: the batches are
    consecutive runs of 1000 frames (the last one shorter), as many as
    needed and in order, and together they hold one image per frame. *)
Theorem batches_write_every_frame {A : Type} (bg_images : list A)
  (bg_idx : list Z) :
  Forall (fun v => 0 <= v < Z.of_nat (length bg_images)) bg_idx ->
  exists ws,
    write_background bg_images bg_idx (Z.of_nat (length bg_idx)) = (ws, None) /\
    Forall2 (fun i x => nth_error bg_images (Z.to_nat i) = Some x)
            bg_idx (concat (map w_values ws)) /\
    Z.of_nat (length ws) = (Z.of_nat (length bg_idx) + 999) / 1000 /\
    (forall (k : nat) w, nth_error ws k = Some w ->
       w_start w = 1000 * Z.of_nat k /\
       w_stop w = Z.min (w_start w + 1000) (Z.of_nat (length bg_idx)) /\
       Z.of_nat (length (w_values w)) = w_stop w - w_start w).
Proof.
  intros F.
  destruct (write_loop_spec bg_images bg_idx F
              (Z.to_nat (Z.of_nat (length bg_idx))) 0 (Z.le_refl 0)
              ltac:(lia))
    as (ws & L & C & N & W).
  exists ws. split; [exact L|]. split; [exact C|]. split.
  - rewrite N, Z.sub_0_r.
    assert (0 <= (Z.of_nat (length bg_idx) + 999) / 1000)
      by (apply Z.div_pos; lia).
    lia.
  - intros k w Hw. destruct (W k w Hw) as (W1 & W2 & W3).
    split; [lia|]. split; assumption.
Qed.

(** X21.  A series without images -- the time stamps span no time, as for
    a single frame -- cannot be written: every frame is assigned index 0,
    and the first batch fails with [IndexError] before anything is
    written. *)
Theorem empty_series_cannot_be_written {A : Type} time split d :
  time <> [] ->
  duration time = inl d -> (d <= 0)%Q -> (0 < split)%Q ->
  arange d split = [] /\
  assign time split (arange d split) = inl (repeat 0 (length time)) /\
  assign_and_write time split (arange d split) (@nil A)
  = ([], Some (IndexError (np_index_msg 0 0))).
Proof.
  intros Hne _ Hd Hs.
  assert (E : arange d split = []).
  { unfold arange.
    assert (Qceiling (d / split) <= 0)%Z; [|replace (Z.to_nat _) with 0%nat by lia; reflexivity].
    change 0%Z with (Qceiling 0).
    apply Qceiling_resp_le.
    apply Qle_shift_div_r; [exact Hs|]. lra. }
  split; [exact E|]. rewrite E.
  split; [reflexivity|].
  unfold assign_and_write. cbn.
  destruct time as [|t time']; [congruence|].
  unfold write_background. cbn [length repeat].
  rewrite Nat2Z.id. cbn [write_loop].
  replace (0 <? Z.of_nat (S (length time'))) with true
    by (symmetry; apply Z.ltb_lt; lia).
  assert (Es : exists rest,
             slice (0 :: repeat 0 (length time')) 0
                   (Z.min (0 + 1000) (Z.of_nat (S (length time'))))
             = 0 :: rest).
  { change (Z.min (0 + 1000) (Z.of_nat (S (length time'))))
      with (0 + Z.min (0 + 1000) (Z.of_nat (S (length time')))).
    rewrite (slice_window (0 :: repeat 0 (length time')) 0
               (Z.min (0 + 1000) (Z.of_nat (S (length time')))))
      by (cbn [length]; rewrite ?repeat_length; lia).
    destruct (Z.to_nat (Z.min (0 + 1000) (Z.of_nat (S (length time')))))
      as [|n] eqn:N; [lia|].
    simpl. eexists. reflexivity. }
  destruct Es as (rest & ->). reflexivity.
Qed.

End SeriesFacts.

Section SeriesWitnesses.
Import Py SparseMed Series.

Lemma kernel_clamp_guards_assertion_witness :
  window two_frames 0 = inr (AssertionError "")
  <-> event_count two_frames < kernel_size two_frames.
Proof.
  apply (kernel_clamp_guards_assertion two_frames 0).
  - discriminate.
  - reflexivity.
Defined.

Lemma assignment_indexes_the_series_witness :
  exists bg_idx,
    assign ten_seconds 4 [0; 4; 8]%Q = inl bg_idx /\
    nth 9 bg_idx 0 = 2.
Proof.
  destruct (assignment_indexes_the_series ten_seconds 4 [0; 4; 8]%Q)
    as (bg_idx & E & _ & _ & L).
  - discriminate.
  - discriminate.
  - exists bg_idx. split; [exact E|exact L].
Defined.

Lemma first_image_is_never_assigned_witness :
  exists bg_idx,
    assign [0; 1; 2]%Q 4 [0; 4]%Q = inl bg_idx /\
    Forall (fun v => 1 <= v <= 1) bg_idx.
Proof.
  destruct (first_image_is_never_assigned 0 [1; 2]%Q 4 0 [4]%Q)
    as (bg_idx & E & _ & F).
  - repeat constructor; vm_compute; discriminate.
  - vm_compute. discriminate.
  - discriminate.
  - exists bg_idx. split; [exact E|exact F].
Defined.


Lemma batches_write_every_frame_witness :
  exists ws,
    write_background [10; 20] [1; 0; 1] 3 = (ws, None) /\
    Z.of_nat (length ws) = 1.
Proof.
  destruct (batches_write_every_frame [10; 20] [1; 0; 1])
    as (ws & E & _ & N & _).
  - repeat constructor; simpl; lia.
  - exists ws. split; [exact E|exact N].
Defined.

Lemma empty_series_cannot_be_written_witness :
  assign_and_write [5]%Q 1 (arange (5 - 5) 1) (@nil Z)
  = ([], Some (IndexError (np_index_msg 0 0))).
Proof.
  apply (fun H => proj2 (proj2 (empty_series_cannot_be_written
                                  (A := Z) [5]%Q 1 (5 - 5)%Q H eq_refl
                                  ltac:(vm_compute; discriminate)
                                  ltac:(reflexivity)))).
  discriminate.
Defined.

End SeriesWitnesses.

(* ================================================================== *)
(** * [md5sum]: which bytes are hashed *)
(* ================================================================== *)

Section Md5Facts.
Import Py Md5.

(** The loop with a positive block size, from any turn on. *)
Lemma feed_blocks (blocksize count : Z) :
  0 < blocksize ->
  forall fuel rest hashed ii,
    0 <= ii -> (count <= 0 \/ ii < count) ->
    (length rest < fuel)%nat ->
    feed fuel rest hashed blocksize count ii =
    (hashed ++ (if 0 <? count
                then firstn (Z.to_nat ((count - ii) * blocksize)) rest
                else rest))%list.
Proof.
  intros Hb. induction fuel as [|fuel IH]; intros rest hashed ii Hi Hc Hf;
    [lia|].
  cbn [feed]. unfold read.
  replace (blocksize <? 0) with false by (symmetry; apply Z.ltb_ge; lia).
  destruct rest as [|x rest].
  - rewrite firstn_nil. cbn [length]. simpl.
    destruct (0 <? count); rewrite ?firstn_nil, app_nil_r; reflexivity.
  - set (l := x :: rest) in *.
    assert (Hbuf : (0 < length (firstn (Z.to_nat blocksize) l))%nat).
    { rewrite length_firstn. unfold l. cbn [length]. lia. }
    replace (Z.of_nat (length (firstn (Z.to_nat blocksize) l)) >? 0) with true
      by (symmetry; apply Z.gtb_lt; lia).
    destruct (Z.eqb_spec (ii + 1) count) as [Last|More].
    + replace (negb (count =? 0)) with true
        by (symmetry; apply negb_true_iff, Z.eqb_neq; lia).
      cbn [andb].
      replace (0 <? count) with true by (symmetry; apply Z.ltb_lt; lia).
      replace ((count - ii) * blocksize) with blocksize by nia.
      reflexivity.
    + rewrite andb_false_r.
      rewrite IH.
      * rewrite <- app_assoc. f_equal.
        destruct (Z.ltb_spec 0 count) as [Pos|Neg].
        -- replace (Z.to_nat ((count - ii) * blocksize))
             with (Z.to_nat blocksize
                   + Z.to_nat ((count - (ii + 1)) * blocksize))%nat by nia.
           rewrite firstn_plus. reflexivity.
        -- apply firstn_skipn.
      * lia.
      * lia.
      * rewrite length_skipn. unfold l in *. cbn [length] in *. lia.
Qed.


(** X23.  With a positive block size and a positive [count], two files
    that agree on their first [count * blocksize] bytes have the same
    partial sum, whatever follows. *)
Theorem partial_sum_ignores_the_tail (hexdigest : bytes -> string)
  (head tail tail' : bytes) (blocksize count : Z) :
  0 < blocksize -> 0 < count ->
  Z.of_nat (length head) = count * blocksize ->
  md5sum hexdigest (head ++ tail) blocksize count
  = md5sum hexdigest (head ++ tail') blocksize count.
Proof.
  intros Hb Hc Hl. unfold md5sum. f_equal. unfold fed.
  rewrite !(feed_blocks blocksize count Hb) by (simpl; lia).
  replace (0 <? count) with true by (symmetry; apply Z.ltb_lt; lia).
  rewrite Z.sub_0_r.
  replace (Z.to_nat (count * blocksize)) with (length head + 0)%nat by lia.
  rewrite !firstn_app_2. reflexivity.
Qed.

Lemma partial_sum_ignores_the_tail_witness :
  md5sum string_of_list_byte
         [Byte.x61; Byte.x62; Byte.x63; Byte.x64; Byte.x78] 2 2
  = md5sum string_of_list_byte
           [Byte.x61; Byte.x62; Byte.x63; Byte.x64; Byte.x79; Byte.x7a] 2 2.
Proof.
  apply (partial_sum_ignores_the_tail
           string_of_list_byte
           [Byte.x61; Byte.x62; Byte.x63; Byte.x64]
           [Byte.x78] [Byte.x79; Byte.x7a] 2 2).
  - lia.
  - lia.
  - reflexivity.
Defined.

End Md5Facts.

(* ================================================================== *)
(** * Texture features: what is handed to mahotas, and what is caught *)
(* ================================================================== *)

Section TextureFacts.
Import Py Texture.

Lemma fold_min_spec (rest : list Z) : forall x,
  In (fold_left Z.min rest x) (x :: rest) /\
  forall v, In v (x :: rest) -> fold_left Z.min rest x <= v.
Proof.
  induction rest as [|y rest IH]; intros x; simpl.
  - split; [left; reflexivity|]. intros v [<-|[]]. lia.
  - destruct (IH (Z.min x y)) as [I L]. split.
    + destruct I as [I|I]; [|right; right; exact I].
      destruct (Z.min_spec x y) as [[_ E]|[_ E]]; rewrite E in *;
        [left|right; left]; exact I.
    + intros v Hv.
      assert (fold_left Z.min rest (Z.min x y) <= Z.min x y)
        by (apply L; left; reflexivity).
      destruct Hv as [<-|[<-|Hv]]; [lia|lia|].
      apply L. right. exact Hv.
Qed.

Lemma in_combine_r_ex {A B : Type} (a : list A) (b : list B) y :
  length a = length b -> In y b -> exists x, In (x, y) (combine a b).
Proof.
  revert b. induction a as [|x a IH]; intros [|y' b] L H; simpl in *;
    try lia; try tauto.
  destruct H as [<-|H].
  - exists x. left. reflexivity.
  - destruct (IH b ltac:(lia) H) as (x' & Hx). exists x'. right. exact Hx.
Qed.

Lemma same_dims_rows imcoi maski row mrow :
  same_dims imcoi maski = true -> In (row, mrow) (combine imcoi maski) ->
  length row = length mrow.
Proof.
  unfold same_dims. intros H I. apply andb_true_iff in H as [_ H].
  rewrite forallb_forall in H. specialize (H _ I). simpl in H.
  apply Nat.eqb_eq. exact H.
Qed.

(** The values selected by a mask are those of the pixels in it. *)
Lemma in_selected imcoi maski v :
  In v (flat_map (fun row => map fst (filter snd row)) (pixels imcoi maski))
  <-> exists prow, In prow (pixels imcoi maski) /\ In (v, true) prow.
Proof.
  rewrite in_flat_map. split.
  - intros (prow & Hp & Hv). exists prow. split; [exact Hp|].
    apply in_map_iff in Hv as ([v' m] & E & Hf). simpl in E. subst v'.
    apply filter_In in Hf as [Hin Hm]. simpl in Hm. subst m. exact Hin.
  - intros (prow & Hp & Hv). exists prow. split; [exact Hp|].
    apply in_map_iff. exists (v, true). split; [reflexivity|].
    apply filter_In. split; [exact Hv|reflexivity].
Qed.

Lemma nonempty_selected imcoi maski :
  same_dims imcoi maski = true -> nonempty maski ->
  exists v, In v (flat_map (fun row => map fst (filter snd row))
                           (pixels imcoi maski)).
Proof.
  intros D (mrow & Hm & Ht).
  assert (L : length imcoi = length maski).
  { unfold same_dims in D. apply andb_true_iff in D as [D _].
    apply Nat.eqb_eq. exact D. }
  destruct (in_combine_r_ex imcoi maski mrow L Hm) as (row & Hr).
  pose proof (same_dims_rows _ _ _ _ D Hr) as Lr.
  destruct (in_combine_r_ex row mrow true Lr Ht) as (v & Hv).
  exists v. apply in_selected. exists (combine row mrow). split; [|exact Hv].
  unfold pixels. apply in_map_iff. exists (row, mrow). split; [reflexivity|].
  exact Hr.
Qed.

Lemma empty_selected imcoi maski :
  ~ nonempty maski ->
  flat_map (fun row => map fst (filter snd row)) (pixels imcoi maski) = [].
Proof.
  intros N.
  destruct (flat_map _ _) as [|v l] eqn:E; [reflexivity|]. exfalso.
  assert (Hv : In v (flat_map (fun row => map fst (filter snd row))
                              (pixels imcoi maski)))
    by (rewrite E; left; reflexivity).
  apply in_selected in Hv as (prow & Hp & Hv).
  unfold pixels in Hp. apply in_map_iff in Hp as ([row mrow] & <- & Hc).
  simpl in Hv. apply N. exists mrow. split.
  - apply in_combine_r in Hc. exact Hc.
  - apply in_combine_r in Hv. exact Hv.
Qed.

(** X24.  For a mask of the image's shape with at least one pixel, the
    image handed to mahotas is 0 outside the mask and, inside it, the low
    8 bits of the pixel's value above the smallest value in the mask, plus
    1.  If the values in the mask span less than 255, nothing wraps: a
    pixel in the mask gets its value above the minimum plus 1, at least 1,
    and the zero pixels -- the ones mahotas ignores -- are exactly the
    pixels outside the mask. *)
Theorem preprocess_shifts_the_masked_pixels imcoi maski :
  same_dims imcoi maski = true -> nonempty maski ->
  exists values minval,
    select imcoi maski = inl values /\
    In minval values /\ (forall v, In v values -> minval <= v) /\
    preprocess imcoi maski =
      inl (map (map (fun vm : Z * bool =>
                       if snd vm then (fst vm - minval + 1) mod 256 else 0))
               (pixels imcoi maski)) /\
    ((forall v, In v values -> v - minval < 255) ->
     preprocess imcoi maski =
       inl (map (map (fun vm : Z * bool =>
                        if snd vm then fst vm - minval + 1 else 0))
                (pixels imcoi maski)) /\
     Forall (Forall (fun vm : Z * bool =>
                       snd vm = true -> 1 <= fst vm - minval + 1 <= 255))
            (pixels imcoi maski) /\
     Forall (Forall (fun vm : Z * bool =>
                       (if snd vm then fst vm - minval + 1 else 0) = 0
                       <-> snd vm = false))
            (pixels imcoi maski)).
Proof.
  intros D N.
  destruct (nonempty_selected imcoi maski D N) as (v0 & Hv0).
  unfold select, preprocess. unfold select. rewrite D.
  set (values := flat_map _ (pixels imcoi maski)) in *.
  destruct values as [|x rest] eqn:E; [destruct Hv0|].
  destruct (fold_min_spec rest x) as [Imin Lmin].
  exists (x :: rest), (fold_left Z.min rest x).
  split; [reflexivity|]. split; [exact Imin|]. split; [exact Lmin|].
  cbn [bind np_min].
  assert (P : forall f g : Z * bool -> Z,
             (forall prow vm, In prow (pixels imcoi maski) -> In vm prow ->
                              f vm = g vm) ->
             map (map f) (pixels imcoi maski) = map (map g) (pixels imcoi maski)).
  { intros f g H. apply map_ext_in. intros prow Hp.
    apply map_ext_in. intros vm Hvm. apply (H prow vm Hp Hvm). }
  split.
  { f_equal. apply P. intros prow [v m] _ _. simpl. unfold astype_uint8.
    destruct m; [rewrite Z.mul_1_r|rewrite Z.mul_0_r]; reflexivity. }
  intros Span.
  assert (Inside : forall prow v, In prow (pixels imcoi maski) ->
                     In (v, true) prow ->
                     1 <= v - fold_left Z.min rest x + 1 <= 255).
  { intros prow v Hp Hv.
    assert (Hin : In v (x :: rest)).
    { rewrite <- E. apply in_selected. exists prow. split; assumption. }
    specialize (Lmin v Hin). specialize (Span v Hin). lia. }
  split; [|split].
  - f_equal. apply P. intros prow [v m] Hp Hvm. simpl. unfold astype_uint8.
    destruct m; [rewrite Z.mul_1_r|rewrite Z.mul_0_r; reflexivity].
    apply Z.mod_small. specialize (Inside prow v Hp Hvm). lia.
  - apply Forall_forall. intros prow Hp. apply Forall_forall.
    intros [v m] Hvm. simpl. intros ->. apply (Inside prow v Hp Hvm).
  - apply Forall_forall. intros prow Hp. apply Forall_forall.
    intros [v m] Hvm. simpl. destruct m.
    + specialize (Inside prow v Hp Hvm). split; [lia|discriminate].
    + split; reflexivity.
Qed.

Lemma np_getitem_middle {A : Type} (pre : list A) x suf :
  np_getitem (pre ++ x :: suf) (Z.of_nat (length pre)) = inl x.
Proof.
  unfold np_getitem.
  replace (Z.of_nat (length pre) <? 0) with false
    by (symmetry; apply Z.ltb_ge; lia).
  replace ((0 <=? Z.of_nat (length pre))
           && (Z.of_nat (length pre) <? Z.of_nat (length (pre ++ x :: suf))))
    with true
    by (symmetry; apply andb_true_iff; split;
        [apply Z.leb_le|apply Z.ltb_lt; rewrite length_app; simpl]; lia).
  rewrite Nat2Z.id, nth_error_app2, Nat.sub_diag by lia. reflexivity.
Qed.

Section Loop.
Variable mh_haralick : image -> result (list Q).
Variable imcoi : image.

Let min_error : exn :=
  ValueError "zero-size array to reduction operation minimum which has no identity".

(** One event, for a call with one image for all masks. *)
Lemma event_features_middle pre maski suf :
  event_features mh_haralick [imcoi] (pre ++ maski :: suf)
                 (Z.of_nat (length pre)) =
  bind (preprocess imcoi maski) (fun imi =>
  match mh_haralick imi with
  | inl ret => inl (Some ret)
  | inr (ValueError _) => inl None
  | inr e => inr e
  end).
Proof.
  unfold event_features. rewrite np_getitem_middle. reflexivity.
Qed.

Lemma preprocess_empty maski :
  same_dims imcoi maski = true -> ~ nonempty maski ->
  preprocess imcoi maski = inr min_error.
Proof.
  intros D N. unfold preprocess, select. rewrite D.
  rewrite empty_selected by exact N. reflexivity.
Qed.

Lemma preprocess_nonempty maski :
  same_dims imcoi maski = true -> nonempty maski ->
  exists imi, preprocess imcoi maski = inl imi.
Proof.
  intros D N.
  destruct (nonempty_selected imcoi maski D N) as (v0 & Hv0).
  unfold preprocess, select. rewrite D.
  destruct (flat_map _ _) as [|x rest]; [destruct Hv0|].
  eexists. reflexivity.
Qed.

Lemma events_from_all suf :
  (forall img e, mh_haralick img = inr e -> exists msg, e = ValueError msg) ->
  forall pre,
    Forall (fun m => same_dims imcoi m = true /\ nonempty m) suf ->
    exists rows,
      events_from mh_haralick [imcoi] (pre ++ suf)
                  (map Z.of_nat (seq (length pre) (length suf))) = inl rows /\
      Forall2 (fun maski row =>
                 exists imi, preprocess imcoi maski = inl imi /\
                   row = match mh_haralick imi with
                         | inl ret => Some ret
                         | inr _ => None
                         end) suf rows.
Proof.
  intros Hmh. induction suf as [|maski suf IH]; intros pre F.
  - exists []. split; [reflexivity|constructor].
  - inversion F as [|? ? [D N] F']; subst.
    destruct (preprocess_nonempty maski D N) as (imi & Ei).
    destruct (IH (pre ++ [maski])%list F') as (rows & Er & Fr).
    rewrite <- app_assoc, length_app in Er. cbn [app length] in Er.
    replace (length pre + 1)%nat with (S (length pre)) in Er by lia.
    cbn [length seq map events_from].
    rewrite event_features_middle, Ei. cbn [bind].
    destruct (mh_haralick imi) as [ret|e] eqn:M.
    + cbn [bind]. rewrite Er. cbn [bind].
      exists (Some ret :: rows). split; [reflexivity|].
      constructor; [|exact Fr]. exists imi. rewrite M. split; [exact Ei|reflexivity].
    + destruct (Hmh imi e M) as (msg & ->). cbn [bind]. rewrite Er.
      cbn [bind]. exists (None :: rows). split; [reflexivity|].
      constructor; [|exact Fr]. exists imi. rewrite M. split; [exact Ei|reflexivity].
Qed.

Lemma events_from_empty_mask suf :
  forall pre,
    Forall (fun m => same_dims imcoi m = true) suf ->
    Exists (fun m => ~ nonempty m) suf ->
    is_exn (events_from mh_haralick [imcoi] (pre ++ suf)
              (map Z.of_nat (seq (length pre) (length suf)))) = true /\
    ((forall img e, mh_haralick img = inr e -> exists msg, e = ValueError msg) ->
     events_from mh_haralick [imcoi] (pre ++ suf)
       (map Z.of_nat (seq (length pre) (length suf))) = inr min_error).
Proof.
  induction suf as [|maski suf IH]; intros pre F X; [inversion X|].
  inversion F as [|? ? D F']; subst.
  cbn [length seq map events_from]. rewrite event_features_middle.
  assert (Rest : Exists (fun m => ~ nonempty m) suf ->
            is_exn (events_from mh_haralick [imcoi] (pre ++ maski :: suf)
                      (map Z.of_nat (seq (S (length pre)) (length suf)))) = true /\
            ((forall img e, mh_haralick img = inr e ->
                            exists msg, e = ValueError msg) ->
             events_from mh_haralick [imcoi] (pre ++ maski :: suf)
               (map Z.of_nat (seq (S (length pre)) (length suf)))
             = inr min_error)).
  { intros X'. specialize (IH (pre ++ [maski])%list F' X').
    rewrite <- app_assoc, length_app in IH. cbn [app length] in IH.
    replace (length pre + 1)%nat with (S (length pre)) in IH by lia.
    exact IH. }
  destruct (preprocess imcoi maski) as [imi|e] eqn:Ei.
  - assert (X' : Exists (fun m => ~ nonempty m) suf).
    { inversion X as [? ? N|? ? X']; subst; [|exact X'].
      rewrite (preprocess_empty maski D N) in Ei. discriminate. }
    destruct (Rest X') as [R1 R2]. cbn [bind]. split.
    + destruct (events_from _ _ _ _) as [rows|e']; [discriminate R1|].
      destruct (mh_haralick imi) as [ret|[]]; reflexivity.
    + intros Hmh. specialize (R2 Hmh).
      destruct (mh_haralick imi) as [ret|e] eqn:M.
      * cbn [bind]. rewrite R2. reflexivity.
      * destruct (Hmh imi e M) as (msg & ->). cbn [bind]. rewrite R2.
        reflexivity.
  - cbn [bind]. split; [reflexivity|]. intros _.
    assert (N : ~ nonempty maski).
    { intros N. destruct (preprocess_nonempty maski D N) as (imi & E).
      congruence. }
    rewrite (preprocess_empty maski D N) in Ei. congruence.
Qed.

End Loop.

(** X25.  The [try] does not cover the minimum: if one of the masks has no
    pixel, the call raises and no features are returned for any event --
    whatever mahotas does.  If mahotas raises nothing but [ValueError], the
    exception is the [ValueError] of the minimum of an empty selection. *)
Theorem empty_mask_ends_the_call (mh_haralick : image -> result (list Q))
  imcoi masks :
  Forall (fun m => same_dims imcoi m = true) masks ->
  Exists (fun m => ~ nonempty m) masks ->
  is_exn (haralick_texture_features mh_haralick [imcoi] masks) = true /\
  ((forall img e, mh_haralick img = inr e -> exists msg, e = ValueError msg) ->
   haralick_texture_features mh_haralick [imcoi] masks
   = inr (ValueError "zero-size array to reduction operation minimum which has no identity")).
Proof.
  intros F X. unfold haralick_texture_features, range. rewrite Nat2Z.id.
  exact (events_from_empty_mask mh_haralick imcoi masks [] F X).
Qed.

(** X26.  If every mask has the image's shape and at least one pixel, and
    mahotas raises nothing but [ValueError], the call returns one entry
    per mask, in order: the features mahotas computed on the preprocessed
    image, or nothing ([nan] stays) for exactly the events for which
    mahotas raised; the other events are not affected. *)
Theorem caught_errors_leave_nan (mh_haralick : image -> result (list Q))
  imcoi masks :
  (forall img e, mh_haralick img = inr e -> exists msg, e = ValueError msg) ->
  Forall (fun m => same_dims imcoi m = true /\ nonempty m) masks ->
  exists rows,
    haralick_texture_features mh_haralick [imcoi] masks = inl rows /\
    Forall2 (fun maski row =>
               exists imi, preprocess imcoi maski = inl imi /\
                 row = match mh_haralick imi with
                       | inl ret => Some ret
                       | inr _ => None
                       end) masks rows.
Proof.
  intros Hmh F. unfold haralick_texture_features, range. rewrite Nat2Z.id.
  exact (events_from_all mh_haralick imcoi masks Hmh [] F).
Qed.

End TextureFacts.

Section TextureWitnesses.
Import Py Texture.

Lemma preprocess_shifts_the_masked_pixels_witness :
  exists values minval,
    select [[5; -3]; [7; 0]] [[true; false]; [true; true]] = inl values /\
    In minval values /\
    preprocess [[5; -3]; [7; 0]] [[true; false]; [true; true]] =
      inl (map (map (fun vm : Z * bool =>
                       if snd vm then (fst vm - minval + 1) mod 256 else 0))
               (pixels [[5; -3]; [7; 0]] [[true; false]; [true; true]])).
Proof.
  destruct (preprocess_shifts_the_masked_pixels
              [[5; -3]; [7; 0]] [[true; false]; [true; true]])
    as (values & minval & S & I & _ & P & _).
  - reflexivity.
  - exists [true; false]. simpl. auto.
  - exists values, minval. split; [exact S|]. split; [exact I|exact P].
Defined.

Lemma empty_mask_ends_the_call_witness :
  is_exn (haralick_texture_features (fun _ => inl []) [[[3]]]
            [[[true]]; [[false]]]) = true.
Proof.
  apply (empty_mask_ends_the_call (fun _ => inl []) [[3]]
           [[[true]]; [[false]]]).
  - repeat constructor.
  - apply Exists_cons_tl, Exists_cons_hd.
    intros (row & Hr & Ht). simpl in Hr, Ht.
    destruct Hr as [<-|[]]. destruct Ht as [Ht|[]]. discriminate.
Defined.

Lemma caught_errors_leave_nan_witness :
  exists rows,
    haralick_texture_features (fun _ => inr (ValueError "the input is empty"))
                              [[[3]]] [[[true]]] = inl rows.
Proof.
  destruct (caught_errors_leave_nan
              (fun _ => inr (ValueError "the input is empty"))
              [[3]] [[[true]]])
    as (rows & E & _).
  - intros img e H. injection H as <-. eexists. reflexivity.
  - repeat constructor. exists [true]. simpl. auto.
  - exists rows. exact E.
Defined.

End TextureWitnesses.

(* ================================================================== *)
(** * [SegmentThresh]: the masks of two thresholds *)
(* ================================================================== *)

Section ThreshFacts.
Import Py Thresh.

Lemma Qltb_lt x y : (x < y)%Q -> SparseMed.Qltb x y = true.
Proof.
  intros H. destruct (SparseMed.Qltb x y) eqn:E; [reflexivity|].
  apply Qltb_false in E. exfalso. exact (Qlt_not_le _ _ H E).
Qed.

(** X27.  For negative thresholds the masks are nested: a pixel selected
    with a threshold is selected with every higher (negative) threshold,
    both masks have the shape of the image, and no pixel at or above the
    background level (0) is ever selected. *)
Theorem masks_grow_with_the_threshold image (t1 t2 : Q) :
  (t1 <= t2)%Q -> (t2 < 0)%Q ->
  exists m1 m2,
    segment_approach image t1 = inl m1 /\
    segment_approach image t2 = inl m2 /\
    Forall2 (Forall2 (fun a b : bool => a = true -> b = true)) m1 m2 /\
    Forall2 (Forall2 (fun (v : Z) (b : bool) => b = true -> v < 0)) image m2.
Proof.
  intros H12 H2. unfold segment_approach.
  rewrite (Qltb_lt t1 0) by (eapply Qle_lt_trans; eassumption).
  rewrite (Qltb_lt t2 0) by exact H2.
  eexists. eexists. split; [reflexivity|]. split; [reflexivity|]. split.
  - induction image as [|row image IH]; simpl; constructor; [|exact IH].
    induction row as [|v row IHr]; simpl; constructor; [|exact IHr].
    intros A. apply Qltb_true in A. apply Qltb_lt.
    eapply Qlt_le_trans; eassumption.
  - induction image as [|row image IH]; simpl; constructor; [|exact IH].
    induction row as [|v row IHr]; simpl; constructor; [|exact IHr].
    intros A. apply Qltb_true in A.
    assert (L : (inject_Z v < inject_Z 0)%Q)
      by (eapply Qlt_trans; [exact A|exact H2]).
    rewrite <- Zlt_Qlt in L. exact L.
Qed.

Lemma masks_grow_with_the_threshold_witness :
  exists m1 m2,
    segment_approach [[-7; -3; 0; 4]] (-6) = inl m1 /\
    segment_approach [[-7; -3; 0; 4]] (-5 # 2) = inl m2.
Proof.
  destruct (masks_grow_with_the_threshold [[-7; -3; 0; 4]] (-6) (-5 # 2))
    as (m1 & m2 & E1 & E2 & _).
  - vm_compute. discriminate.
  - reflexivity.
  - exists m1, m2. split; [exact E1|exact E2].
Defined.

End ThreshFacts.

(* ================================================================== *)
(** * Event gating: which events are returned, which are counted *)
(* ================================================================== *)

Section GatingFacts.
Import Py Gating.
Local Open Scope string_scope.

Variable V : Type.
Variable is_true : V -> bool.
Implicit Types (ev : events V) (keep : list bool).

Lemma length_compress_le {A : Type} (a : list A) keep :
  (length (compress a keep) <= length keep)%nat.
Proof.
  unfold compress. rewrite length_map.
  etransitivity; [apply filter_length_le|].
  rewrite length_combine. lia.
Qed.

Lemma select_events_ok ev keep :
  Forall (fun kv => length (snd kv) = length keep) ev ->
  select_events ev keep
  = inl (map (fun kv => (fst kv, compress (snd kv) keep)) ev).
Proof.
  induction 1 as [|[k a] ev H F IH]; [reflexivity|].
  simpl in H. cbn [select_events]. unfold np_compress.
  rewrite H, Nat.eqb_refl. cbn [bind]. rewrite IH. reflexivity.
Qed.

Lemma pop_present ev key a :
  NoDup (map fst ev) -> In (key, a) ev ->
  pop ev key
  = inl (a, filter (fun kv => negb (String.eqb (fst kv) key)) ev).
Proof.
  induction ev as [|[k a'] ev IH]; intros N I; [destruct I|].
  cbn [map fst] in N. inversion N as [|? ? Nk N']; subst.
  cbn [pop filter fst]. destruct (String.eqb_spec k key) as [->|Hne].
  - cbn [negb]. destruct I as [E|I].
    + injection E as ->. do 2 f_equal.
      symmetry. apply forallb_filter_id. apply forallb_forall.
      intros [k2 a2] H2. simpl. apply negb_true_iff, String.eqb_neq.
      intros ->. apply Nk. apply in_map_iff. exists (key, a2). auto.
    + exfalso. apply Nk. apply in_map_iff. exists (key, a). auto.
  - destruct I as [E|I]; [congruence|].
    rewrite (IH N' I). reflexivity.
Qed.

(** Selecting twice is selecting with the conjunction. *)
Lemma compress_compress {A B : Type} (f : B -> bool) (a : list A) :
  forall (g : list bool) (v : list B),
    length a = length g -> length v = length g ->
    compress (compress a g) (map f (compress v g))
    = compress a (map (fun gv => fst gv && f (snd gv)) (combine g v)).
Proof.
  unfold compress.
  induction a as [|x a IH]; intros [|b g] [|y v] La Lv; simpl in *;
    try lia; try reflexivity.
  destruct b; simpl.
  - destruct (f y); simpl; rewrite IH by lia; reflexivity.
  - apply IH; lia.
Qed.

Lemma compress_all {A : Type} (a : list A) keep :
  length a = length keep ->
  existsb (fun b : bool => b) (map negb keep) = false ->
  compress a keep = a.
Proof.
  unfold compress. revert keep.
  induction a as [|x a IH]; intros [|b keep] L H; simpl in *;
    try lia; try reflexivity.
  destruct b; simpl in *; [|discriminate].
  rewrite IH by (try lia; exact H). reflexivity.
Qed.

Lemma count_invalid (g : list bool) : forall (v : list V),
  length v = length g ->
  filter (fun b : bool => b) (map negb (map is_true (compress v g)))
  = filter (fun b : bool => b)
           (map (fun gv => fst gv && negb (is_true (snd gv))) (combine g v)).
Proof.
  unfold compress.
  induction g as [|b g IH]; intros [|y v] L; simpl in *; try lia;
    try reflexivity.
  destruct b; simpl.
  - destruct (is_true y); simpl; rewrite IH by lia; reflexivity.
  - apply IH. lia.
Qed.

Lemma no_invalid_count (flags : list bool) :
  existsb (fun b : bool => b) flags = false ->
  filter (fun b : bool => b) flags = [].
Proof.
  induction flags as [|b flags IH]; simpl; [reflexivity|].
  destruct b; simpl; [discriminate|exact IH].
Qed.

Lemma length_compress {A : Type} (a : list A) keep :
  length a = length keep ->
  length (compress a keep) = length (filter (fun b : bool => b) keep).
Proof.
  unfold compress. rewrite length_map. revert keep.
  induction a as [|x a IH]; intros [|b keep] L; simpl in *; try lia.
  destruct b; simpl; rewrite IH by lia; reflexivity.
Qed.

(** Lines 216-227: the removal of the invalid events. *)
Lemma clean_spec (gated : events V) valid c :
  NoDup (map fst gated) -> In ("valid", valid) gated ->
  Forall (fun kv => length (snd kv) = length valid) gated ->
  0 <= c -> c + Z.of_nat (length valid) < 2 ^ 64 ->
  match pop gated "valid" with
  | inr e => (inr e, c)
  | inl (valid, gated_events) =>
      if existsb (fun b : bool => b) (map negb (map is_true valid)) then
        (select_events gated_events (map is_true valid),
         (c + Z.of_nat (length (filter (fun b : bool => b)
                                       (map negb (map is_true valid)))))
         mod 2 ^ 64)
      else (inl gated_events, c)
  end
  = (inl (map (fun kv => (fst kv, compress (snd kv) (map is_true valid)))
              (filter (fun kv => negb (String.eqb (fst kv) "valid")) gated)),
     c + Z.of_nat (length (filter (fun b : bool => b)
                                  (map negb (map is_true valid))))).
Proof.
  intros N I F Hc Hmax. rewrite (pop_present gated "valid" valid N I).
  set (rest := filter (fun kv => negb (String.eqb (fst kv) "valid")) gated).
  assert (Fr : Forall (fun kv => length (snd kv)
                                 = length (map is_true valid)) rest).
  { apply Forall_forall. intros kv Hkv. unfold rest in Hkv.
    apply filter_In in Hkv as [Hkv _]. rewrite length_map.
    rewrite Forall_forall in F. apply F. exact Hkv. }
  destruct (existsb _ _) eqn:E.
  - rewrite (select_events_ok rest _ Fr). f_equal.
    apply Z.mod_small.
    pose proof (filter_length_le (fun b : bool => b)
                  (map negb (map is_true valid))) as L.
    rewrite !length_map in L. lia.
  - rewrite (no_invalid_count _ E). cbn [length]. f_equal; [|lia].
    f_equal. symmetry.
    rewrite <- (map_id rest) at 2. apply map_ext_in.
    intros [k a] Hk. cbn [fst snd]. f_equal.
    apply compress_all; [|exact E].
    rewrite Forall_forall in Fr. apply (Fr _ Hk).
Qed.

Lemma gated_rest (ev : events V) (g : list bool) valid :
  length valid = length g ->
  Forall (fun kv => length (snd kv) = length g) ev ->
  map (fun kv => (fst kv, compress (snd kv) (map is_true (compress valid g))))
      (filter (fun kv => negb (String.eqb (fst kv) "valid"))
              (map (fun kv => (fst kv, compress (snd kv) g)) ev))
  = map (fun kv => (fst kv,
                    compress (snd kv)
                      (map (fun gv => fst gv && is_true (snd gv))
                           (combine g valid))))
        (filter (fun kv => negb (String.eqb (fst kv) "valid")) ev).
Proof.
  intros Lv. induction 1 as [|[k a] ev H F IH]; [reflexivity|].
  cbn [map filter fst snd]. simpl in H.
  destruct (negb (String.eqb k "valid")); [|exact IH].
  cbn [map fst snd]. rewrite IH. f_equal. f_equal.
  apply compress_compress; assumption.
Qed.

(** X28.  Let the feature dictionary hold one array per feature, all with
    one entry per mask, among them the boolean array "valid".  The events
    that are returned are those that pass the box gates (if there are any)
    and are flagged valid: every feature array is cut down to these
    events, in order, and the key "valid" is gone.  The invalid-mask
    counter grows by the number of events that passed the box gates and
    are flagged invalid; an invalid event that the box gates removed is
    not counted. *)
Theorem gating_returns_valid_gated_events
  (box_gates : bool) (gate_events : events V -> list bool)
  (ev : events V) (valid : list V) (c : Z) :
  NoDup (map fst ev) -> In ("valid", valid) ev ->
  Forall (fun kv => length (snd kv) = length valid) ev ->
  (box_gates = true -> length (gate_events ev) = length valid) ->
  0 <= c -> c + Z.of_nat (length valid) < 2 ^ 64 ->
  gate_and_clean is_true box_gates gate_events ev c
  = (inl (map (fun kv =>
                 (fst kv,
                  compress (snd kv)
                           (passes is_true box_gates gate_events ev valid)))
              (filter (fun kv => negb (String.eqb (fst kv) "valid")) ev)),
     c + Z.of_nat (length (filter (fun b : bool => b)
                             (dropped_invalid is_true box_gates gate_events
                                              ev valid)))).
Proof.
  intros N I F G Hc Hmax.
  unfold gate_and_clean, passes, dropped_invalid.
  destruct box_gates.
  - specialize (G eq_refl). set (g := gate_events ev) in *.
    assert (Fg : Forall (fun kv => length (snd kv) = length g) ev).
    { eapply Forall_impl; [|exact F]. intros kv H. simpl in H. lia. }
    rewrite (select_events_ok ev g Fg). cbv beta iota zeta.
    set (gated := map (fun kv => (fst kv, compress (snd kv) g)) ev).
    assert (Ng : NoDup (map fst gated)).
    { unfold gated. rewrite map_map. cbn [fst]. exact N. }
    assert (Ig : In ("valid", compress valid g) gated).
    { unfold gated. apply in_map_iff. exists ("valid", valid).
      split; [reflexivity|exact I]. }
    assert (Fgated : Forall (fun kv => length (snd kv)
                                       = length (compress valid g)) gated).
    { unfold gated. apply Forall_forall. intros kv Hkv.
      apply in_map_iff in Hkv as (kv0 & <- & H0). cbn [snd].
      rewrite Forall_forall in Fg.
      rewrite !length_compress; [reflexivity|lia|apply (Fg _ H0)]. }
    pose proof (length_compress_le valid g) as Lc.
    rewrite (clean_spec gated (compress valid g) c Ng Ig Fgated Hc)
      by lia.
    unfold gated. rewrite gated_rest by (try assumption; lia).
    rewrite count_invalid by lia. reflexivity.
  - cbv beta iota zeta. rewrite (clean_spec ev valid c N I F Hc Hmax).
    rewrite map_map. reflexivity.
Qed.

End GatingFacts.

Section GatingWitnesses.
Import Py Gating.
Local Open Scope string_scope.

Lemma gating_returns_valid_gated_events_witness :
  gate_and_clean (fun v => negb (Z.eqb v 0)) true (fun _ => [true; false; true])
                 [("area", [5; 6; 7]); ("valid", [1; 0; 0])] 0
  = (inl [("area", [5])], 1).
Proof.
  apply (gating_returns_valid_gated_events
           Z (fun v => negb (Z.eqb v 0)) true (fun _ => [true; false; true])
           [("area", [5; 6; 7]); ("valid", [1; 0; 0])] [1; 0; 0] 0).
  - constructor; [simpl; intros [H|[]]; discriminate|].
    constructor; [simpl; tauto|constructor].
  - simpl. auto.
  - repeat constructor.
  - reflexivity.
  - lia.
  - simpl. lia.
Defined.

End GatingWitnesses.

(* ================================================================== *)
(** * Pipeline identifiers: the number of colons *)
(* ================================================================== *)

Section PpidText.
Import Py Ppid PpidText.
Local Open Scope string_scope.

Lemma split_on_nonempty sep s : split_on sep s <> [].
Proof.
  destruct s as [|c s]; simpl; [discriminate|].
  destruct (Ascii.eqb c sep); [discriminate|].
  destruct (split_on sep s); discriminate.
Qed.

Lemma length_split_on sep s :
  length (split_on sep s) = S (count_char sep s).
Proof.
  induction s as [|c s IH]; simpl; [reflexivity|].
  destruct (Ascii.eqb c sep); simpl; [rewrite IH; reflexivity|].
  destruct (split_on sep s) as [|h t] eqn:E; simpl in *; [discriminate|].
  exact IH.
Qed.

(** X29.  [get_ppkw_from_ppid] unpacks the parts around ":" into exactly
    two names before it looks at either: an identifier without a colon or
    with more than one is refused with [ValueError] -- also when its code
    is "legacy" and all its segments are well-formed. *)
Theorem identifier_needs_one_colon (extr_ppid : string) :
  count_char ":" extr_ppid <> 1%nat ->
  exists msg, get_ppkw_from_ppid extr_ppid = inr (ValueError msg).
Proof.
  intros H. unfold get_ppkw_from_ppid.
  pose proof (length_split_on ":" extr_ppid) as L.
  destruct (split_on ":" extr_ppid) as [|a [|b [|c l]]]; simpl in L.
  - discriminate.
  - eexists. reflexivity.
  - exfalso. apply H. lia.
  - eexists. reflexivity.
Qed.

Lemma identifier_needs_one_colon_witness :
  exists msg, get_ppkw_from_ppid "legacy:b=1:h=1" = inr (ValueError msg).
Proof.
  apply (identifier_needs_one_colon "legacy:b=1:h=1").
  vm_compute. discriminate.
Defined.

End PpidText.
